(** * Brokkr: the logging backbone ([src/brokkr/logger.py])

    A shallow embedding of the severity mapper, the handler configuration
    renderer, the worker-side emitter setup and the queue listener, with
    the properties that the specification states about them. *)

From stdpp Require Import gmap strings list fin_maps.
From Stdlib Require Import ZArith Lia Ascii DecimalString.

Local Open Scope Z_scope.

(** ** The numeric levels of the standard [logging] module *)

Module logging.

Definition CRITICAL : Z := 50.
Definition FATAL : Z := CRITICAL.
Definition ERROR : Z := 40.
Definition WARNING : Z := 30.
Definition WARN : Z := WARNING.
Definition INFO : Z := 20.
Definition DEBUG : Z := 10.
Definition NOTSET : Z := 0.

(** The standard severities, least severe first. *)
Definition standard_levels : list Z := [DEBUG; INFO; WARNING; ERROR; CRITICAL].

End logging.

(** ** Severity mapper: [determine_log_level] (logger.py, lines 27-61) *)

Definition MAX_VERBOSE : Z := 3.
Definition MIN_VERBOSE : Z := -3.

(** The dict literal [LOG_LEVEL], inserted in source order. *)
Definition LOG_LEVEL : gmap Z Z :=
  <[3 := 2]> (<[2 := logging.DEBUG]> (<[1 := logging.INFO]>
  (<[0 := logging.WARNING]> (<[-1 := logging.ERROR]>
  (<[-2 := logging.CRITICAL]> (<[-3 := 99]> ∅)))))).

(** [round] on a Python [int] is the identity; the verbosity is the
    integer difference of two flag counts. *)
Definition round (verbose : Z) : Z := verbose.

(** [LOG_LEVEL[k]] raises [KeyError] on a missing key: [None] here. *)
Definition determine_log_level (verbose : Z) : option Z :=
  let verbose := round verbose in
  if verbose >? MAX_VERBOSE then LOG_LEVEL !! MAX_VERBOSE
  else if verbose <? MIN_VERBOSE then LOG_LEVEL !! MIN_VERBOSE
  else LOG_LEVEL !! verbose.

(** ** Exceptions and fallible results *)

(** The exception classes the modelled code can meet.  [KeyboardInterrupt]
    and [SystemExit] derive from [BaseException] only, so an
    [except Exception] clause lets them pass.  [NotModelled] is no Python
    exception: it marks an input on which a library function is not
    modelled, and no property is stated about such inputs. *)
Inductive exn :=
| Empty | InterruptedError | AttributeError | KeyError (k : string)
| ValueError | TypeError | IndexError | StopIteration | OSError | RuntimeError
| FileExistsError | FileNotFoundError | NotADirectoryError | PermissionError
| KeyboardInterrupt | SystemExit
| NotModelled.

Definition is_Exception (e : exn) : bool :=
  match e with
  | KeyboardInterrupt | SystemExit => false
  | _ => true
  end.

(** The classes that derive from [OSError]. *)
Definition is_OSError (e : exn) : bool :=
  match e with
  | OSError | InterruptedError | FileExistsError | FileNotFoundError
  | NotADirectoryError | PermissionError => true
  | _ => false
  end.

Inductive result (A : Type) :=
| Ok (a : A)
| Raise (e : exn).
Arguments Ok {A} a.
Arguments Raise {A} e.

#[global] Instance result_ret : MRet result := fun _ a => Ok a.
#[global] Instance result_bind : MBind result := fun _ _ f m =>
  match m with
  | Ok a => f a
  | Raise e => Raise e
  end.

Definition of_option {A} (o : option A) (e : exn) : result A :=
  match o with
  | Some a => Ok a
  | None => Raise e
  end.

(** ** Strings: [str.upper], [int(str)], [str.format] *)

Definition upper_ascii (c : ascii) : ascii :=
  let n := Ascii.nat_of_ascii c in
  if ((97 <=? n) && (n <=? 122))%nat then Ascii.ascii_of_nat (n - 32) else c.

(** [str.upper] on the ASCII letters; other bytes are kept. *)
Fixpoint upper (s : string) : string :=
  match s with
  | EmptyString => EmptyString
  | String c s' => String (upper_ascii c) (upper s')
  end.

Definition digit_of (c : ascii) : option Z :=
  let n := Ascii.nat_of_ascii c in
  if ((48 <=? n) && (n <=? 57))%nat then Some (Z.of_nat (n - 48)) else None.

Fixpoint parse_digits (s : string) (acc : Z) : option Z :=
  match s with
  | EmptyString => Some acc
  | String c s' =>
      match digit_of c with
      | Some d => parse_digits s' (10 * acc + d)
      | None => None
      end
  end.

(** [int(s)] for a plain decimal numeral with an optional sign; any other
    string is a [ValueError] ([None]). *)
Definition int_of_str (s : string) : option Z :=
  match s with
  | EmptyString => None
  | String "-" EmptyString | String "+" EmptyString => None
  | String "-" s' => Z.opp <$> parse_digits s' 0
  | String "+" s' => parse_digits s' 0
  | _ => parse_digits s 0
  end.

(** [str.format] called with keyword arguments only.  A replacement
    field [{name}] whose name is an identifier is replaced by the argument
    bound to [name] ([KeyError] when there is none); the positional
    fields [{}] and [{0}] are an [IndexError]; doubled braces stand for
    one brace; a lone closing brace and an unclosed field are a
    [ValueError].  Fields with a conversion, a format specification or an
    attribute or index lookup are outside the model: [NotModelled]. *)
Definition is_digit (c : ascii) : bool :=
  let n := Ascii.nat_of_ascii c in ((48 <=? n) && (n <=? 57))%nat.

Definition is_letter (c : ascii) : bool :=
  let n := Ascii.nat_of_ascii c in
  (((65 <=? n) && (n <=? 90)) || ((97 <=? n) && (n <=? 122)) || (n =? 95))%nat.

Fixpoint all_chars (p : ascii -> bool) (s : string) : bool :=
  match s with
  | EmptyString => true
  | String c s' => p c && all_chars p s'
  end.

Definition is_identifier (s : string) : bool :=
  match s with
  | EmptyString => false
  | String c s' => is_letter c && all_chars (fun c => is_letter c || is_digit c) s'
  end.

Fixpoint format_field (s : string) (name : string) : option (string * string) :=
  match s with
  | EmptyString => None
  | String "}" rest => Some (name, rest)
  | String c rest => format_field rest (name +:+ String c EmptyString)
  end.

Fixpoint format_aux (fuel : nat) (s : string) (args : gmap string string)
  : result string :=
  match fuel with
  | O => Ok EmptyString
  | S fuel =>
      match s with
      | EmptyString => Ok EmptyString
      | String "{" (String "{" rest) =>
          out ← format_aux fuel rest args; Ok (String "{" out)
      | String "}" (String "}" rest) =>
          out ← format_aux fuel rest args; Ok (String "}" out)
      | String "}" _ => Raise ValueError
      | String "{" rest =>
          match format_field rest EmptyString with
          | None => Raise ValueError
          | Some (name, rest') =>
              if all_chars is_digit name then Raise IndexError
              else if is_identifier name then
                v ← of_option (args !! name) (KeyError name);
                out ← format_aux fuel rest' args;
                Ok (v +:+ out)
              else Raise NotModelled
          end
      | String c rest =>
          out ← format_aux fuel rest args; Ok (String c out)
      end
  end.

(** Every round takes at least one character, so the length of the
    template is fuel enough. *)
Definition format (s : string) (args : gmap string string) : result string :=
  format_aux (S (String.length s)) s args.

(** ** Paths ([pathlib.PurePosixPath]) and the directory tree *)

Record Path := mkPath { is_absolute : bool; parts : list string }.

#[global] Instance Path_eq_dec : EqDecision Path.
Proof. solve_decision. Defined.

#[global] Instance Path_countable : Countable Path.
Proof.
  refine (inj_countable' (fun p => (is_absolute p, parts p))
                         (fun t => mkPath t.1 t.2) _).
  intros []; reflexivity.
Defined.

(** [a / b]: an absolute right operand replaces the left one. *)
Definition joinpath (a b : Path) : Path :=
  if is_absolute b then b else mkPath (is_absolute a) (parts a ++ parts b).

(** [p.parent]: the path without its last component; a path with no
    component is its own parent. *)
Definition parent (p : Path) : Path :=
  mkPath (is_absolute p) (removelast (parts p)).

(** Splitting a string at its slashes; [cur] is the component read so far. *)
Fixpoint split_slash (s : string) (cur : string) : list string :=
  match s with
  | EmptyString => [cur]
  | String "/" rest => cur :: split_slash rest EmptyString
  | String c rest => split_slash rest (cur +:+ String c EmptyString)
  end.

Definition kept_component (c : string) : bool :=
  negb (String.eqb c EmptyString) && negb (String.eqb c ".").

(** The path constructor on a string: empty and [.] components are
    dropped, and the path is absolute when the string starts with a slash
    (the two-slash root of POSIX is not told apart from the root). *)
Definition posix_path (s : string) : Path :=
  mkPath (match s with String "/" _ => true | _ => false end)
         (filter (fun c => Is_true (kept_component c)) (split_slash s EmptyString)).

(** The directories that exist, the root and the working directory apart
    (those two always exist). *)
Definition FS := gset Path.

(** What the tree holds besides directories and does not change while
    the renderer runs: the regular files, and the places where the
    system refuses a new directory (a parent directory that cannot be
    written, a read-only file system). *)
Record Disk := mkDisk { isfile : Path -> bool; refused : Path -> bool }.

(** [os.path.isdir]. *)
Definition isdir (fs : FS) (p : Path) : Prop :=
  parts p = [] \/ p ∈ fs.

#[global] Instance isdir_dec (fs : FS) (p : Path) : Decision (isdir fs p).
Proof. unfold isdir. apply _. Defined.

(** [os.path.exists]. *)
Definition path_exists (disk : Disk) (fs : FS) (p : Path) : bool :=
  bool_decide (isdir fs p) || isfile disk p.

(** [os.mkdir(p)]: the path must not exist, its parent must be a
    directory, and the system must not refuse. *)
Definition mkdir (disk : Disk) (p : Path) (fs : FS) : result unit * FS :=
  if path_exists disk fs p then (Raise FileExistsError, fs)
  else if negb (bool_decide (isdir fs (parent p)))
       then (Raise (if isfile disk (parent p) then NotADirectoryError
                    else FileNotFoundError), fs)
  else if refused disk p then (Raise PermissionError, fs)
  else (Ok tt, {[p]} ∪ fs).

(** The end of [os.makedirs]: [mkdir], whose [OSError] is passed over
    when [exist_ok] is set and the path is a directory. *)
Definition mkdir_exist_ok (disk : Disk) (name : Path) (fs : FS) : result unit * FS :=
  match mkdir disk name fs with
  | (Raise e, fs) =>
      if is_OSError e && bool_decide (isdir fs name) then (Ok tt, fs)
      else (Raise e, fs)
  | r => r
  end.

(** [os.makedirs(name, exist_ok=True)].  When the head of the path does
    not exist it is made first, by the same function, and a
    [FileExistsError] of that call is passed over; then comes the
    directory itself.  A head without a component is the root or the
    working directory, which exist; a path of [pathlib] has no [.]
    component, so the early return for such a tail does not arise.
    [depth] bounds the recursion; the number of components of the path
    is enough. *)
Fixpoint makedirs_aux (depth : nat) (disk : Disk) (name : Path) (fs : FS)
  : result unit * FS :=
  match depth with
  | S depth =>
      let head := parent name in
      if negb (bool_decide (parts head = [])) && negb (path_exists disk fs head)
      then match makedirs_aux depth disk head fs with
           | (Ok _, fs) | (Raise FileExistsError, fs) => mkdir_exist_ok disk name fs
           | (Raise e, fs) => (Raise e, fs)
           end
      else mkdir_exist_ok disk name fs
  | O => mkdir_exist_ok disk name fs
  end.

Definition makedirs (disk : Disk) (name : Path) (fs : FS) : result unit * FS :=
  makedirs_aux (length (parts name)) disk name fs.

(** ** The routing configuration (a [logging.config] dictionary) *)

(** A level as it stands in a configuration or is passed as an override:
    [None], an integer, or a string. *)
Inductive Level :=
| LNone
| LInt (n : Z)
| LStr (s : string).

(** The value under a handler's ["filename"] key: absent or [None], a
    string (the template), or the path stored back by the renderer. *)
Inductive Filename :=
| FNone
| FStr (s : string)
| FPath (p : Path).

Record Handler := mkHandler { h_level : Level; h_filename : Filename }.

(** [handlers] keeps the insertion order of the Python dict. *)
Record Config := mkConfig {
  handlers : list (string * Handler);
  root_level : Level;
  root_handlers : list string;
}.

Fixpoint lookup_handler (name : string) (hs : list (string * Handler))
  : option Handler :=
  match hs with
  | [] => None
  | (k, h) :: hs' => if String.eqb k name then Some h else lookup_handler name hs'
  end.

(** [hs[name]["level"] = level] for a [name] that is a key of [hs]. *)
Fixpoint set_handler_level (name : string) (level : Level)
  (hs : list (string * Handler)) : list (string * Handler) :=
  match hs with
  | [] => []
  | (k, h) :: hs' =>
      if String.eqb k name then (k, mkHandler level (h_filename h)) :: hs'
      else (k, h) :: set_handler_level name level hs'
  end.

(** Truth value of a level: [None], [0] and the empty string are falsy. *)
Definition truthy (l : Level) : bool :=
  match l with
  | LNone => false
  | LInt n => negb (n =? 0)
  | LStr s => negb (String.eqb s EmptyString)
  end.

(** The level names of the [logging] module, as [getattr] finds them. *)
Definition level_names : list (string * Z) :=
  [("CRITICAL", logging.CRITICAL); ("FATAL", logging.FATAL);
   ("ERROR", logging.ERROR); ("WARNING", logging.WARNING);
   ("WARN", logging.WARN); ("INFO", logging.INFO);
   ("DEBUG", logging.DEBUG); ("NOTSET", logging.NOTSET)]%string.

Definition logging_getattr (name : string) : option Z :=
  snd <$> List.find (fun kv => String.eqb (fst kv) name) level_names.

(** [int(getattr(logging, str(level_name), level_name))]: a level name
    gives its number, an integer is itself, a numeral string is read by
    [int]; of the module's attributes only the level names are modelled. *)
Definition level_number (l : Level) : result Z :=
  match l with
  | LNone => Raise TypeError
  | LInt n => Ok n
  | LStr s =>
      match logging_getattr s with
      | Some n => Ok n
      | None => of_option (int_of_str s) ValueError
      end
  end.

(** ** Handler configuration renderer (logger.py, lines 97-148) *)

Definition upper_level (l : Level) : Level :=
  match l with
  | LStr s => LStr (upper s)
  | _ => l
  end.

(** One round of the loop over [("file", file_level), ("console",
    console_level)]. *)
Definition apply_level (handler : string) (level : Level) (cfg : Config)
  : result Config :=
  if truthy level then
    match lookup_handler handler (handlers cfg) with
    | None => Raise (KeyError handler)
    | Some _ =>
        Ok (mkConfig (set_handler_level handler level (handlers cfg))
                     (root_level cfg)
                     (if bool_decide (handler ∈ root_handlers cfg)
                      then root_handlers cfg
                      else root_handlers cfg ++ [handler]))
    end
  else Ok cfg.

(** The generator's filter [level == 0 or level]. *)
Definition level_eq_zero (l : Level) : bool :=
  match l with
  | LInt n => n =? 0
  | _ => false
  end.

Definition tocheck (l : Level) : bool := level_eq_zero l || truthy l.

Fixpoint level_numbers (ls : list Level) : result (list Z) :=
  match ls with
  | [] => Ok []
  | l :: ls' =>
      n ← level_number l; ns ← level_numbers ls'; Ok (n :: ns)
  end.

(** [min] of an iterable of integers; the empty one is a [ValueError]. *)
Definition py_min (ns : list Z) : result Z :=
  match ns with
  | [] => Raise ValueError
  | n :: ns' => Ok (fold_left Z.min ns' n)
  end.

Definition setup_log_levels (log_config : Config)
  (file_level console_level : Level) : result Config :=
  let file_level := upper_level file_level in
  let console_level := upper_level console_level in
  cfg ← apply_level "file" file_level log_config;
  cfg ← apply_level "console" console_level cfg;
  let levels_tocheck :=
    List.filter tocheck [file_level; console_level; root_level cfg] in
  ns ← level_numbers levels_tocheck;
  level_min ← py_min ns;
  Ok (mkConfig (handlers cfg) (LInt level_min) (root_handlers cfg)).

Definition filename_truthy (f : Filename) : bool :=
  match f with
  | FNone => false
  | FStr s => negb (String.eqb s EmptyString)
  | FPath _ => true
  end.

(** A copy shares nothing with its original; on immutable values it is
    the value itself. *)
Definition deepcopy (c : Config) : Config := c.

Section Renderer.

(** [brokkr.utils.misc.convert_path] is not part of the sources at hand:
    it is any function from the substituted filename to a path. *)
Variable convert_path : string -> Path.

(** The regular files and refusals that the run meets. *)
Variable disk : Disk.

(** The body of the loop for a handler whose filename is a string. *)
Definition resolve_filename (output_path : option Path)
  (filename_args : gmap string string) (template : string) : result Path :=
  s ← format template filename_args;
  let log_filename := convert_path s in
  Ok (match negb (is_absolute log_filename), output_path with
      | true, Some base => joinpath base log_filename
      | _, _ => log_filename
      end).

(** One handler of the loop; the directory tree is threaded through, a
    path object (which has no [format] method) is an [AttributeError],
    and the filename is stored only after the directory is there. *)
Definition setup_handler_path (output_path : option Path)
  (filename_args : gmap string string) (h : Handler) (fs : FS)
  : result Handler * FS :=
  if filename_truthy (h_filename h) then
    match h_filename h with
    | FStr template =>
        match resolve_filename output_path filename_args template with
        | Ok log_filename =>
            match makedirs disk (parent log_filename) fs with
            | (Ok _, fs) => (Ok (mkHandler (h_level h) (FPath log_filename)), fs)
            | (Raise e, fs) => (Raise e, fs)
            end
        | Raise e => (Raise e, fs)
        end
    | FPath _ => (Raise AttributeError, fs)
    | FNone => (Ok h, fs)
    end
  else (Ok h, fs).

Fixpoint setup_handlers_paths (output_path : option Path)
  (filename_args : gmap string string) (hs : list (string * Handler)) (fs : FS)
  : result (list (string * Handler)) * FS :=
  match hs with
  | [] => (Ok [], fs)
  | (k, h) :: hs' =>
      match setup_handler_path output_path filename_args h fs with
      | (Ok h', fs') =>
          match setup_handlers_paths output_path filename_args hs' fs' with
          | (Ok hs'', fs'') => (Ok ((k, h') :: hs''), fs'')
          | (Raise e, fs'') => (Raise e, fs'')
          end
      | (Raise e, fs') => (Raise e, fs')
      end
  end.

Definition setup_log_handler_paths (log_config : Config)
  (output_path : option Path) (filename_args : gmap string string) (fs : FS)
  : result Config * FS :=
  match setup_handlers_paths output_path filename_args (handlers log_config) fs with
  | (Ok hs, fs') =>
      (Ok (mkConfig hs (root_level log_config) (root_handlers log_config)), fs')
  | (Raise e, fs') => (Raise e, fs')
  end.

Definition render_full_log_config (log_config : Config)
  (log_level_file log_level_console : Level) (output_path : option Path)
  (filename_kwargs : gmap string string) (fs : FS) : result Config * FS :=
  let log_config := deepcopy log_config in
  match setup_log_handler_paths log_config output_path filename_kwargs fs with
  | (Ok log_config, fs') =>
      if truthy log_level_file || truthy log_level_console
      then (setup_log_levels log_config log_level_file log_level_console, fs')
      else (Ok log_config, fs')
  | (Raise e, fs') => (Raise e, fs')
  end.

End Renderer.

(** ** Log records and the shared queue *)

Record LogRecord := mkRecord { name : string; levelno : Z; msg : string }.

(** What a queue can hold: the sentinel [LOG_RECORD_SENTINEL], a log
    record, or any other object (which has no [name] attribute). *)
Inductive item :=
| LOG_RECORD_SENTINEL
| Rec (r : LogRecord)
| Obj (o : nat).

Definition is_sentinel (x : item) : bool :=
  match x with
  | LOG_RECORD_SENTINEL => true
  | _ => false
  end.

(** ** Worker-side emitter setup (logger.py, lines 151-154)

    The part of the standard [logging] package that [setup_worker_config]
    drives: the root logger with its level and its handler list, queue
    handlers compared by object identity, and the queues they feed. *)

Record QueueHandler := mkQueueHandler {
  qh_id : nat;        (* the object's identity *)
  qh_queue : nat;     (* the queue it was built on *)
  qh_level : Z;       (* a new handler has level NOTSET *)
}.

Record Worker := mkWorker {
  root_logger_level : Z;
  root_logger_handlers : list QueueHandler;
  next_object : nat;
  queues : gmap nat (list LogRecord);
}.

(** [logging.handlers.QueueHandler(log_queue)]: a new object. *)
Definition new_QueueHandler (log_queue : nat) (w : Worker) : QueueHandler * Worker :=
  (mkQueueHandler (next_object w) log_queue logging.NOTSET,
   mkWorker (root_logger_level w) (root_logger_handlers w)
            (S (next_object w)) (queues w)).

(** [Logger.addHandler]: appended unless that very object is in the list. *)
Definition addHandler (hdlr : QueueHandler) (w : Worker) : Worker :=
  if bool_decide (qh_id hdlr ∈ qh_id <$> root_logger_handlers w) then w
  else mkWorker (root_logger_level w) (root_logger_handlers w ++ [hdlr])
                (next_object w) (queues w).

Definition setLevel (level : Z) (w : Worker) : Worker :=
  mkWorker level (root_logger_handlers w) (next_object w) (queues w).

Definition setup_worker_config (log_queue : nat) (filter_level : Z) (w : Worker)
  : Worker :=
  let '(hdlr, w) := new_QueueHandler log_queue w in
  let w := addHandler hdlr w in
  setLevel filter_level w.

(** [Queue.put_nowait] on an unbounded queue. *)
Definition put_nowait (q : nat) (r : LogRecord) (qs : gmap nat (list LogRecord))
  : gmap nat (list LogRecord) :=
  alter (fun l => l ++ [r]) q qs.

(** [Logger.callHandlers] on the root logger: each handler whose level the
    record reaches enqueues it. *)
Definition callHandlers (r : LogRecord) (hs : list QueueHandler)
  (qs : gmap nat (list LogRecord)) : gmap nat (list LogRecord) :=
  fold_left (fun qs h => if qh_level h <=? levelno r
                         then put_nowait (qh_queue h) r qs else qs) hs qs.

(** [Logger.isEnabledFor] on the root logger, with [logging.disable] at
    its default of 0. *)
Definition isEnabledFor (level : Z) (w : Worker) : bool :=
  negb (level <=? 0) && (root_logger_level w <=? level).

(** A record emitted by the worker through the root logger (or through a
    logger below it that has no level or handler of its own). *)
Definition emit_record (r : LogRecord) (w : Worker) : Worker :=
  if isEnabledFor (levelno r) w
  then mkWorker (root_logger_level w) (root_logger_handlers w) (next_object w)
                (callHandlers r (root_logger_handlers w) (queues w))
  else w.

(** A worker that has configured nothing yet: the root logger has its
    default level and no handler. *)
Definition fresh_worker (qs : gmap nat (list LogRecord)) : Worker :=
  mkWorker logging.WARNING [] 0 qs.

(** Every handler of the root logger is an object allocated earlier. *)
Definition worker_wf (w : Worker) : Prop :=
  Forall (fun h => (qh_id h < next_object w)%nat) (root_logger_handlers w).

(** How many copies of a record at level [l] the handlers put on queue [q]. *)
Definition deliveries (q : nat) (l : Z) (hs : list QueueHandler) : nat :=
  length (List.filter (fun h => (qh_level h <=? l) && Nat.eqb (qh_queue h) q) hs).

(** ** The listener (logger.py, lines 162-226) *)

(** What the next [get] on the queue meets: an item, or a failure of the
    transport raised in its place.  An exhausted queue raises [Empty]. *)
Inductive cell :=
| Item (x : item)
| Fault (e : exn).

Record Queue := mkQueue { cells : list cell; closed : bool; joined : bool }.

(** The lines the listener writes through its own logger
    ([logging.getLogger(__name__)]), by format string. *)
Inductive message :=
| StartingSystem                      (* "Starting logging system" *)
| GettingFromQueue (e : exn)          (* "%s getting from queue %s: %s" *)
| ErrorDetails                        (* "Error details:" *)
| ShuttingDown                        (* "Shutting down logging system" *)
| PastShutdown (x : item)             (* "Record found in log queue past shutdown: %r" *)
| CleaningUp (e : exn)                (* "%s cleaning up log queue: %s" *)
| ErrorInfo                           (* "Error info:" *)
| SystemShutDown                      (* "Logging system shut down" *)
| LoggingRecord (e : exn) (x : item)  (* "%s logging record %s: %s" *)
| LogRecordInfo (x : item).           (* "Log record info: %r" *)

Inductive event :=
| Configured                              (* the call of log_configurator returned *)
| LogError (m : message)
| LogWarning (m : message)
| LogInfo (m : message)
| Handed (logger_name : string) (r : LogRecord)  (* getLogger(name).handle(r) called *)
| LoggingShutdown.                        (* logging.shutdown() *)

(** The listener's world: the queue, the [threading.Event] objects by
    identity, and what has been observed so far. *)
Record State := mkState {
  log_queue : Queue;
  events : gmap nat bool;
  trace : list event;
}.

Definition observe (evs : list event) (st : State) : State :=
  mkState (log_queue st) (events st) (trace st ++ evs).

Definition with_queue (q : Queue) (st : State) : State :=
  mkState q (events st) (trace st).

(** [Event.set] and [Event.is_set]. *)
Definition set_event (ev : nat) (st : State) : State :=
  mkState (log_queue st) (<[ev := true]> (events st)) (trace st).

Definition is_set (ev : nat) (st : State) : bool :=
  bool_decide (events st !! ev = Some true).

(** [log_queue.get(...)]: the head of the queue, consumed. *)
Definition get (st : State) : result item * State :=
  let q := log_queue st in
  match cells q with
  | [] => (Raise Empty, st)
  | Item x :: cs => (Ok x, with_queue (mkQueue cs (closed q) (joined q)) st)
  | Fault e :: cs => (Raise e, with_queue (mkQueue cs (closed q) (joined q)) st)
  end.

(** The loop of lines 180-187: non-blocking gets until [Empty]; each
    item found is reported by a warning.  The result is the exception
    that left the loop, if one did. *)
Fixpoint drain (cs : list cell) : list event * list cell * option exn :=
  match cs with
  | [] => ([], [], None)
  | Item x :: cs' =>
      let '(evs, rest, e) := drain cs' in
      (LogWarning (PastShutdown x) :: evs, rest, e)
  | Fault Empty :: cs' => ([], cs', None)
  | Fault e :: cs' => ([], cs', Some e)
  end.

(** Lines 179-193: drain, close and join the queue; an [Exception] on the
    way is logged, anything else leaves the function. *)
Definition cleanup (st : State) : option exn * State :=
  let q := log_queue st in
  let '(evs, rest, e) := drain (cells q) in
  let st := observe evs st in
  match e with
  | None => (None, with_queue (mkQueue rest true true) st)
  | Some e =>
      let st := with_queue (mkQueue rest (closed q) (joined q)) st in
      if is_Exception e
      then (None, observe [LogError (CleaningUp e); LogInfo ErrorInfo] st)
      else (Some e, st)
  end.

Section Listener.

(** The destinations are outside the listener: [handle_raises r] is the
    exception that [logging.getLogger(r.name).handle(r)] raises, if any. *)
Variable handle_raises : LogRecord -> option exn.

(** The [try] of lines 201-203 alone. *)
Definition dispatch (log_record : item) (st : State) : option exn * State :=
  match log_record with
  | Rec r => (handle_raises r, observe [Handed (name r) r] st)
  | _ => (Some AttributeError, st)
  end.

Definition handle_queued_log_record (outer_exit_event : option nat) (st : State)
  : result (option item) * State :=
  match get st with
  | (Raise Empty, st) | (Raise InterruptedError, st) => (Ok None, st)
  | (Raise e, st) =>
      if is_Exception e
      then (Ok None, observe [LogError (GettingFromQueue e); LogInfo ErrorDetails] st)
      else (Raise e, st)
  | (Ok log_record, st) =>
      if is_sentinel log_record then
        match outer_exit_event with
        | None => (Raise AttributeError, st)
        | Some ev =>
            let st := set_event ev st in
            let st := observe [LogInfo ShuttingDown] st in
            match cleanup st with
            | (Some e, st) => (Raise e, st)
            | (None, st) =>
                let st := observe [LogInfo SystemShutDown; LoggingShutdown] st in
                match outer_exit_event with
                | None => (Raise StopIteration, st)
                | Some _ => (Ok None, st)
                end
            end
        end
      else
        match dispatch log_record st with
        | (None, st) => (Ok (Some log_record), st)
        | (Some e, st) =>
            if is_Exception e
            then (Ok (Some log_record),
                  observe [LogWarning (LoggingRecord e log_record);
                           LogInfo ErrorInfo;
                           LogInfo (LogRecordInfo log_record)] st)
            else (Raise e, st)
        end
  end.

(** Modelled from the spec: [brokkr.utils.misc.run_periodic] is not part
    of the sources at hand.  Following section 4.4 of the specification
    it calls the function again and again.  A round that handed an item
    back stays in the loop.  A round that came back with nothing (the
    tick ran out, or the shutdown that the sentinel started is over) is
    the cancellation check point: the loop is left when the external
    exit event or the independent stop signal is set by then.
    [StopIteration] is taken as the signal to stop.  The fuel bounds the
    number of rounds; [None] means it ran out. *)
Fixpoint run_periodic (fuel : nat)
  (func : State -> result (option item) * State)
  (exit_event outer_exit_event : option nat) (st : State)
  : option (result unit * State) :=
  match fuel with
  | O => None
  | S fuel =>
      match func st with
      | (Ok (Some _), st) => run_periodic fuel func exit_event outer_exit_event st
      | (Ok None, st) =>
          if from_option (fun ev => is_set ev st) false exit_event
             || from_option (fun ev => is_set ev st) false outer_exit_event
          then Some (Ok tt, st)
          else run_periodic fuel func exit_event outer_exit_event st
      | (Raise StopIteration, st) => Some (Ok tt, st)
      | (Raise e, st) => Some (Raise e, st)
      end
  end.

(** [threading.Event()]: a new, unset event. *)
Definition new_event (st : State) : nat * State :=
  let ev := fresh (dom (events st)) in
  (ev, mkState (log_queue st) (<[ev := false]> (events st)) (trace st)).

(** [log_configurator] is the caller's: [configurator_raises] is the
    exception it ends with, if any. *)
Definition run_log_listener (fuel : nat) (configurator_raises : option exn)
  (exit_event : option nat) (st : State) : option (result unit * State) :=
  match configurator_raises with
  | Some e => Some (Raise e, st)
  | None =>
      let st := observe [Configured; LogInfo StartingSystem] st in
      let '(outer_exit_event, st) := new_event st in
      run_periodic fuel (handle_queued_log_record (Some outer_exit_event))
                   exit_event (Some outer_exit_event) st
  end.

End Listener.

(** ** Loggers below the root ([Logger.getEffectiveLevel],
    [isEnabledFor] and [callHandlers] of the standard package) *)

(** [Logger.getEffectiveLevel] of a logger below the root.  [levels]
    holds the level of the logger itself and of its ancestors below the
    root, the nearest first: the first level that is not NOTSET counts,
    and the root logger's level when there is none. *)
Definition getEffectiveLevel (levels : list Z) (w : Worker) : Z :=
  from_option id (root_logger_level w)
              (head (List.filter (fun l => negb (l =? logging.NOTSET)) levels)).

(** A record emitted through such a logger when neither it nor an
    ancestor below the root has a handler of its own, and all of them
    propagate: [isEnabledFor] asks the effective level, and
    [callHandlers] then reaches the handlers of the root logger without
    asking the root logger's level. *)
Definition emit_record_from (levels : list Z) (r : LogRecord) (w : Worker) : Worker :=
  if negb (levelno r <=? 0) && (getEffectiveLevel levels w <=? levelno r)
  then mkWorker (root_logger_level w) (root_logger_handlers w) (next_object w)
                (callHandlers r (root_logger_handlers w) (queues w))
  else w.

(** ** Basic logging (logger.py, lines 39-94) *)

Definition LOG_FORMAT_BASIC : string := "{message}".
Definition LOG_FORMAT_FANCY : string := "{levelname} | {name} | {message}".

(** The loggers that [setup_basic_logging] touches: the root logger, with
    its level and the format of each of its handlers, and the logger named
    [PACKAGE_NAME], a logger below the root. *)
Record BasicLogging := mkBasicLogging {
  basic_root_level : Z;
  basic_root_formats : list string;
  basic_package_level : Z;
}.

(** [logging.basicConfig(stream=..., style=..., format=fmt[, level=level])]:
    it does nothing when the root logger has a handler already; otherwise
    it adds one stream handler with the format and sets the level if one
    is given. *)
Definition basicConfig (fmt : string) (level : option Z) (lg : BasicLogging)
  : BasicLogging :=
  match basic_root_formats lg with
  | [] => mkBasicLogging (from_option id (basic_root_level lg) level) [fmt]
                         (basic_package_level lg)
  | _ => lg
  end.

(** The returned logger is the package logger of the resulting state;
    [None] is the [KeyError] of [determine_log_level]. *)
Definition setup_basic_logging (verbose quiet : option Z) (script_mode : bool)
  (lg : BasicLogging) : option BasicLogging :=
  let verbose := from_option id 0 verbose in
  let quiet := from_option id 0 quiet in
  let verbose_net := verbose - quiet in
  log_level ← determine_log_level verbose_net;
  let fmt := if script_mode && (logging.DEBUG <=? log_level)
             then LOG_FORMAT_BASIC else LOG_FORMAT_FANCY in
  let level := if script_mode || (log_level <? logging.DEBUG)
               then Some log_level else None in
  let lg := basicConfig fmt level lg in
  Some (if negb script_mode && (logging.DEBUG <=? log_level)
        then mkBasicLogging (basic_root_level lg) (basic_root_formats lg) log_level
        else lg).

(** [basic_logging(func)]: the wrapper takes [verbose] and [quiet] for
    itself, sets logging up in script mode and returns what [func]
    returns.  [func] runs in the state the setup leaves. *)
Definition basic_logging {A B : Type} (func : A -> BasicLogging -> B)
  (args : A) (verbose quiet : option Z) (lg : BasicLogging) : option B :=
  lg ← setup_basic_logging verbose quiet true lg;
  Some (func args lg).

(** ** Error details (logger.py, lines 43-52) *)

(** What [log_details] can be given as its [logger]: a [logging.Logger]
    instance or some other callable; and what it ends up calling. *)
Inductive logger_arg :=
| LoggerInstance (logger_name : string)
| LogFunction (f : nat).

Inductive log_callee :=
| logging_info                 (* the module-level function logging.info *)
| Called (f : nat).

(** An object with its [__dict__] (by its [repr]), or without one. *)
Inductive pyobject :=
| WithDict (d : string)
| NoDict.

(** The [error] argument: [None], another falsy value, or a truthy object. *)
Inductive error_arg :=
| ErrorNone
| ErrorFalsy
| ErrorObject (o : pyobject).

(** One call of the logging function, by format string and arguments. *)
Inductive details_call :=
| ErrorDetailsTraceback                       (* "Error details:", exc_info=1 *)
| ErrorDetailsDict (d : string)               (* "Error details: %r" *)
| ObjectDetails (label : string) (d : string). (* "%s details: %r" *)

Definition lower_ascii (c : ascii) : ascii :=
  let n := Ascii.nat_of_ascii c in
  if ((65 <=? n) && (n <=? 90))%nat then Ascii.ascii_of_nat (n + 32) else c.

Fixpoint lower (s : string) : string :=
  match s with
  | EmptyString => EmptyString
  | String c s' => String (lower_ascii c) (lower s')
  end.

(** [str.capitalize] on ASCII letters. *)
Definition capitalize (s : string) : string :=
  match s with
  | EmptyString => EmptyString
  | String c s' => String (upper_ascii c) (lower s')
  end.

(** [obj.__dict__]. *)
Definition dict_of (o : pyobject) : result string :=
  match o with
  | WithDict d => Ok d
  | NoDict => Raise AttributeError
  end.

(** The loop over [objs_tolog.items()]; the calls made are kept when an
    object raises. *)
Fixpoint log_objects (callee : log_callee) (objs_tolog : list (string * pyobject))
  : result unit * list (log_callee * details_call) :=
  match objs_tolog with
  | [] => (Ok tt, [])
  | (obj_name, obj_value) :: rest =>
      match dict_of obj_value with
      | Raise e => (Raise e, [])
      | Ok d =>
          let '(r, calls) := log_objects callee rest in
          (r, (callee, ObjectDetails (capitalize obj_name) d) :: calls)
      end
  end.

Definition log_details (logger : logger_arg) (error : error_arg)
  (objs_tolog : list (string * pyobject))
  : result unit * list (log_callee * details_call) :=
  let logger := match logger with
                | LoggerInstance _ => logging_info
                | LogFunction f => Called f
                end in
  match error with
  | ErrorNone =>
      let '(r, calls) := log_objects logger objs_tolog in
      (r, (logger, ErrorDetailsTraceback) :: calls)
  | ErrorObject o =>
      match dict_of o with
      | Raise e => (Raise e, [])
      | Ok d =>
          let '(r, calls) := log_objects logger objs_tolog in
          (r, (logger, ErrorDetailsDict d) :: calls)
      end
  | ErrorFalsy => log_objects logger objs_tolog
  end.

(** * Sunsaver charge controller ([src/brokkr/sunsaver.py]) *)

(** ** The register table and the conversions (sunsaver.py, lines 9-71) *)

Definition REGISTER_VARIABLES : list (string * string) :=
  [("adc_vb_f", "V"); ("adc_va_f", "V"); ("adc_vl_f", "V");
   ("adc_ic_f", "A"); ("adc_il_f", "A"); ("t_hs", "F"); ("t_batt", "F");
   ("t_amb", "F"); ("t_rts", "F"); ("charge_state", "S");
   ("array_fault", "B"); ("vb_f", "V"); ("vb_ref", "V"); ("ahc_r_hi", "HI");
   ("ahc_r_lo", "AhL"); ("ahc_t_hi", "HI"); ("ahc_t_lo", "AhL");
   ("kwhc", "Ah"); ("load_state", "S"); ("load_fault", "B"); ("v_lvd", "V");
   ("ahl_r_hi", "HI"); ("ahl_r_lo", "AhL"); ("ahl_t_hi", "HI");
   ("ahl_t_lo", "AhL"); ("hourmeter_hi", "HI"); ("hourmeter_lo", "hL");
   ("alarm_hi", "HI"); ("alarm_lo", "BL"); ("dip_switch", "B");
   ("led_state", "S"); ("power_out", "W"); ("sweep_vmp", "V");
   ("sweep_pmax", "W"); ("sweep_voc", "V"); ("vb_min_daily", "V");
   ("vb_max_daily", "V"); ("ahc_daily", "Ah"); ("ahl_daily", "Ah");
   ("array_fault_daily", "B"); ("load_fault_daily", "B");
   ("alarm_hi_daily", "HI"); ("alarm_Lo_daily", "BL"); ("vb_min", "V");
   ("vb_max", "V")]%string.

(** What a conversion returns besides [None]: a string, an integer, or a
    float.  A float stands for the number that the conversion of the
    given type computes from the raw integer; its digits are not
    modelled. *)
Inductive value :=
| VStr (s : string)
| VInt (n : Z)
| VFloat (var_type : string) (raw : Z).

(** How the lookup of a conversion and its call can fail: an unknown
    type, a call with the wrong number of arguments, an integer too large
    to become a float. *)
Inductive conversion_error :=
| UnknownType      (* KeyError *)
| WrongArity       (* TypeError *)
| FloatOverflow.   (* OverflowError *)

Inductive converted :=
| Converted (output_val : option value)
| ConversionRaised (e : conversion_error).

(** [str(val)] of an integer. *)
Definition str_of_int (val : Z) : string := NilZero.string_of_int (Z.to_int val).

Fixpoint bits_of_pos (p : positive) (acc : string) : string :=
  match p with
  | xH => String "1" acc
  | xO p' => bits_of_pos p' (String "0" acc)
  | xI p' => bits_of_pos p' (String "1" acc)
  end.

(** [format(val, "b")]. *)
Definition format_b (val : Z) : string :=
  match val with
  | Z0 => "0"
  | Zpos p => bits_of_pos p EmptyString
  | Zneg p => String "-" (bits_of_pos p EmptyString)
  end.

Fixpoint zeros (n : nat) : string :=
  match n with
  | O => EmptyString
  | S n' => String "0" (zeros n')
  end.

(** [s.zfill(width)]: zeros on the left up to the width, behind a sign. *)
Definition zfill (width : nat) (s : string) : string :=
  let pad := zeros (width - String.length s) in
  match s with
  | String "-" s' => String "-" (pad +:+ s')
  | String "+" s' => String "+" (pad +:+ s')
  | _ => pad +:+ s
  end.

(** An integer becomes a float when it rounds to a finite double. *)
Definition float_range (n : Z) : bool := Z.abs n <? 2 ^ 1024 - 2 ^ 970.

(** A float conversion: [operand] is the integer that is turned into a
    float on the way. *)
Definition to_float (var_type : string) (operand raw : Z) : converted :=
  if float_range operand then Converted (Some (VFloat var_type raw))
  else ConversionRaised FloatOverflow.

Definition one_argument_types : list string :=
  ["HI"; "S"; "I"; "F"; "B"; "V"; "A"; "Ah"; "W"]%string.

Definition two_argument_types : list string := ["BL"; "AhL"; "hL"]%string.

Definition is_type (var_type : string) (types : list string) : bool :=
  existsb (String.eqb var_type) types.

(** [CONVERSION_FUNCTIONS[var_type](val)]. *)
Definition convert1 (var_type : string) (val : Z) : converted :=
  if String.eqb var_type "HI" then Converted None
  else if String.eqb var_type "S" then Converted (Some (VStr (str_of_int val)))
  else if String.eqb var_type "I" then Converted (Some (VInt val))
  else if String.eqb var_type "F" then to_float "F" val val
  else if String.eqb var_type "B"
       then Converted (Some (VStr (zfill 16 (format_b val))))
  else if String.eqb var_type "V" then to_float "V" (val * 100) val
  else if String.eqb var_type "A" then to_float "A" val val
  else if String.eqb var_type "Ah" then to_float "Ah" val val
  else if String.eqb var_type "W" then to_float "W" val val
  else if is_type var_type two_argument_types then ConversionRaised WrongArity
  else ConversionRaised UnknownType.

(** [CONVERSION_FUNCTIONS[var_type](hi, lo)]. *)
Definition convert2 (var_type : string) (hi lo : Z) : converted :=
  let both := Z.lor (Z.shiftl hi 16) lo in
  if String.eqb var_type "BL"
  then Converted (Some (VStr (zfill 32 (format_b both))))
  else if String.eqb var_type "AhL" then to_float "AhL" both both
  else if String.eqb var_type "hL" then Converted (Some (VInt both))
  else if is_type var_type one_argument_types then ConversionRaised WrongArity
  else ConversionRaised UnknownType.

(** ** Decoding (sunsaver.py, lines 116-158) *)

(** [s.replace(old, new)] for a non-empty [old]: the occurrences are
    taken from the left and do not overlap; [skip] counts the characters
    of an occurrence still to be passed over. *)
Fixpoint replace_aux (old new s : string) (skip : nat) : string :=
  match s with
  | EmptyString => EmptyString
  | String c s' =>
      match skip with
      | S k => replace_aux old new s' k
      | O =>
          if String.prefix old s
          then new +:+ replace_aux old new s' (String.length old - 1)
          else String c (replace_aux old new s' 0)
      end
  end.

Definition replace (old new s : string) : string := replace_aux old new s 0.

(** The name under which a decoded value is stored. *)
Definition stored_name (var_name : string) : string :=
  replace "_lo_" "_" (replace "_lo" "" var_name).

(** [d[k] = v] on a dictionary kept in insertion order. *)
Fixpoint dict_set (k : string) (v : value) (d : list (string * value))
  : list (string * value) :=
  match d with
  | [] => [(k, v)]
  | (k', v') :: d' =>
      if String.eqb k' k then (k, v) :: d' else (k', v') :: dict_set k v d'
  end.

Definition NA : value := VStr "NA".

(** The lines printed, without their time stamp. *)
Inductive printed :=
| ErrorDecoding (e : conversion_error) (var_name : string) (register_val : Z)
| ErrorHandling.

(** The loop of lines 127-150 over [zip(register_data, variables)]. *)
Fixpoint decode_loop (register_data : list Z) (variables : list (string * string))
  (last_hi : option Z) (sunsaver_data : list (string * value))
  : list (string * value) * list printed :=
  match register_data, variables with
  | register_val :: register_data', (var_name, var_type) :: variables' =>
      match match last_hi with
            | None => convert1 var_type register_val
            | Some hi => convert2 var_type hi register_val
            end with
      | Converted output_val =>
          let last_hi := if String.eqb var_type "HI" then Some register_val
                         else None in
          let sunsaver_data :=
            match output_val with
            | Some v => dict_set (stored_name var_name) v sunsaver_data
            | None => sunsaver_data
            end in
          decode_loop register_data' variables' last_hi sunsaver_data
      | ConversionRaised e =>
          let '(d, lines) := decode_loop register_data' variables' None
                               (dict_set var_name NA sunsaver_data) in
          (d, ErrorDecoding e var_name register_val :: lines)
      end
  | _, _ => (sunsaver_data, [])
  end.

(** What [decode_sunsaver_data] can be given: [None], a plain list of
    register values, a response object with its [registers], or another
    object (an error response: no [registers], not iterable). *)
Inductive register_data :=
| NoData
| RegisterList (l : list Z)
| Response (registers : list Z)
| OtherObject.

(** [{var_name[0]: "NA" for var_name in variables}]. *)
Definition all_NA (variables : list (string * string)) : list (string * value) :=
  fold_left (fun d var_name => dict_set var_name.1 NA d) variables [].

Inductive decoded :=
| Decoded (sunsaver_data : list (string * value)) (lines : list printed)
| IndexErrorRaised.

Definition decode_with (variables : list (string * string)) (data : register_data)
  : decoded :=
  match data with
  | Response [] => IndexErrorRaised
  | Response l | RegisterList l =>
      let '(d, lines) := decode_loop l variables None [] in Decoded d lines
  | NoData => Decoded (all_NA variables) []
  | OtherObject => Decoded (all_NA variables) [ErrorHandling]
  end.

Definition decode_sunsaver_data (data : register_data) : decoded :=
  decode_with REGISTER_VARIABLES data.

(** ** Reading (sunsaver.py, lines 74-113 and 161-164) *)

(** The serial side: the devices that the glob [/dev/ttyUSB*] finds, and
    what building the client, connecting and reading 45 registers gives
    for a port, a start offset and a unit. *)
Record Serial := mkSerial {
  ttyUSB : list string;
  read_holding_registers : string -> Z -> Z -> result register_data;
}.

Inductive read_printed :=
| NoDevicesFound
| ErrorReading (e : exn).

Definition read_raw_sunsaver_data (serial : Serial) (start_offset : Z)
  (port : option string) (unit : Z) : result register_data * list read_printed :=
  match match port with
        | Some port => Some port
        | None => head (ttyUSB serial)
        end with
  | None => (Ok NoData, [NoDevicesFound])
  | Some port =>
      match read_holding_registers serial port start_offset unit with
      | Ok data => (Ok data, [])
      | Raise e =>
          if is_Exception e then (Ok NoData, [ErrorReading e])
          else (Raise e, [])
      end
  end.

Inductive got :=
| Got (sunsaver_data : list (string * value)) (read_lines : list read_printed)
      (lines : list printed)
| GetRaised (e : exn) (read_lines : list read_printed).

Definition get_sunsaver_data (serial : Serial) (start_offset : Z)
  (port : option string) (unit : Z) : got :=
  match read_raw_sunsaver_data serial start_offset port unit with
  | (Ok data, read_lines) =>
      match decode_sunsaver_data data with
      | Decoded d lines => Got d read_lines lines
      | IndexErrorRaised => GetRaised IndexError read_lines
      end
  | (Raise e, read_lines) => GetRaised e read_lines
  end.

(** * Vocabulary of the properties *)

(** ** Severity mapper *)

(** The same table as a total function on the clamped range, used to
    reason about all integers at once. *)
Definition level_of_clamped (v : Z) : Z :=
  if v =? -3 then 99 else if v =? -2 then 50 else if v =? -1 then 40
  else if v =? 0 then 30 else if v =? 1 then 20 else if v =? 2 then 10 else 2.

Definition clamp (v : Z) : Z := Z.max MIN_VERBOSE (Z.min MAX_VERBOSE v).

(** A record passes a threshold when its level reaches it: a threshold
    above every standard level lets nothing through. *)
Definition disables_all_emission (t : Z) : Prop :=
  Forall (fun l => l < t) logging.standard_levels.

(** No verbosity gives a lower threshold. *)
Definition most_permissive (t : Z) : Prop :=
  forall v t', determine_log_level v = Some t' -> t <= t'.

(** ** Renderer *)

(** [m] is the least element of [l]. *)
Definition is_minimum (m : Z) (l : list Z) : Prop :=
  m ∈ l /\ Forall (fun x => m <= x) l.

(** The values Python takes as false among the levels. *)
Definition falsy (l : Level) : Prop :=
  l = LNone \/ l = LInt 0 \/ l = LStr EmptyString.

(** A filename the loop can process: nothing, or a template whose fields
    the arguments bind.  A path object, as a second run over an already
    rendered configuration would meet, is not. *)
Definition formattable (args : gmap string string) (f : Filename) : Prop :=
  match f with
  | FNone => True
  | FStr t => exists s, format t args = Ok s
  | FPath _ => False
  end.

(** Nothing stands in the way of a directory [p]: at no place on the way
    down to it is there a regular file, and at none is a new directory
    refused. *)
Definition clear_way (disk : Disk) (p : Path) : Prop :=
  forall n, isfile disk (mkPath (is_absolute p) (take n (parts p))) = false /\
            refused disk (mkPath (is_absolute p) (take n (parts p))) = false.

(** The directory of the file that a filename resolves to can be made. *)
Definition creatable (convert_path : string -> Path) (disk : Disk) (base : Path)
  (args : gmap string string) (f : Filename) : Prop :=
  match f with
  | FStr t =>
      forall s, format t args = Ok s ->
        clear_way disk
          (parent (if is_absolute (convert_path s) then convert_path s
                   else joinpath base (convert_path s)))
  | _ => True
  end.

(** A disk without a regular file and without a refusal. *)
Definition free_disk : Disk := mkDisk (fun _ => false) (fun _ => false).

(** A string without a brace. *)
Definition brace_free (s : string) : bool :=
  all_chars (fun c => negb (Ascii.eqb c "{") && negb (Ascii.eqb c "}")) s.

(** A template as a run of literal text and tokens, the string it is
    written as, and the string it stands for under given arguments. *)
Inductive piece :=
| Literal (s : string)
| Token (name : string).

Definition piece_text (p : piece) : string :=
  match p with
  | Literal s => s
  | Token name => String "{" (name +:+ String "}" EmptyString)
  end.

Fixpoint template_of (pieces : list piece) : string :=
  match pieces with
  | [] => EmptyString
  | p :: pieces => piece_text p +:+ template_of pieces
  end.

Definition piece_value (args : gmap string string) (p : piece) : string :=
  match p with
  | Literal s => s
  | Token name => default EmptyString (args !! name)
  end.

Fixpoint filled (args : gmap string string) (pieces : list piece) : string :=
  match pieces with
  | [] => EmptyString
  | p :: pieces => piece_value args p +:+ filled args pieces
  end.

(** The text has no brace, and the token is a name that is bound. *)
Definition substitutable (args : gmap string string) (p : piece) : Prop :=
  match p with
  | Literal s => brace_free s = true
  | Token name => is_identifier name = true /\ is_Some (args !! name)
  end.

(** What the renderer leaves in a handler [h'] for the handler [h] of the
    template, with the directories [fs] it ends with. *)
Definition handler_resolved (convert_path : string -> Path) (base : Path)
  (args : gmap string string) (fs : FS) (h h' : Handler) : Prop :=
  h_level h' = h_level h /\
  match h_filename h with
  | FStr t =>
      if String.eqb t EmptyString then h_filename h' = h_filename h
      else exists s p,
          format t args = Ok s /\ h_filename h' = FPath p /\
          p = (if is_absolute (convert_path s) then convert_path s
               else joinpath base (convert_path s)) /\
          (is_absolute base = true -> is_absolute p = true) /\
          isdir fs (parent p)
  | _ => h_filename h' = h_filename h
  end.

(** ** Listener *)

(** The records handed to destination loggers, with the logger's name, in
    the order of the hand-over. *)
Definition handed (tr : list event) : list (string * LogRecord) :=
  omap (fun ev => match ev with
                  | Handed n r => Some (n, r)
                  | _ => None
                  end) tr.

(** The lines of the [except] clause of lines 204-208. *)
Definition failure_events (e : exn) (x : item) : list event :=
  [LogWarning (LoggingRecord e x); LogInfo ErrorInfo; LogInfo (LogRecordInfo x)].

(** What the listener observes while it dispatches one item. *)
Definition record_events (handle_raises : LogRecord -> option exn) (x : item)
  : list event :=
  match x with
  | Rec r =>
      Handed (name r) r ::
      match handle_raises r with
      | Some e => failure_events e x
      | None => []
      end
  | _ => failure_events AttributeError x
  end.

(** The item is no sentinel, and what its dispatch raises, if anything,
    is an [Exception]. *)
Definition recoverable (handle_raises : LogRecord -> option exn) (x : item) : Prop :=
  is_sentinel x = false /\
  match x with
  | Rec r => from_option is_Exception true (handle_raises r) = true
  | _ => True
  end.

(** A record whose destination takes it without raising. *)
Definition well_formed (handle_raises : LogRecord -> option exn) (r : LogRecord)
  : Prop :=
  handle_raises r = None.

(** ** Scenarios *)

(** A configuration as the scenario of the specification has it. *)
Definition scenario_config : Config :=
  mkConfig [("console", mkHandler (LStr "INFO") FNone);
            ("file", mkHandler (LStr "INFO") (FStr "run.log"))]%string
           (LStr "WARNING") ["console"%string].

(** The scenario of the specification: one handler with a relative
    filename, one with an absolute filename, one without a file. *)
Definition scenario_paths : Config :=
  mkConfig [("console", mkHandler (LStr "INFO") FNone);
            ("file", mkHandler (LStr "INFO") (FStr "run.log"));
            ("tmp", mkHandler (LStr "DEBUG") (FStr "/tmp/x.log"))]%string
           (LStr "WARNING") ["console"%string].

Definition var_log_agent : Path := posix_path "/var/log/agent".

(** A filename with tokens. *)
Definition scenario_tokens : Config :=
  mkConfig [("console", mkHandler (LStr "INFO") FNone);
            ("file", mkHandler (LStr "INFO") (FStr "{site}/run_{run_id}.log"))]%string
           (LStr "WARNING") ["console"%string].

Definition a_warning : LogRecord :=
  mkRecord "brokkr.pipeline" logging.WARNING "low battery".

Definition two_records : list LogRecord :=
  [mkRecord "brokkr.pipeline" logging.INFO "started"; a_warning].

Definition raises_for_empty_name (r : LogRecord) : option exn :=
  if String.eqb (name r) EmptyString then Some ValueError else None.

Definition a_nameless : LogRecord := mkRecord EmptyString logging.ERROR "lost".

(** ** Sunsaver *)

(** A register of the device holds 16 bits. *)
Definition is_register (r : Z) : Prop := 0 <= r < 65536.

(** The number that a string of binary digits writes. *)
Fixpoint binary_value_from (s : string) (acc : Z) : option Z :=
  match s with
  | EmptyString => Some acc
  | String "0" s' => binary_value_from s' (2 * acc)
  | String "1" s' => binary_value_from s' (2 * acc + 1)
  | String _ _ => None
  end.

Definition binary_value (s : string) : option Z := binary_value_from s 0.

(** In a table every "HI" entry is followed by an entry whose conversion
    takes two arguments, and only such an entry has one. *)
Fixpoint well_paired (variables : list (string * string)) (after_hi : bool) : bool :=
  match variables with
  | [] => true
  | (_, var_type) :: variables' =>
      if after_hi
      then is_type var_type two_argument_types && well_paired variables' false
      else is_type var_type one_argument_types
           && well_paired variables' (String.eqb var_type "HI")
  end.

(** What a full read of 45 registers holds, by stored name, 38 entries:
    a pair of registers counts as [hi * 65536 + lo]. *)
Definition full_read (l : list Z) : list (string * value) :=
  [("adc_vb_f"%string, VFloat "V" (nth 0 l 0));
   ("adc_va_f"%string, VFloat "V" (nth 1 l 0));
   ("adc_vl_f"%string, VFloat "V" (nth 2 l 0));
   ("adc_ic_f"%string, VFloat "A" (nth 3 l 0));
   ("adc_il_f"%string, VFloat "A" (nth 4 l 0));
   ("t_hs"%string, VFloat "F" (nth 5 l 0));
   ("t_batt"%string, VFloat "F" (nth 6 l 0));
   ("t_amb"%string, VFloat "F" (nth 7 l 0));
   ("t_rts"%string, VFloat "F" (nth 8 l 0));
   ("charge_state"%string, VStr (str_of_int (nth 9 l 0)));
   ("array_fault"%string, VStr (zfill 16 (format_b (nth 10 l 0))));
   ("vb_f"%string, VFloat "V" (nth 11 l 0));
   ("vb_ref"%string, VFloat "V" (nth 12 l 0));
   ("ahc_r"%string, VFloat "AhL" (nth 13 l 0 * 65536 + nth 14 l 0));
   ("ahc_t"%string, VFloat "AhL" (nth 15 l 0 * 65536 + nth 16 l 0));
   ("kwhc"%string, VFloat "Ah" (nth 17 l 0));
   ("load_state"%string, VStr (str_of_int (nth 18 l 0)));
   ("load_fault"%string, VStr (zfill 16 (format_b (nth 19 l 0))));
   ("v_lvd"%string, VFloat "V" (nth 20 l 0));
   ("ahl_r"%string, VFloat "AhL" (nth 21 l 0 * 65536 + nth 22 l 0));
   ("ahl_t"%string, VFloat "AhL" (nth 23 l 0 * 65536 + nth 24 l 0));
   ("hourmeter"%string, VInt (nth 25 l 0 * 65536 + nth 26 l 0));
   ("alarm"%string, VStr (zfill 32 (format_b (nth 27 l 0 * 65536 + nth 28 l 0))));
   ("dip_switch"%string, VStr (zfill 16 (format_b (nth 29 l 0))));
   ("led_state"%string, VStr (str_of_int (nth 30 l 0)));
   ("power_out"%string, VFloat "W" (nth 31 l 0));
   ("sweep_vmp"%string, VFloat "V" (nth 32 l 0));
   ("sweep_pmax"%string, VFloat "W" (nth 33 l 0));
   ("sweep_voc"%string, VFloat "V" (nth 34 l 0));
   ("vb_min_daily"%string, VFloat "V" (nth 35 l 0));
   ("vb_max_daily"%string, VFloat "V" (nth 36 l 0));
   ("ahc_daily"%string, VFloat "Ah" (nth 37 l 0));
   ("ahl_daily"%string, VFloat "Ah" (nth 38 l 0));
   ("array_fault_daily"%string, VStr (zfill 16 (format_b (nth 39 l 0))));
   ("load_fault_daily"%string, VStr (zfill 16 (format_b (nth 40 l 0))));
   ("alarm_Lo_daily"%string, VStr (zfill 32 (format_b (nth 41 l 0 * 65536 + nth 42 l 0))));
   ("vb_min"%string, VFloat "V" (nth 43 l 0));
   ("vb_max"%string, VFloat "V" (nth 44 l 0))].

(** The port that is read: the one given, else the first device found. *)
Definition chosen_port (serial : Serial) (port : option string) : option string :=
  match port with
  | Some port => Some port
  | None => head (ttyUSB serial)
  end.

(** Every name of the table, as the table has it, under "NA". *)
Definition every_name_NA : list (string * value) :=
  (fun v => (v.1, NA)) <$> REGISTER_VARIABLES.

(** * Properties *)

(** ** Severity mapper *)

Lemma LOG_LEVEL_lookup (v : Z) :
  MIN_VERBOSE <= v <= MAX_VERBOSE -> LOG_LEVEL !! v = Some (level_of_clamped v).
Proof.
  unfold MIN_VERBOSE, MAX_VERBOSE. intros Hv.
  assert (v = -3 \/ v = -2 \/ v = -1 \/ v = 0 \/ v = 1 \/ v = 2 \/ v = 3) as Hc by lia.
  destruct Hc as [->|[->|[->|[->|[->|[->| ->]]]]]]; reflexivity.
Qed.

Lemma determine_log_level_clamp (v : Z) :
  determine_log_level v = Some (level_of_clamped (clamp v)).
Proof.
  unfold determine_log_level, round, clamp.
  destruct (v >? MAX_VERBOSE) eqn:Hhi.
  - apply Z.gtb_lt in Hhi. rewrite Z.min_l by lia.
    rewrite Z.max_r by (unfold MIN_VERBOSE, MAX_VERBOSE; lia).
    apply LOG_LEVEL_lookup. unfold MIN_VERBOSE, MAX_VERBOSE. lia.
  - assert (v <= MAX_VERBOSE) as Hle.
    { destruct (Z.gtb_spec v MAX_VERBOSE); [discriminate | lia]. }
    rewrite Z.min_r by lia.
    destruct (v <? MIN_VERBOSE) eqn:Hlo.
    + apply Z.ltb_lt in Hlo. rewrite Z.max_l by lia.
      apply LOG_LEVEL_lookup. unfold MIN_VERBOSE, MAX_VERBOSE. lia.
    + apply Z.ltb_ge in Hlo. rewrite Z.max_r by lia.
      apply LOG_LEVEL_lookup. lia.
Qed.

Lemma level_of_clamped_bounds (v : Z) : 2 <= level_of_clamped v <= 99.
Proof.
  unfold level_of_clamped.
  repeat match goal with |- context [if ?b then _ else _] => destruct b end; lia.
Qed.

Lemma level_of_clamped_antitone (v w : Z) :
  MIN_VERBOSE <= v -> v <= w -> w <= MAX_VERBOSE ->
  level_of_clamped w <= level_of_clamped v.
Proof.
  unfold MIN_VERBOSE, MAX_VERBOSE, level_of_clamped. intros Hv Hvw Hw.
  repeat match goal with
         | |- context [?a =? ?b] => destruct (Z.eqb_spec a b)
         end; lia.
Qed.

Example determine_log_level_default : determine_log_level 0 = Some logging.WARNING.
Proof. reflexivity. Qed.

Example determine_log_level_10 : determine_log_level 10 = Some 2.
Proof. reflexivity. Qed.

Example determine_log_level_minus_10 : determine_log_level (-10) = Some 99.
Proof. reflexivity. Qed.

(** C1, as the specification words it, fails: a verbosity of 10 gives the
    threshold 2, which is not above [CRITICAL], and a verbosity of -10
    gives 99, which is not the most permissive threshold. *)
Lemma determine_log_level_out_of_range_counterexample :
  ~ (exists t, determine_log_level 10 = Some t /\ logging.CRITICAL < t) /\
  ~ (exists t, determine_log_level (-10) = Some t /\ most_permissive t).
Proof.
  split.
  - intros (t & Ht & Hlt). rewrite determine_log_level_10 in Ht.
    injection Ht as <-. unfold logging.CRITICAL in Hlt. lia.
  - intros (t & Ht & Hperm). rewrite determine_log_level_minus_10 in Ht.
    injection Ht as <-. specialize (Hperm 3 2 eq_refl). lia.
Qed.

(** C1, amended: every verbosity above [MAX_VERBOSE] gives the value
    [MAX_VERBOSE] maps to, 2, the most permissive threshold; every
    verbosity below [MIN_VERBOSE] gives the value [MIN_VERBOSE] maps to,
    99, which lies above the most severe standard level and so disables
    all emission. *)
Theorem determine_log_level_out_of_range (v : Z) :
  (MAX_VERBOSE < v ->
     determine_log_level v = LOG_LEVEL !! MAX_VERBOSE /\
     determine_log_level v = Some 2 /\ most_permissive 2) /\
  (v < MIN_VERBOSE ->
     determine_log_level v = LOG_LEVEL !! MIN_VERBOSE /\
     determine_log_level v = Some 99 /\
     logging.CRITICAL < 99 /\ disables_all_emission 99).
Proof.
  split; intros Hv.
  - assert (determine_log_level v = LOG_LEVEL !! MAX_VERBOSE) as Heq.
    { unfold determine_log_level, round.
      destruct (Z.gtb_spec v MAX_VERBOSE); [reflexivity | lia]. }
    split; [exact Heq | split; [rewrite Heq; reflexivity |]].
    intros w t' Hw. rewrite determine_log_level_clamp in Hw.
    injection Hw as <-. apply level_of_clamped_bounds.
  - assert (determine_log_level v = LOG_LEVEL !! MIN_VERBOSE) as Heq.
    { unfold determine_log_level, round.
      destruct (Z.gtb_spec v MAX_VERBOSE) as [Hgt|_].
      - unfold MIN_VERBOSE, MAX_VERBOSE in *. lia.
      - destruct (Z.ltb_spec v MIN_VERBOSE); [reflexivity | lia]. }
    split; [exact Heq | split; [rewrite Heq; reflexivity |]].
    split; [reflexivity |].
    unfold disables_all_emission, logging.standard_levels.
    repeat constructor.
Qed.

Lemma determine_log_level_out_of_range_witness :
  (determine_log_level 10 = LOG_LEVEL !! MAX_VERBOSE /\
   determine_log_level 10 = Some 2 /\ most_permissive 2) /\
  (determine_log_level (-10) = LOG_LEVEL !! MIN_VERBOSE /\
   determine_log_level (-10) = Some 99 /\
   logging.CRITICAL < 99 /\ disables_all_emission 99).
Proof.
  split.
  - apply (determine_log_level_out_of_range 10). reflexivity.
  - apply (determine_log_level_out_of_range (-10)). reflexivity.
Defined.

(** C6: [determine_log_level] is constant at or below [MIN_VERBOSE] and at
    or above [MAX_VERBOSE], and inside the range a larger verbosity never
    gives a larger threshold. *)
Theorem determine_log_level_clamped_antitone :
  (forall v, v <= MIN_VERBOSE ->
     determine_log_level v = determine_log_level MIN_VERBOSE) /\
  (forall v, MAX_VERBOSE <= v ->
     determine_log_level v = determine_log_level MAX_VERBOSE) /\
  (forall v w, MIN_VERBOSE <= v -> v <= w -> w <= MAX_VERBOSE ->
     exists a b, determine_log_level v = Some a /\
                 determine_log_level w = Some b /\ b <= a).
Proof.
  split; [| split].
  - intros v Hv. rewrite !determine_log_level_clamp. f_equal. f_equal.
    unfold clamp, MIN_VERBOSE, MAX_VERBOSE in *. lia.
  - intros v Hv. rewrite !determine_log_level_clamp. f_equal. f_equal.
    unfold clamp, MIN_VERBOSE, MAX_VERBOSE in *. lia.
  - intros v w Hv Hvw Hw.
    exists (level_of_clamped v), (level_of_clamped w).
    rewrite !determine_log_level_clamp.
    assert (clamp v = v) as -> by (unfold clamp; lia).
    assert (clamp w = w) as -> by (unfold clamp; lia).
    repeat split. now apply level_of_clamped_antitone.
Qed.

Lemma determine_log_level_clamped_antitone_witness :
  determine_log_level (-7) = determine_log_level MIN_VERBOSE /\
  determine_log_level 8 = determine_log_level MAX_VERBOSE /\
  exists a b, determine_log_level (-1) = Some a /\
              determine_log_level 2 = Some b /\ b <= a.
Proof.
  destruct determine_log_level_clamped_antitone as (Hlo & Hhi & Hmid).
  split; [apply Hlo; unfold MIN_VERBOSE; lia |].
  split; [apply Hhi; unfold MAX_VERBOSE; lia |].
  apply Hmid; unfold MIN_VERBOSE, MAX_VERBOSE; lia.
Defined.

(** ** The library functions of the model on small inputs *)

Example upper_debug : upper "Debug" = "DEBUG"%string.
Proof. reflexivity. Qed.

Example int_of_str_15 : int_of_str "15" = Some 15.
Proof. reflexivity. Qed.

Example int_of_str_word : int_of_str "loud" = None.
Proof. reflexivity. Qed.

Example level_number_warn : level_number (LStr "WARN") = Ok logging.WARNING.
Proof. reflexivity. Qed.

Example format_plain : format "run.log" ∅ = Ok "run.log"%string.
Proof. vm_compute. reflexivity. Qed.

Example format_field_bound :
  format "{site}/run_{run}.log" (<["run" := "007"]> {["site" := "hamma"]})%string
  = Ok "hamma/run_007.log"%string.
Proof. vm_compute. reflexivity. Qed.

Example format_field_unbound : format "{run}.log" ∅ = Raise (KeyError "run").
Proof. vm_compute. reflexivity. Qed.

Example posix_path_relative :
  posix_path "logs//./run.log" = mkPath false ["logs"; "run.log"]%string.
Proof. vm_compute. reflexivity. Qed.

Example parent_of_run_log :
  parent (posix_path "/var/log/agent/run.log") = posix_path "/var/log/agent".
Proof. vm_compute. reflexivity. Qed.

(** ** Handler configuration renderer: level overrides *)

Lemma lookup_set_handler_level_eq (k : string) (l : Level)
  (hs : list (string * Handler)) (h : Handler) :
  lookup_handler k hs = Some h ->
  lookup_handler k (set_handler_level k l hs) = Some (mkHandler l (h_filename h)).
Proof.
  induction hs as [|[k' h'] hs IH]; simpl; [discriminate |].
  destruct (String.eqb_spec k' k) as [->|Hne]; simpl.
  - intros [= ->]. now rewrite String.eqb_refl.
  - intros Hl. destruct (String.eqb_spec k' k); [contradiction | auto].
Qed.

Lemma lookup_set_handler_level_ne (k k' : string) (l : Level)
  (hs : list (string * Handler)) :
  k <> k' ->
  lookup_handler k' (set_handler_level k l hs) = lookup_handler k' hs.
Proof.
  intros Hne. induction hs as [|[k0 h0] hs IH]; simpl; [reflexivity |].
  destruct (String.eqb_spec k0 k) as [->|Hk]; simpl.
  - destruct (String.eqb_spec k k'); [contradiction | reflexivity].
  - destruct (String.eqb_spec k0 k'); [reflexivity | exact IH].
Qed.

Lemma fst_set_handler_level (k : string) (l : Level) (hs : list (string * Handler)) :
  (set_handler_level k l hs).*1 = hs.*1.
Proof.
  induction hs as [|[k0 h0] hs IH]; csimpl; [reflexivity |].
  destruct (String.eqb k0 k); csimpl; [reflexivity | now f_equal].
Qed.

Lemma apply_level_falsy (handler : string) (l : Level) (cfg : Config) :
  truthy l = false -> apply_level handler l cfg = Ok cfg.
Proof. unfold apply_level. now intros ->. Qed.

Lemma apply_level_truthy (handler : string) (l : Level) (cfg : Config) (h : Handler) :
  truthy l = true -> lookup_handler handler (handlers cfg) = Some h ->
  apply_level handler l cfg =
    Ok (mkConfig (set_handler_level handler l (handlers cfg)) (root_level cfg)
                 (if bool_decide (handler ∈ root_handlers cfg)
                  then root_handlers cfg else root_handlers cfg ++ [handler])).
Proof. unfold apply_level. now intros -> ->. Qed.

(** What [apply_level] leaves alone: the root level, and whether another
    handler is there. *)
Lemma apply_level_frame (handler : string) (l : Level) (cfg cfg' : Config) :
  apply_level handler l cfg = Ok cfg' ->
  root_level cfg' = root_level cfg /\
  forall k, is_Some (lookup_handler k (handlers cfg)) ->
            is_Some (lookup_handler k (handlers cfg')).
Proof.
  unfold apply_level. destruct (truthy l).
  - destruct (lookup_handler handler (handlers cfg)) as [h|] eqn:Hh; [| discriminate].
    intros [= <-]. simpl. split; [reflexivity |].
    intros k [hk Hk]. destruct (decide (handler = k)) as [<-|Hne].
    + erewrite lookup_set_handler_level_eq by eassumption. eauto.
    + rewrite lookup_set_handler_level_ne by assumption. eauto.
  - intros [= <-]. auto.
Qed.

Lemma apply_level_defined (handler : string) (l : Level) (cfg : Config) :
  (truthy l = true -> is_Some (lookup_handler handler (handlers cfg))) ->
  exists cfg', apply_level handler l cfg = Ok cfg'.
Proof.
  intros Hh. unfold apply_level. destruct (truthy l); [| eauto].
  destruct (Hh eq_refl) as [h ->]. eauto.
Qed.

Lemma level_number_tocheck (l : Level) (n : Z) :
  level_number l = Ok n -> tocheck l = true.
Proof.
  destruct l as [|k|s]; simpl; [discriminate | |].
  - intros _. unfold tocheck. simpl. destruct (k =? 0); reflexivity.
  - destruct s; [discriminate | reflexivity].
Qed.

Lemma level_numbers_app (ls1 ls2 : list Level) (ns1 ns2 : list Z) :
  level_numbers ls1 = Ok ns1 -> level_numbers ls2 = Ok ns2 ->
  level_numbers (ls1 ++ ls2) = Ok (ns1 ++ ns2).
Proof.
  revert ns1. induction ls1 as [|l ls1 IH]; simpl; intros ns1.
  - now intros [= <-].
  - destruct (level_number l) as [n|e]; simpl; [| discriminate].
    destruct (level_numbers ls1) as [ns|e] eqn:Hns; simpl; [| discriminate].
    intros [= <-] H2. now rewrite (IH ns eq_refl H2).
Qed.

Lemma fold_left_min_le (ns : list Z) (a : Z) :
  fold_left Z.min ns a <= a /\ Forall (fun x => fold_left Z.min ns a <= x) ns.
Proof.
  revert a. induction ns as [|n ns IH]; simpl; intros a.
  - split; [lia | constructor].
  - destruct (IH (Z.min a n)) as [Hle Hall]. split; [lia |].
    constructor; [lia | exact Hall].
Qed.

Lemma fold_left_min_elem (ns : list Z) (a : Z) :
  fold_left Z.min ns a ∈ a :: ns.
Proof.
  revert a. induction ns as [|n ns IH]; simpl; intros a.
  - apply list_elem_of_here.
  - specialize (IH (Z.min a n)). rewrite !elem_of_cons in *.
    destruct IH as [Heq|Hin]; [| auto].
    rewrite Heq. destruct (Z.min_spec a n) as [[_ ->]|[_ ->]]; auto.
Qed.

Lemma py_min_is_minimum (ns : list Z) :
  ns <> [] -> exists m, py_min ns = Ok m /\ is_minimum m ns.
Proof.
  destruct ns as [|n ns]; [congruence | intros _].
  exists (fold_left Z.min ns n). split; [reflexivity |].
  split; [apply fold_left_min_elem |].
  destruct (fold_left_min_le ns n). now constructor.
Qed.

Lemma upper_empty (s : string) :
  String.eqb (upper s) EmptyString = String.eqb s EmptyString.
Proof. destruct s; reflexivity. Qed.

Lemma truthy_upper_level (l : Level) : truthy (upper_level l) = truthy l.
Proof. destruct l; simpl; [reflexivity | reflexivity |]. now rewrite upper_empty. Qed.

Example setup_log_levels_scenario :
  setup_log_levels scenario_config (LStr "debug") LNone =
  Ok (mkConfig [("console", mkHandler (LStr "INFO") FNone);
                ("file", mkHandler (LStr "DEBUG") (FStr "run.log"))]%string
               (LInt 10) ["console"; "file"]%string).
Proof. vm_compute. reflexivity. Qed.

(** A numeric zero is left out of the handler update and still counts in
    the minimum. *)
Example setup_log_levels_zero :
  setup_log_levels scenario_config (LInt 0) (LStr "INFO") =
  Ok (mkConfig [("console", mkHandler (LStr "INFO") FNone);
                ("file", mkHandler (LStr "INFO") (FStr "run.log"))]%string
               (LInt 0) ["console"%string]).
Proof. vm_compute. reflexivity. Qed.

(** An override for a handler that the configuration does not define is a
    [KeyError]. *)
Example setup_log_levels_missing_handler :
  setup_log_levels (mkConfig [] (LStr "WARNING") []) (LStr "DEBUG") LNone =
  Raise (KeyError "file").
Proof. reflexivity. Qed.

(** C7: with only [file_level="DEBUG"], a root level of [WARNING] and the
    active handlers [["console"]], the result has the root level of
    [DEBUG], the active handlers [["console"; "file"]] and the file
    handler's threshold [DEBUG]; in general the new root level is the
    least of the numbers of the prior root level and of the overrides
    that were supplied. *)
Theorem setup_log_levels_root_minimum :
  (forall cfg h,
     root_level cfg = LStr "WARNING" -> root_handlers cfg = ["console"%string] ->
     lookup_handler "file" (handlers cfg) = Some h ->
     exists cfg',
       setup_log_levels cfg (LStr "DEBUG") LNone = Ok cfg' /\
       root_level cfg' = LInt logging.DEBUG /\
       root_handlers cfg' = ["console"; "file"]%string /\
       lookup_handler "file" (handlers cfg') =
         Some (mkHandler (LStr "DEBUG") (h_filename h))) /\
  (forall cfg file_level console_level r ns,
     (truthy file_level = true -> is_Some (lookup_handler "file" (handlers cfg))) ->
     (truthy console_level = true ->
        is_Some (lookup_handler "console" (handlers cfg))) ->
     level_number (root_level cfg) = Ok r ->
     level_numbers (List.filter tocheck
                      [upper_level file_level; upper_level console_level]) = Ok ns ->
     exists cfg' m,
       setup_log_levels cfg file_level console_level = Ok cfg' /\
       root_level cfg' = LInt m /\ is_minimum m (ns ++ [r])).
Proof.
  split.
  - intros cfg h Hroot Hactive Hfile.
    unfold setup_log_levels.
    change (upper_level (LStr "DEBUG")) with (LStr "DEBUG").
    rewrite (apply_level_truthy "file" (LStr "DEBUG") cfg h eq_refl Hfile).
    rewrite Hactive, Hroot. cbn -[set_handler_level].
    eexists. split; [reflexivity |]. cbn -[set_handler_level].
    repeat split. now apply lookup_set_handler_level_eq.
  - intros cfg fl cl r ns Hfile Hconsole Hr Hns.
    unfold setup_log_levels.
    destruct (apply_level_defined "file" (upper_level fl) cfg) as [cfg1 H1].
    { rewrite truthy_upper_level. exact Hfile. }
    destruct (apply_level_frame _ _ _ _ H1) as [Hroot1 Hkeep1].
    destruct (apply_level_defined "console" (upper_level cl) cfg1) as [cfg2 H2].
    { rewrite truthy_upper_level. intros Ht. apply Hkeep1. now apply Hconsole. }
    destruct (apply_level_frame _ _ _ _ H2) as [Hroot2 _].
    rewrite H1. cbn [mbind result_bind]. rewrite H2. cbn [mbind result_bind].
    rewrite Hroot2, Hroot1.
    change [upper_level fl; upper_level cl; root_level cfg]
      with ([upper_level fl; upper_level cl] ++ [root_level cfg]).
    rewrite List.filter_app.
    replace (List.filter tocheck [root_level cfg]) with [root_level cfg]
      by (cbn [List.filter]; now rewrite (level_number_tocheck _ _ Hr)).
    rewrite (level_numbers_app _ [root_level cfg] ns [r] Hns)
      by (cbn; now rewrite Hr).
    cbn [mbind result_bind].
    destruct (py_min_is_minimum (ns ++ [r])) as (m & Hm & Hmin).
    { destruct ns; discriminate. }
    rewrite Hm. cbn [mbind result_bind]. eauto.
Qed.

Lemma setup_log_levels_root_minimum_witness :
  (exists cfg',
     setup_log_levels scenario_config (LStr "DEBUG") LNone = Ok cfg' /\
     root_level cfg' = LInt logging.DEBUG /\
     root_handlers cfg' = ["console"; "file"]%string /\
     lookup_handler "file" (handlers cfg') =
       Some (mkHandler (LStr "DEBUG") (FStr "run.log"))) /\
  (exists cfg' m,
     setup_log_levels scenario_config (LStr "error") (LStr "15") = Ok cfg' /\
     root_level cfg' = LInt m /\ is_minimum m ([40; 15] ++ [30])).
Proof.
  destruct setup_log_levels_root_minimum as [Hscenario Hgeneral].
  split.
  - apply (Hscenario scenario_config (mkHandler (LStr "INFO") (FStr "run.log")));
      reflexivity.
  - apply (Hgeneral scenario_config (LStr "error") (LStr "15") 30 [40; 15]);
      try reflexivity; intros _; eexists; reflexivity.
Defined.

(** ** Handler configuration renderer: file paths *)

Section MakedirsFacts.

Variable disk : Disk.

Lemma isdir_mono (fs fs' : FS) (p : Path) : fs ⊆ fs' -> isdir fs p -> isdir fs' p.
Proof. unfold isdir. intros Hsub [Hp|Hin]; [now left | right; now apply Hsub]. Qed.

Lemma path_exists_mono (fs fs' : FS) (p : Path) :
  fs ⊆ fs' -> path_exists disk fs p = true -> path_exists disk fs' p = true.
Proof.
  unfold path_exists. intros Hsub H. apply orb_true_iff in H as [H|H].
  - apply bool_decide_eq_true in H. apply orb_true_iff. left.
    apply bool_decide_eq_true. eapply isdir_mono; eassumption.
  - rewrite H. apply orb_true_r.
Qed.

(** What the last step of [makedirs] does, case by case. *)
Lemma mkdir_exist_ok_cases (p : Path) (fs : FS) :
  (isdir fs p /\ mkdir_exist_ok disk p fs = (Ok tt, fs)) \/
  (~ isdir fs p /\ isfile disk p = true /\
   mkdir_exist_ok disk p fs = (Raise FileExistsError, fs)) \/
  (~ isdir fs p /\ isfile disk p = false /\
   (~ isdir fs (parent p) \/ refused disk p = true) /\
   exists e, e <> FileExistsError /\ mkdir_exist_ok disk p fs = (Raise e, fs)) \/
  (~ isdir fs p /\ isfile disk p = false /\ isdir fs (parent p) /\
   refused disk p = false /\ mkdir_exist_ok disk p fs = (Ok tt, {[p]} ∪ fs)).
Proof.
  unfold mkdir_exist_ok, mkdir, path_exists.
  destruct (decide (isdir fs p)) as [Hd|Hd].
  - rewrite (bool_decide_eq_true_2 _ Hd). cbn [orb is_OSError andb].
    rewrite (bool_decide_eq_true_2 _ Hd). left. auto.
  - rewrite (bool_decide_eq_false_2 _ Hd). right.
    destruct (isfile disk p) eqn:Hf; cbn [orb is_OSError andb].
    + left. rewrite (bool_decide_eq_false_2 _ Hd). auto.
    + right. destruct (decide (isdir fs (parent p))) as [Hp|Hp].
      * rewrite (bool_decide_eq_true_2 _ Hp). cbn [negb].
        destruct (refused disk p) eqn:Hr; cbn [is_OSError andb].
        -- left. rewrite (bool_decide_eq_false_2 _ Hd).
           repeat split; auto. exists PermissionError. split; [discriminate | reflexivity].
        -- right. auto.
      * rewrite (bool_decide_eq_false_2 _ Hp). cbn [negb]. left.
        split; [exact Hd |]. split; [reflexivity |]. split; [now left |].
        destruct (isfile disk (parent p)); cbn [is_OSError andb];
          rewrite (bool_decide_eq_false_2 _ Hd);
          eexists; (split; [| reflexivity]); discriminate.
Qed.

Lemma mkdir_exist_ok_grows (p : Path) (fs : FS) :
  fs ⊆ (mkdir_exist_ok disk p fs).2.
Proof.
  destruct (mkdir_exist_ok_cases p fs)
    as [(_ & ->)|[(_ & _ & ->)|[(_ & _ & _ & e & _ & ->)|(_ & _ & _ & _ & ->)]]];
    cbn [snd]; try reflexivity.
  apply union_subseteq_r.
Qed.

Lemma mkdir_exist_ok_ok (p : Path) (fs fs' : FS) :
  mkdir_exist_ok disk p fs = (Ok tt, fs') -> isdir fs' p /\ fs ⊆ fs'.
Proof.
  destruct (mkdir_exist_ok_cases p fs)
    as [(Hd & ->)|[(_ & _ & ->)|[(_ & _ & _ & e & _ & ->)|(_ & _ & _ & _ & ->)]]];
    intros [= <-].
  - split; [exact Hd | reflexivity].
  - split; [right; apply elem_of_union_l, elem_of_singleton; reflexivity
           | apply union_subseteq_r].
Qed.

Lemma mkdir_exist_ok_there (p : Path) (fs : FS) :
  isdir fs p -> mkdir_exist_ok disk p fs = (Ok tt, fs).
Proof.
  intros Hd.
  destruct (mkdir_exist_ok_cases p fs)
    as [(_ & E)|[(Hn & _)|[(Hn & _)|(Hn & _)]]]; [exact E | | |]; contradiction.
Qed.

Lemma mkdir_exist_ok_clear (p : Path) (fs : FS) :
  isfile disk p = false -> refused disk p = false -> isdir fs (parent p) ->
  exists fs', mkdir_exist_ok disk p fs = (Ok tt, fs').
Proof.
  intros Hf Hr Hp.
  destruct (mkdir_exist_ok_cases p fs)
    as [(_ & E)|[(_ & Hf' & _)|[(_ & _ & [Hn|Hr'] & _)|(_ & _ & _ & _ & E)]]];
    eauto; congruence.
Qed.

Lemma mkdir_exist_ok_FileExistsError (p : Path) (fs fs' : FS) :
  mkdir_exist_ok disk p fs = (Raise FileExistsError, fs') -> isfile disk p = true.
Proof.
  destruct (mkdir_exist_ok_cases p fs)
    as [(_ & ->)|[(_ & Hf & _)|[(_ & _ & _ & e & He & ->)|(_ & _ & _ & _ & ->)]]];
    try discriminate; [auto |].
  intros [= -> _]. contradiction.
Qed.

Lemma makedirs_aux_grows (depth : nat) :
  forall (name : Path) (fs : FS), fs ⊆ (makedirs_aux depth disk name fs).2.
Proof.
  induction depth as [|depth IH]; intros name fs; cbn [makedirs_aux].
  - apply mkdir_exist_ok_grows.
  - destruct (negb (bool_decide (parts (parent name) = []))
              && negb (path_exists disk fs (parent name)));
      [| apply mkdir_exist_ok_grows].
    pose proof (IH (parent name) fs) as Hin.
    destruct (makedirs_aux depth disk (parent name) fs) as [[u|e] fs1]; cbn [snd] in Hin.
    + etrans; [exact Hin | apply mkdir_exist_ok_grows].
    + destruct e; try exact Hin.
      etrans; [exact Hin | apply mkdir_exist_ok_grows].
Qed.

Lemma makedirs_aux_ok (depth : nat) (name : Path) (fs fs' : FS) :
  makedirs_aux depth disk name fs = (Ok tt, fs') -> isdir fs' name /\ fs ⊆ fs'.
Proof.
  intros H. split.
  - destruct depth as [|depth]; cbn [makedirs_aux] in H.
    + now apply mkdir_exist_ok_ok in H.
    + destruct (negb (bool_decide (parts (parent name) = []))
                && negb (path_exists disk fs (parent name)));
        [| now apply mkdir_exist_ok_ok in H].
      destruct (makedirs_aux depth disk (parent name) fs) as [[u|e] fs1].
      * now apply mkdir_exist_ok_ok in H.
      * destruct e; try discriminate. now apply mkdir_exist_ok_ok in H.
  - pose proof (makedirs_aux_grows depth name fs) as Hg. now rewrite H in Hg.
Qed.

(** Where nothing exists, the call does not end in [FileExistsError]. *)
Lemma makedirs_aux_not_FileExistsError (depth : nat) (name : Path) (fs fs' : FS) :
  path_exists disk fs name = false ->
  makedirs_aux depth disk name fs <> (Raise FileExistsError, fs').
Proof.
  unfold path_exists. intros Hno%orb_false_iff. destruct Hno as [_ Hf].
  assert (forall fs1, mkdir_exist_ok disk name fs1 <> (Raise FileExistsError, fs'))
    as Hlast.
  { intros fs1 E. apply mkdir_exist_ok_FileExistsError in E. congruence. }
  destruct depth as [|depth]; cbn [makedirs_aux]; [apply Hlast |].
  destruct (negb (bool_decide (parts (parent name) = []))
            && negb (path_exists disk fs (parent name))); [| apply Hlast].
  destruct (makedirs_aux depth disk (parent name) fs) as [[u|e] fs1];
    [apply Hlast |].
  destruct e; try discriminate. apply Hlast.
Qed.

(** A call that returned finds everything in place afterwards: run
    again, on the directories it left or on more, it creates nothing. *)
Lemma makedirs_aux_again (depth : nat) (name : Path) (fs fs' fs'' : FS) :
  makedirs_aux depth disk name fs = (Ok tt, fs') -> fs' ⊆ fs'' ->
  makedirs_aux depth disk name fs'' = (Ok tt, fs'').
Proof.
  intros H Hsub.
  destruct (makedirs_aux_ok _ _ _ _ H) as [Hdir Hg].
  assert (isdir fs'' name) as Hdir'' by (eapply isdir_mono; eassumption).
  destruct depth as [|depth]; cbn [makedirs_aux] in *;
    [now apply mkdir_exist_ok_there |].
  assert (negb (bool_decide (parts (parent name) = []))
          && negb (path_exists disk fs'' (parent name)) = false) as ->;
    [| now apply mkdir_exist_ok_there].
  destruct (bool_decide (parts (parent name) = [])); [reflexivity |].
  cbn [negb andb] in *. apply negb_false_iff.
  destruct (path_exists disk fs (parent name)) eqn:Hex; cbn [negb] in H.
  - eapply path_exists_mono; [| exact Hex]. etrans; eassumption.
  - destruct (makedirs_aux depth disk (parent name) fs) as [[u|e] fs1] eqn:Hin.
    + destruct u. apply makedirs_aux_ok in Hin as [Hhead _].
      apply mkdir_exist_ok_ok in H as [_ Hg1].
      unfold path_exists. apply orb_true_iff. left. apply bool_decide_eq_true.
      eapply isdir_mono; [| exact Hhead]. etrans; eassumption.
    + destruct e; try discriminate.
      exfalso. eapply makedirs_aux_not_FileExistsError; eassumption.
Qed.

Lemma clear_way_parent (p : Path) : clear_way disk p -> clear_way disk (parent p).
Proof.
  intros H n. unfold parent. cbn [is_absolute parts].
  rewrite removelast_firstn_len, take_take. apply H.
Qed.

Lemma clear_way_self (p : Path) :
  clear_way disk p -> isfile disk p = false /\ refused disk p = false.
Proof.
  intros H. specialize (H (length (parts p))).
  rewrite firstn_all in H. now destruct p.
Qed.

Lemma length_parts_parent (p : Path) :
  length (parts (parent p)) = pred (length (parts p)).
Proof.
  unfold parent. cbn [parts]. rewrite removelast_firstn_len, length_take. lia.
Qed.

(** With nothing in the way the directory is made. *)
Lemma makedirs_aux_clear (depth : nat) :
  forall (name : Path) (fs : FS),
    (length (parts name) <= S depth)%nat -> clear_way disk name ->
    exists fs', makedirs_aux depth disk name fs = (Ok tt, fs').
Proof.
  induction depth as [|depth IH]; intros name fs Hlen Hclear;
    destruct (clear_way_self _ Hclear) as [Hf Hr]; cbn [makedirs_aux].
  - apply mkdir_exist_ok_clear; try assumption. left.
    apply length_zero_iff_nil. rewrite length_parts_parent. lia.
  - destruct (decide (parts (parent name) = [])) as [Hroot|Hroot].
    + rewrite (bool_decide_eq_true_2 _ Hroot). cbn [negb andb].
      apply mkdir_exist_ok_clear; try assumption. now left.
    + rewrite (bool_decide_eq_false_2 _ Hroot). cbn [negb andb].
      destruct (path_exists disk fs (parent name)) eqn:Hex; cbn [negb].
      * apply mkdir_exist_ok_clear; try assumption.
        unfold path_exists in Hex. apply orb_true_iff in Hex as [Hd|Hfile].
        -- now apply bool_decide_eq_true in Hd.
        -- destruct (clear_way_self _ (clear_way_parent _ Hclear)). congruence.
      * destruct (IH (parent name) fs) as [fs1 Hin].
        { rewrite length_parts_parent. lia. }
        { now apply clear_way_parent. }
        rewrite Hin. apply mkdir_exist_ok_clear; try assumption.
        now apply makedirs_aux_ok in Hin.
Qed.

Lemma makedirs_clear (name : Path) (fs : FS) :
  clear_way disk name ->
  exists fs',
    makedirs disk name fs = (Ok tt, fs') /\ fs ⊆ fs' /\ isdir fs' name /\
    forall fs'', fs' ⊆ fs'' -> makedirs disk name fs'' = (Ok tt, fs'').
Proof.
  intros Hclear. unfold makedirs.
  destruct (makedirs_aux_clear (length (parts name)) name fs) as [fs' E];
    [lia | exact Hclear |].
  exists fs'. split; [exact E |].
  destruct (makedirs_aux_ok _ _ _ _ E) as [Hdir Hg].
  split; [exact Hg |]. split; [exact Hdir |].
  intros fs'' Hsub. eapply makedirs_aux_again; eassumption.
Qed.

Lemma makedirs_grows (name : Path) (fs : FS) : fs ⊆ (makedirs disk name fs).2.
Proof. apply makedirs_aux_grows. Qed.

End MakedirsFacts.

Section RendererFacts.

Variable convert_path : string -> Path.
Variable disk : Disk.
Variable base : Path.
Variable args : gmap string string.

Lemma handler_resolved_mono (fs fs' : FS) (h h' : Handler) :
  fs ⊆ fs' ->
  handler_resolved convert_path base args fs h h' ->
  handler_resolved convert_path base args fs' h h'.
Proof.
  unfold handler_resolved. intros Hsub [Hl Hf]. split; [exact Hl |].
  destruct (h_filename h) as [|t|p]; try exact Hf.
  destruct (String.eqb t EmptyString); [exact Hf |].
  destruct Hf as (s & p & Hs & Hp & Heq & Habs & Hdir).
  exists s, p. repeat split; try assumption. eapply isdir_mono; eassumption.
Qed.

Lemma setup_handler_path_resolved (h : Handler) (fs : FS) :
  formattable args (h_filename h) ->
  creatable convert_path disk base args (h_filename h) ->
  exists h' fs',
    setup_handler_path convert_path disk (Some base) args h fs = (Ok h', fs') /\
    fs ⊆ fs' /\ handler_resolved convert_path base args fs' h h' /\
    forall fs'', fs' ⊆ fs'' ->
      setup_handler_path convert_path disk (Some base) args h fs'' = (Ok h', fs'').
Proof.
  unfold setup_handler_path, handler_resolved, formattable, creatable.
  destruct (h_filename h) as [|t|p] eqn:Hf; simpl; intros Hfmt Hmk.
  - exists h, fs. rewrite Hf. auto.
  - destruct (String.eqb t EmptyString) eqn:Ht; simpl.
    + exists h, fs. rewrite Hf. auto.
    + destruct Hfmt as [s Hs]. specialize (Hmk s Hs).
      unfold resolve_filename. rewrite Hs. cbn [mbind result_bind].
      set (p := match negb (is_absolute (convert_path s)), Some base with
                | true, Some b => joinpath b (convert_path s)
                | _, _ => convert_path s
                end).
      assert (p = if is_absolute (convert_path s) then convert_path s
                  else joinpath base (convert_path s)) as Hp.
      { subst p. now destruct (is_absolute (convert_path s)). }
      rewrite <- Hp in Hmk.
      destruct (makedirs_clear disk (parent p) fs Hmk) as (fs' & E & Hsub & Hdir & Hagain).
      exists (mkHandler (h_level h) (FPath p)), fs'.
      rewrite E. split; [reflexivity |]. split; [exact Hsub |]. split.
      * split; [reflexivity |]. exists s, p.
        repeat split; try assumption; try reflexivity.
        intros Hbase. rewrite Hp.
        destruct (is_absolute (convert_path s)) eqn:Habs; [exact Habs |].
        unfold joinpath. now rewrite Habs.
      * intros fs'' Hsub''. now rewrite (Hagain fs'' Hsub'').
  - contradiction.
Qed.

Lemma setup_handlers_paths_resolved (hs : list (string * Handler)) (fs : FS) :
  Forall (fun kh => formattable args (h_filename kh.2)) hs ->
  Forall (fun kh => creatable convert_path disk base args (h_filename kh.2)) hs ->
  exists hs' fs',
    setup_handlers_paths convert_path disk (Some base) args hs fs = (Ok hs', fs') /\
    fs ⊆ fs' /\
    Forall2 (fun kh kh' =>
               kh'.1 = kh.1 /\
               handler_resolved convert_path base args fs' kh.2 kh'.2) hs hs' /\
    forall fs'', fs' ⊆ fs'' ->
      setup_handlers_paths convert_path disk (Some base) args hs fs'' = (Ok hs', fs'').
Proof.
  revert fs. induction hs as [|[k h] hs IH]; intros fs Hall Hmk.
  - exists [], fs. simpl. auto.
  - apply Forall_cons in Hall as [Hh Hall]. apply Forall_cons in Hmk as [Hm Hmk].
    simpl in Hh, Hm.
    destruct (setup_handler_path_resolved h fs Hh Hm)
      as (h' & fs1 & E1 & Hsub1 & Hres & Hagain1).
    destruct (IH fs1 Hall Hmk) as (hs' & fs2 & E2 & Hsub2 & Hrest & Hagain2).
    exists ((k, h') :: hs'), fs2. simpl. rewrite E1, E2.
    split; [reflexivity |]. split; [etrans; eassumption |]. split.
    + constructor; [| exact Hrest].
      split; [reflexivity |]. simpl. eapply handler_resolved_mono; eassumption.
    + intros fs'' Hsub''.
      rewrite (Hagain1 fs'') by (etrans; eassumption).
      now rewrite (Hagain2 fs'' Hsub'').
Qed.

End RendererFacts.

(** ** Token substitution *)

Lemma letter_not_special (c : ascii) :
  is_letter c = true ->
  Ascii.eqb c "{" = false /\ Ascii.eqb c "}" = false /\ is_digit c = false.
Proof.
  destruct c as [[] [] [] [] [] [] [] []]; vm_compute; intros H;
    repeat split; try reflexivity; discriminate H.
Qed.

Lemma digit_not_brace (c : ascii) :
  is_digit c = true -> Ascii.eqb c "}" = false.
Proof.
  destruct c as [[] [] [] [] [] [] [] []]; vm_compute; intros H;
    try reflexivity; discriminate H.
Qed.

Lemma format_field_char (c : ascii) (rest acc : string) :
  Ascii.eqb c "}" = false ->
  format_field (String c rest) acc = format_field rest (acc +:+ String c EmptyString).
Proof.
  destruct c as [[] [] [] [] [] [] [] []]; intros H; try reflexivity;
    discriminate H.
Qed.

Lemma format_aux_char (fuel : nat) (c : ascii) (rest : string)
  (args : gmap string string) :
  Ascii.eqb c "{" = false -> Ascii.eqb c "}" = false ->
  format_aux (S fuel) (String c rest) args
  = (out ← format_aux fuel rest args; Ok (String c out)).
Proof.
  destruct c as [[] [] [] [] [] [] [] []]; intros H1 H2; try reflexivity;
    discriminate.
Qed.

Lemma format_aux_field (fuel : nat) (c : ascii) (rest : string)
  (args : gmap string string) :
  Ascii.eqb c "{" = false ->
  format_aux (S fuel) (String "{" (String c rest)) args
  = match format_field (String c rest) EmptyString with
    | None => Raise ValueError
    | Some (name, rest') =>
        if all_chars is_digit name then Raise IndexError
        else if is_identifier name then
          v ← of_option (args !! name) (KeyError name);
          out ← format_aux fuel rest' args;
          Ok (v +:+ out)
        else Raise NotModelled
    end.
Proof.
  destruct c as [[] [] [] [] [] [] [] []]; intros H; try reflexivity;
    discriminate H.
Qed.

Lemma append_nil (s : string) : EmptyString +:+ s = s.
Proof. reflexivity. Qed.

Lemma append_cons (c : ascii) (s t : string) : String c s +:+ t = String c (s +:+ t).
Proof. reflexivity. Qed.

Lemma append_empty_r (s : string) : s +:+ EmptyString = s.
Proof.
  induction s as [|c s IH]; [reflexivity |]. now rewrite append_cons, IH.
Qed.

Lemma append_assoc (s1 s2 s3 : string) : (s1 +:+ s2) +:+ s3 = s1 +:+ (s2 +:+ s3).
Proof.
  induction s1 as [|c s1 IH]; [reflexivity |]. now rewrite !append_cons, IH.
Qed.

Lemma length_append (s1 s2 : string) :
  String.length (s1 +:+ s2) = (String.length s1 + String.length s2)%nat.
Proof. induction s1 as [|c s1 IH]; simpl; [reflexivity | now rewrite IH]. Qed.

Lemma format_field_name (name post acc : string) :
  all_chars (fun c => negb (Ascii.eqb c "}")) name = true ->
  format_field (name +:+ String "}" post) acc = Some (acc +:+ name, post).
Proof.
  revert acc. induction name as [|c name IH]; intros acc Hname.
  - rewrite append_nil, append_empty_r. reflexivity.
  - simpl in Hname. apply andb_true_iff in Hname as [Hc Hname].
    apply negb_true_iff in Hc.
    rewrite append_cons, format_field_char by exact Hc.
    rewrite IH by exact Hname. now rewrite append_assoc.
Qed.

Lemma identifier_chars (name : string) :
  is_identifier name = true ->
  exists c name',
    name = String c name' /\ Ascii.eqb c "{" = false /\
    all_chars is_digit name = false /\
    all_chars (fun c => negb (Ascii.eqb c "}")) name = true.
Proof.
  destruct name as [|c name']; [discriminate |]. simpl.
  intros [Hc Hrest]%andb_true_iff.
  destruct (letter_not_special c Hc) as (Hopen & Hclose & Hdigit).
  exists c, name'. split; [reflexivity |]. split; [exact Hopen |].
  split; [now rewrite Hdigit |].
  rewrite Hclose. cbn [negb andb].
  induction name' as [|d name' IH]; [reflexivity |].
  simpl in Hrest |- *. apply andb_true_iff in Hrest as [Hd Hrest].
  rewrite IH by exact Hrest. rewrite andb_true_r. apply negb_true_iff.
  apply orb_true_iff in Hd as [Hd|Hd].
  - now destruct (letter_not_special d Hd) as (_ & ? & _).
  - now apply digit_not_brace.
Qed.

(** One token: the field is replaced by the value bound to its name. *)
Lemma format_aux_token (fuel : nat) (name post v : string)
  (args : gmap string string) :
  is_identifier name = true -> args !! name = Some v ->
  format_aux (S fuel) (String "{" (name +:+ String "}" post)) args
  = (out ← format_aux fuel post args; Ok (v +:+ out)).
Proof.
  intros Hid Hv.
  destruct (identifier_chars name Hid) as (c & name' & Hname & Hopen & Hdig & Hclose).
  assert (format_aux (S fuel) (String "{" (name +:+ String "}" post)) args
          = match format_field (name +:+ String "}" post) EmptyString with
            | None => Raise ValueError
            | Some (name, rest') =>
                if all_chars is_digit name then Raise IndexError
                else if is_identifier name then
                  v ← of_option (args !! name) (KeyError name);
                  out ← format_aux fuel rest' args;
                  Ok (v +:+ out)
                else Raise NotModelled
            end) as ->.
  { rewrite Hname, append_cons. now apply format_aux_field. }
  rewrite format_field_name by exact Hclose.
  rewrite append_nil, Hdig, Hid, Hv. reflexivity.
Qed.

Lemma format_aux_pieces (args : gmap string string) (pieces : list piece) :
  forall fuel,
    (String.length (template_of pieces) < fuel)%nat ->
    Forall (substitutable args) pieces ->
    format_aux fuel (template_of pieces) args = Ok (filled args pieces).
Proof.
  induction pieces as [|p pieces IH]; intros fuel Hfuel Hall.
  - destruct fuel; [simpl in Hfuel; lia | reflexivity].
  - apply Forall_cons in Hall as [Hp Hall].
    destruct p as [s|name]; cbn [template_of filled piece_text piece_value] in *.
    + cbn [substitutable] in Hp. unfold brace_free in Hp.
      revert fuel Hfuel Hp.
      induction s as [|c s IHs]; intros fuel Hfuel Hp.
      * rewrite !append_nil in *. now apply IH.
      * simpl in Hp. apply andb_true_iff in Hp as [Hc Hs].
        apply andb_true_iff in Hc as [Ho Hcl].
        apply negb_true_iff in Ho. apply negb_true_iff in Hcl.
        rewrite !append_cons in *.
        destruct fuel as [|fuel]; [simpl in Hfuel; lia |].
        rewrite format_aux_char by assumption.
        rewrite IHs; [reflexivity | | exact Hs]. simpl in Hfuel. lia.
    + destruct Hp as [Hid [v Hv]].
      rewrite append_cons, append_assoc, append_cons, append_nil in *.
      destruct fuel as [|fuel]; [simpl in Hfuel; lia |].
      rewrite (format_aux_token fuel name _ v) by assumption.
      rewrite IH; [| | exact Hall].
      * cbn [mbind result_bind]. now rewrite Hv.
      * simpl in Hfuel. rewrite !length_append in Hfuel. simpl in Hfuel. lia.
Qed.

(** A template of literal text and tokens is filled in: each token is
    replaced by the value bound to its name, the text is kept. *)
Lemma format_pieces (args : gmap string string) (pieces : list piece) :
  Forall (substitutable args) pieces ->
  format (template_of pieces) args = Ok (filled args pieces).
Proof. intros Hall. apply format_aux_pieces; [unfold lt; reflexivity | exact Hall]. Qed.

Example posix_path_run_log :
  posix_path "/var/log/agent/run.log"
  = mkPath true ["var"; "log"; "agent"; "run.log"]%string.
Proof. vm_compute. reflexivity. Qed.

Example setup_log_handler_paths_scenario :
  setup_log_handler_paths posix_path free_disk scenario_paths (Some var_log_agent) ∅ ∅ =
  (Ok (mkConfig
         [("console", mkHandler (LStr "INFO") FNone);
          ("file", mkHandler (LStr "INFO") (FPath (posix_path "/var/log/agent/run.log")));
          ("tmp", mkHandler (LStr "DEBUG") (FPath (posix_path "/tmp/x.log")))]%string
         (LStr "WARNING") ["console"%string]),
   {[ posix_path "/var"; posix_path "/var/log"; posix_path "/var/log/agent";
      posix_path "/tmp" ]}).
Proof. reflexivity. Qed.

(** Tokens are substituted before the path is anchored. *)
Example setup_log_handler_paths_tokens :
  (setup_log_handler_paths posix_path free_disk scenario_tokens (Some var_log_agent)
     {["site" := "hamma"; "run_id" := "17"]}%string ∅).1 =
  Ok (mkConfig
        [("console", mkHandler (LStr "INFO") FNone);
         ("file", mkHandler (LStr "INFO")
                    (FPath (posix_path "/var/log/agent/hamma/run_17.log")))]%string
        (LStr "WARNING") ["console"%string]).
Proof. reflexivity. Qed.

(** A regular file where the log directory should be stops the run: the
    directories above it have been made, the filename is not stored. *)
Example setup_log_handler_paths_file_in_the_way :
  setup_log_handler_paths posix_path
    (mkDisk (fun p => bool_decide (p = posix_path "/var/log/agent")) (fun _ => false))
    scenario_paths (Some var_log_agent) ∅ ∅
  = (Raise FileExistsError, {[ posix_path "/var"; posix_path "/var/log" ]}).
Proof. reflexivity. Qed.

(** A regular file further up, or a refusal, stops it as well. *)
Example setup_log_handler_paths_not_a_directory :
  (setup_log_handler_paths posix_path
     (mkDisk (fun p => bool_decide (p = posix_path "/var/log")) (fun _ => false))
     scenario_paths (Some var_log_agent) ∅ {[ posix_path "/var" ]}).1
  = Raise NotADirectoryError /\
  (setup_log_handler_paths posix_path
     (mkDisk (fun _ => false) (fun p => bool_decide (p = posix_path "/var/log")))
     scenario_paths (Some var_log_agent) ∅ {[ posix_path "/var" ]}).1
  = Raise PermissionError.
Proof. split; reflexivity. Qed.

(** Without an output directory a relative filename stays relative. *)
Example resolve_filename_no_output_path :
  resolve_filename posix_path None ∅ "run.log" = Ok (mkPath false ["run.log"%string]).
Proof. reflexivity. Qed.

(** A second run over a rendered configuration meets path objects. *)
Example setup_log_handler_paths_again :
  forall cfg fs,
    setup_log_handler_paths posix_path free_disk scenario_paths (Some var_log_agent) ∅ ∅
      = (Ok cfg, fs) ->
    (setup_log_handler_paths posix_path free_disk cfg (Some var_log_agent) ∅ fs).1
      = Raise AttributeError.
Proof.
  intros cfg fs. rewrite setup_log_handler_paths_scenario.
  intros [= <- <-]. reflexivity.
Qed.

Lemma resolve_filename_pieces (convert_path : string -> Path) (base : Path)
  (args : gmap string string) (pieces : list piece) :
  Forall (substitutable args) pieces ->
  resolve_filename convert_path (Some base) args (template_of pieces)
  = Ok (if is_absolute (convert_path (filled args pieces))
        then convert_path (filled args pieces)
        else joinpath base (convert_path (filled args pieces))).
Proof.
  intros Hall. unfold resolve_filename. rewrite format_pieces by exact Hall.
  cbn [mbind result_bind].
  now destruct (is_absolute (convert_path (filled args pieces))).
Qed.

(** C8: for every handler with a filename template, the renderer stores
    the path built from the substituted template, anchored under the
    output directory when it is relative and as it is when it is
    absolute.  When no regular file and no refusal stands in the way of
    the parent directories, the run returns, the parent directory of each
    stored path exists afterwards, and a run that finds these directories
    in place, or more, gives the same result and creates nothing.  A
    template of text and tokens is filled in with the values bound to
    the tokens before it is made a path.  With the path constructor for
    [convert_path], ["run.log"] under [/var/log/agent] becomes
    [/var/log/agent/run.log] and [/tmp/x.log] stays. *)
Theorem setup_log_handler_paths_resolves :
  (forall convert_path disk cfg base args (fs : FS),
     Forall (fun kh => formattable args (h_filename kh.2)) (handlers cfg) ->
     Forall (fun kh => creatable convert_path disk base args (h_filename kh.2))
            (handlers cfg) ->
     exists cfg' fs',
       setup_log_handler_paths convert_path disk cfg (Some base) args fs
         = (Ok cfg', fs') /\
       root_level cfg' = root_level cfg /\
       root_handlers cfg' = root_handlers cfg /\
       Forall2 (fun kh kh' =>
                  kh'.1 = kh.1 /\
                  handler_resolved convert_path base args fs' kh.2 kh'.2)
               (handlers cfg) (handlers cfg') /\
       fs ⊆ fs' /\
       forall fs'', fs' ⊆ fs'' ->
         setup_log_handler_paths convert_path disk cfg (Some base) args fs''
           = (Ok cfg', fs'')) /\
  (forall convert_path base args pieces,
     Forall (substitutable args) pieces ->
     format (template_of pieces) args = Ok (filled args pieces) /\
     resolve_filename convert_path (Some base) args (template_of pieces)
     = Ok (if is_absolute (convert_path (filled args pieces))
           then convert_path (filled args pieces)
           else joinpath base (convert_path (filled args pieces)))) /\
  resolve_filename posix_path (Some var_log_agent) ∅ "run.log"
    = Ok (posix_path "/var/log/agent/run.log") /\
  resolve_filename posix_path (Some var_log_agent) ∅ "/tmp/x.log"
    = Ok (posix_path "/tmp/x.log").
Proof.
  split; [| split; [| split; vm_compute; reflexivity]].
  - intros convert_path disk cfg base args fs Hall Hmk.
    destruct (setup_handlers_paths_resolved convert_path disk base args _ fs Hall Hmk)
      as (hs' & fs' & E & Hsub & Hres & Hagain).
    exists (mkConfig hs' (root_level cfg) (root_handlers cfg)), fs'.
    unfold setup_log_handler_paths. rewrite E.
    repeat split; try assumption.
    intros fs'' Hsub''. now rewrite (Hagain fs'' Hsub'').
  - intros convert_path base args pieces Hall. split.
    + now apply format_pieces.
    + now apply resolve_filename_pieces.
Qed.

Lemma setup_log_handler_paths_resolves_witness :
  let args : gmap string string := {["site" := "hamma"; "run_id" := "17"]}%string in
  (exists cfg' fs',
     setup_log_handler_paths posix_path free_disk scenario_tokens (Some var_log_agent)
       args ∅ = (Ok cfg', fs') /\
     root_level cfg' = root_level scenario_tokens /\
     root_handlers cfg' = root_handlers scenario_tokens /\
     Forall2 (fun kh kh' =>
                kh'.1 = kh.1 /\
                handler_resolved posix_path var_log_agent args fs' kh.2 kh'.2)
             (handlers scenario_tokens) (handlers cfg') /\
     ∅ ⊆ fs' /\
     forall fs'', fs' ⊆ fs'' ->
       setup_log_handler_paths posix_path free_disk scenario_tokens
         (Some var_log_agent) args fs'' = (Ok cfg', fs'')) /\
  resolve_filename posix_path (Some var_log_agent) args "{site}/run_{run_id}.log"
  = Ok (posix_path "/var/log/agent/hamma/run_17.log").
Proof.
  cbv zeta.
  destruct setup_log_handler_paths_resolves as (Hgeneral & Htokens & _).
  split.
  - apply (Hgeneral posix_path free_disk scenario_tokens var_log_agent
             {["site" := "hamma"; "run_id" := "17"]}%string ∅).
    + repeat constructor; simpl; eexists; vm_compute; reflexivity.
    + repeat constructor; simpl; try exact I; intros s _ n; split; reflexivity.
  - assert (Forall (substitutable {["site" := "hamma"; "run_id" := "17"]}%string)
              [Token "site"; Literal "/run_"; Token "run_id"; Literal ".log"]%string)
      as Hpieces.
    { repeat (constructor;
              [first [reflexivity | split; [reflexivity | eexists; reflexivity]] |]).
      constructor. }
    destruct (Htokens posix_path var_log_agent _ _ Hpieces) as [_ Hresolved].
    exact Hresolved.
Defined.

(** ** Handler configuration renderer: the whole rendering *)

Lemma falsy_truthy (l : Level) : falsy l <-> truthy l = false.
Proof.
  unfold falsy. split.
  - intros [->|[->| ->]]; reflexivity.
  - destruct l as [|n|s]; simpl; intros H; auto.
    + right; left. f_equal. destruct (Z.eqb_spec n 0); [assumption | discriminate].
    + right; right. f_equal. destruct s; [reflexivity | discriminate].
Qed.

(** Path resolution touches no level and no handler name, whatever the
    output directory. *)
Lemma setup_handlers_paths_levels (convert_path : string -> Path) (disk : Disk)
  (output_path : option Path) (args : gmap string string)
  (hs hs' : list (string * Handler)) (fs fs' : FS) :
  setup_handlers_paths convert_path disk output_path args hs fs = (Ok hs', fs') ->
  Forall2 (fun kh kh' => kh'.1 = kh.1 /\ h_level kh'.2 = h_level kh.2) hs hs'.
Proof.
  revert hs' fs. induction hs as [|[k h] hs IH]; intros hs' fs; simpl.
  - intros [= <- _]. constructor.
  - destruct (setup_handler_path convert_path disk output_path args h fs)
      as [[h1|e] fs1] eqn:E1; [| discriminate].
    destruct (setup_handlers_paths convert_path disk output_path args hs fs1)
      as [[hs1|e] fs2] eqn:E2; [| discriminate].
    intros [= <- <-]. constructor; [| eapply IH; eassumption].
    split; [reflexivity |]. simpl.
    unfold setup_handler_path in E1.
    destruct (filename_truthy (h_filename h)); [| now injection E1 as <- _].
    destruct (h_filename h) as [|t|p]; try discriminate; [now injection E1 as <- _ |].
    destruct (resolve_filename convert_path output_path args t) as [q|]; [| discriminate].
    destruct (makedirs disk (parent q) fs) as [[u|e'] fs0]; [| discriminate].
    now injection E1 as <- _.
Qed.

(** Called on its own, [setup_log_levels] does take a numeric zero into
    the minimum and makes the root level a number. *)
Example setup_log_levels_zero_alone :
  (setup_log_levels scenario_paths (LInt 0) LNone) =
  Ok (mkConfig (handlers scenario_paths) (LInt 0) (root_handlers scenario_paths)).
Proof. vm_compute. reflexivity. Qed.

Example render_full_log_config_zero :
  (render_full_log_config posix_path free_disk scenario_paths (LInt 0) LNone
     (Some var_log_agent) ∅ ∅).1
  = (setup_log_handler_paths posix_path free_disk scenario_paths (Some var_log_agent) ∅ ∅).1.
Proof. reflexivity. Qed.

(** C9: when both overrides are falsy ([None], 0 or the empty string) the
    rendering is path resolution alone: the levels are not merged, so
    the handler thresholds, the active handlers and the root level of the
    result are the template's, a zero override included. *)
Theorem render_full_log_config_falsy_overrides
  (convert_path : string -> Path) (disk : Disk) (cfg : Config)
  (log_level_file log_level_console : Level) (output_path : option Path)
  (args : gmap string string) (fs : FS) :
  falsy log_level_file -> falsy log_level_console ->
  render_full_log_config convert_path disk cfg log_level_file log_level_console
    output_path args fs
  = setup_log_handler_paths convert_path disk cfg output_path args fs /\
  forall cfg' fs',
    render_full_log_config convert_path disk cfg log_level_file log_level_console
      output_path args fs = (Ok cfg', fs') ->
    root_level cfg' = root_level cfg /\
    root_handlers cfg' = root_handlers cfg /\
    Forall2 (fun kh kh' => kh'.1 = kh.1 /\ h_level kh'.2 = h_level kh.2)
            (handlers cfg) (handlers cfg').
Proof.
  intros Hf%falsy_truthy Hc%falsy_truthy.
  assert (render_full_log_config convert_path disk cfg log_level_file log_level_console
            output_path args fs
          = setup_log_handler_paths convert_path disk cfg output_path args fs) as Heq.
  { unfold render_full_log_config, deepcopy. rewrite Hf, Hc. simpl.
    now destruct (setup_log_handler_paths convert_path disk cfg output_path args fs)
      as [[c|e] fs1]. }
  split; [exact Heq |].
  intros cfg' fs'. rewrite Heq. unfold setup_log_handler_paths.
  destruct (setup_handlers_paths convert_path disk output_path args (handlers cfg) fs)
    as [[hs|e] fs1] eqn:E; [| discriminate].
  intros [= <- <-]. simpl. repeat split.
  eapply setup_handlers_paths_levels; eassumption.
Qed.

Lemma render_full_log_config_falsy_overrides_witness :
  render_full_log_config posix_path free_disk scenario_paths (LInt 0) (LStr EmptyString)
    (Some var_log_agent) ∅ ∅
  = setup_log_handler_paths posix_path free_disk scenario_paths (Some var_log_agent) ∅ ∅ /\
  forall cfg' fs',
    render_full_log_config posix_path free_disk scenario_paths (LInt 0) (LStr EmptyString)
      (Some var_log_agent) ∅ ∅ = (Ok cfg', fs') ->
    root_level cfg' = LStr "WARNING" /\
    root_handlers cfg' = ["console"%string] /\
    Forall2 (fun kh kh' => kh'.1 = kh.1 /\ h_level kh'.2 = h_level kh.2)
            (handlers scenario_paths) (handlers cfg').
Proof.
  apply (render_full_log_config_falsy_overrides posix_path free_disk scenario_paths
           (LInt 0) (LStr EmptyString) (Some var_log_agent) ∅ ∅).
  - right; left; reflexivity.
  - right; right; reflexivity.
Defined.

(** ** Worker-side emitter setup *)

Lemma callHandlers_lookup (r : LogRecord) (hs : list QueueHandler)
  (qs : gmap nat (list LogRecord)) (q : nat) :
  callHandlers r hs qs !! q =
  (fun l => l ++ replicate (deliveries q (levelno r) hs) r) <$> qs !! q.
Proof.
  unfold callHandlers, deliveries. revert qs.
  induction hs as [|h hs IH]; intros qs; simpl.
  - destruct (qs !! q); simpl; [now rewrite app_nil_r | reflexivity].
  - rewrite IH. destruct (qh_level h <=? levelno r); simpl; [| reflexivity].
    unfold put_nowait. destruct (Nat.eqb_spec (qh_queue h) q) as [->|Hne]; simpl.
    + rewrite lookup_alter_eq. destruct (qs !! q); simpl; [| reflexivity].
      now rewrite <- app_assoc.
    + now rewrite lookup_alter_ne.
Qed.

Lemma fresh_object_not_handler (w : Worker) :
  worker_wf w -> next_object w ∉ qh_id <$> root_logger_handlers w.
Proof.
  unfold worker_wf. intros Hwf Hin.
  apply list_elem_of_fmap in Hin as (h & Hid & Hh).
  rewrite Forall_forall in Hwf. specialize (Hwf h Hh). lia.
Qed.

(** Each call appends one more handler object to the root logger. *)
Lemma setup_worker_config_handlers (q : nat) (lvl : Z) (w : Worker) :
  worker_wf w ->
  setup_worker_config q lvl w =
    mkWorker lvl
      (root_logger_handlers w ++ [mkQueueHandler (next_object w) q logging.NOTSET])
      (S (next_object w)) (queues w) /\
  worker_wf (setup_worker_config q lvl w).
Proof.
  intros Hwf.
  assert (setup_worker_config q lvl w =
    mkWorker lvl
      (root_logger_handlers w ++ [mkQueueHandler (next_object w) q logging.NOTSET])
      (S (next_object w)) (queues w)) as Heq.
  { unfold setup_worker_config, new_QueueHandler, addHandler, setLevel. simpl.
    rewrite bool_decide_eq_false_2 by now apply fresh_object_not_handler.
    reflexivity. }
  split; [exact Heq |]. rewrite Heq. unfold worker_wf in *. simpl.
  apply Forall_app. split.
  - eapply Forall_impl; [exact Hwf |]. simpl. intros h Hh. lia.
  - repeat constructor.
Qed.

Lemma deliveries_app (q : nat) (l : Z) (hs1 hs2 : list QueueHandler) :
  deliveries q l (hs1 ++ hs2) = (deliveries q l hs1 + deliveries q l hs2)%nat.
Proof. unfold deliveries. now rewrite List.filter_app, length_app. Qed.

Lemma deliveries_new (q : nat) (l : Z) (i : nat) :
  0 < l -> deliveries q l [mkQueueHandler i q logging.NOTSET] = 1%nat.
Proof.
  intros Hl. unfold deliveries, logging.NOTSET. simpl.
  rewrite Nat.eqb_refl. destruct (Z.leb_spec 0 l); [reflexivity | lia].
Qed.

Lemma emit_record_lookup (r : LogRecord) (w : Worker) (q : nat) :
  0 < levelno r -> root_logger_level w <= levelno r ->
  queues (emit_record r w) !! q =
  (fun l => l ++ replicate (deliveries q (levelno r) (root_logger_handlers w)) r)
    <$> queues w !! q.
Proof.
  intros Hpos Hlvl. unfold emit_record, isEnabledFor.
  destruct (Z.leb_spec (levelno r) 0); [lia |].
  destruct (Z.leb_spec (root_logger_level w) (levelno r)); [| lia].
  simpl. apply callHandlers_lookup.
Qed.

Example setup_worker_config_once :
  queues (emit_record a_warning
            (setup_worker_config 0 logging.DEBUG (fresh_worker {[0%nat := []]})))
    !! 0%nat = Some [a_warning].
Proof. vm_compute. reflexivity. Qed.

(** C2, as the specification words it, fails: after two calls with the
    same queue and level, one emitted record is on the queue twice. *)
Lemma setup_worker_config_twice_counterexample :
  queues (emit_record a_warning
            (setup_worker_config 0 logging.DEBUG
               (setup_worker_config 0 logging.DEBUG (fresh_worker {[0%nat := []]}))))
    !! 0%nat = Some [a_warning; a_warning] /\
  queues (emit_record a_warning
            (setup_worker_config 0 logging.DEBUG
               (setup_worker_config 0 logging.DEBUG (fresh_worker {[0%nat := []]}))))
    !! 0%nat <> Some [a_warning].
Proof. split; vm_compute; [reflexivity | discriminate]. Qed.

(** C2, amended: a second call with the same queue and filter level
    leaves the root logger's level as the first call set it, and attaches
    one more queue handler; a record emitted afterwards at or above the
    filter level is put on the queue once per call, so twice after two
    calls on a worker whose root logger fed the queue through no handler
    before. *)
Theorem setup_worker_config_twice (q : nat) (filter_level : Z) (w : Worker)
  (r : LogRecord) (old : list LogRecord) :
  worker_wf w -> queues w !! q = Some old ->
  0 < levelno r -> filter_level <= levelno r ->
  let n := deliveries q (levelno r) (root_logger_handlers w) in
  let w1 := setup_worker_config q filter_level w in
  let w2 := setup_worker_config q filter_level w1 in
  root_logger_level w2 = root_logger_level w1 /\
  length (root_logger_handlers w2) = S (length (root_logger_handlers w1)) /\
  queues (emit_record r w1) !! q = Some (old ++ replicate (n + 1) r) /\
  queues (emit_record r w2) !! q = Some (old ++ replicate (n + 2) r).
Proof.
  intros Hwf Hq Hpos Hlvl n w1 w2.
  destruct (setup_worker_config_handlers q filter_level w Hwf) as [E1 Hwf1].
  destruct (setup_worker_config_handlers q filter_level w1 Hwf1) as [E2 _].
  fold w1 in E1, E2. fold w2 in E2.
  assert (queues w1 = queues w) as Hq1 by now rewrite E1.
  assert (queues w2 = queues w) as Hq2 by now rewrite E2, Hq1.
  assert (root_logger_level w1 = filter_level) as Hl1 by now rewrite E1.
  assert (root_logger_level w2 = filter_level) as Hl2 by now rewrite E2.
  assert (root_logger_handlers w2 =
          root_logger_handlers w1 ++ [mkQueueHandler (next_object w1) q logging.NOTSET])
    as Hh2 by now rewrite E2.
  assert (root_logger_handlers w1 =
          root_logger_handlers w ++ [mkQueueHandler (next_object w) q logging.NOTSET])
    as Hh1 by now rewrite E1.
  split; [congruence |].
  split; [rewrite Hh2, length_app; simpl; lia |].
  split.
  - rewrite emit_record_lookup by lia.
    rewrite Hq1, Hq, Hh1, deliveries_app, deliveries_new by assumption.
    reflexivity.
  - rewrite emit_record_lookup by lia.
    rewrite Hq2, Hq, Hh2, Hh1, !deliveries_app, !deliveries_new by assumption.
    fold n. simpl. do 3 f_equal. lia.
Qed.

Lemma setup_worker_config_twice_witness :
  let w := fresh_worker {[0%nat := []]} in
  let w1 := setup_worker_config 0 logging.DEBUG w in
  let w2 := setup_worker_config 0 logging.DEBUG w1 in
  root_logger_level w2 = root_logger_level w1 /\
  length (root_logger_handlers w2) = S (length (root_logger_handlers w1)) /\
  queues (emit_record a_warning w1) !! 0%nat = Some ([] ++ replicate (0 + 1) a_warning) /\
  queues (emit_record a_warning w2) !! 0%nat = Some ([] ++ replicate (0 + 2) a_warning).
Proof.
  apply (setup_worker_config_twice 0 logging.DEBUG (fresh_worker {[0%nat := []]})
           a_warning []).
  - constructor.
  - reflexivity.
  - reflexivity.
  - vm_compute. discriminate.
Defined.

(** ** The listener *)

Lemma drain_items (late : list item) :
  drain (Item <$> late) = (LogWarning ∘ PastShutdown <$> late, [], None).
Proof.
  induction late as [|x late IH]; csimpl; [reflexivity |]. now rewrite IH.
Qed.

(** [drain] reports exactly the items it takes off the queue, and stops at
    the end of the queue or at the first failure of the transport. *)
Lemma drain_prefix (cs : list cell) :
  exists consumed,
    (drain cs).1.1 = (LogWarning ∘ PastShutdown <$> consumed) /\
    ((cs = (Item <$> consumed) /\ (drain cs).1.2 = [] /\ (drain cs).2 = None) \/
     (exists e, cs = (Item <$> consumed) ++ Fault e :: (drain cs).1.2 /\
                (drain cs).2 = (if is_Exception e
                                then match e with Empty => None | _ => Some e end
                                else Some e))).
Proof.
  induction cs as [|[x|e] cs IH].
  - exists []. split; [reflexivity |]. left. auto.
  - destruct IH as (consumed & Hevs & Hshape). exists (x :: consumed).
    simpl. destruct (drain cs) as [[evs rest] oe]. simpl in *.
    split; [now rewrite Hevs |].
    destruct Hshape as [(-> & -> & ->)|(e & -> & ->)]; [left; auto | right].
    exists e. auto.
  - exists []. split; [now destruct e |]. right. exists e. now destruct e.
Qed.

Lemma handed_app (tr1 tr2 : list event) : handed (tr1 ++ tr2) = handed tr1 ++ handed tr2.
Proof. apply omap_app. Qed.

Lemma handed_late (late : list item) : handed (LogWarning ∘ PastShutdown <$> late) = [].
Proof. induction late as [|x late IH]; [reflexivity | exact IH]. Qed.

Section ListenerFacts.

Variable handle_raises : LogRecord -> option exn.

Lemma handle_recoverable_item (x : item) (cs : list cell) (c j : bool)
  (evs : gmap nat bool) (tr : list event) (outer_exit_event : option nat) :
  recoverable handle_raises x ->
  handle_queued_log_record handle_raises outer_exit_event
    (mkState (mkQueue (Item x :: cs) c j) evs tr)
  = (Ok (Some x), mkState (mkQueue cs c j) evs (tr ++ record_events handle_raises x)).
Proof.
  intros [Hns Hrec]. unfold handle_queued_log_record, get. simpl. rewrite Hns.
  destruct x as [|r|o]; [discriminate | |].
  - unfold dispatch, record_events, observe, with_queue. simpl.
    destruct (handle_raises r) as [e|]; simpl in *.
    + rewrite Hrec. simpl. now rewrite <- app_assoc.
    + reflexivity.
  - reflexivity.
Qed.

(** The loop takes a run of recoverable items one per round and stays in
    the loop, whatever the events are. *)
Lemma run_periodic_items (xs : list item) (fuel : nat) (cs : list cell)
  (c j : bool) (evs : gmap nat bool) (tr : list event)
  (exit_event outer_exit_event o : option nat) :
  Forall (recoverable handle_raises) xs ->
  run_periodic (length xs + fuel) (handle_queued_log_record handle_raises o)
    exit_event outer_exit_event
    (mkState (mkQueue ((Item <$> xs) ++ cs) c j) evs tr)
  = run_periodic fuel (handle_queued_log_record handle_raises o)
      exit_event outer_exit_event
      (mkState (mkQueue cs c j) evs (tr ++ concat (record_events handle_raises <$> xs))).
Proof.
  intros Hall. revert tr.
  induction Hall as [|x xs Hx Hxs IH]; intros tr.
  - cbn [fmap list_fmap concat length Nat.add app]. now rewrite app_nil_r.
  - rewrite !fmap_cons, <- app_comm_cons.
    change (length (x :: xs) + fuel)%nat with (S (length xs + fuel)).
    cbn [run_periodic].
    rewrite handle_recoverable_item by assumption.
    rewrite IH. cbn [concat]. now rewrite <- app_assoc.
Qed.

(** The round that meets the sentinel, on a queue that hands out what it
    holds. *)
Lemma handle_sentinel (late : list item) (c j : bool) (evs : gmap nat bool)
  (tr : list event) (ev : nat) :
  handle_queued_log_record handle_raises (Some ev)
    (mkState (mkQueue (Item LOG_RECORD_SENTINEL :: (Item <$> late)) c j) evs tr)
  = (Ok None,
     mkState (mkQueue [] true true) (<[ev := true]> evs)
       (tr ++ [LogInfo ShuttingDown] ++ (LogWarning ∘ PastShutdown <$> late)
           ++ [LogInfo SystemShutDown; LoggingShutdown])).
Proof.
  unfold handle_queued_log_record, get, cleanup, observe, set_event, with_queue.
  simpl. rewrite drain_items. simpl. rewrite <- !app_assoc. reflexivity.
Qed.

Lemma handed_record_events (records : list LogRecord) :
  handed (concat (record_events handle_raises <$> (Rec <$> records)))
  = (fun r => (name r, r)) <$> records.
Proof.
  induction records as [|r records IH]; csimpl; [reflexivity |].
  rewrite handed_app, IH. unfold handed at 1. csimpl. f_equal.
  now destruct (handle_raises r).
Qed.

End ListenerFacts.

(** A round on an empty queue changes nothing, and a failure of the
    transport is logged and leaves the queue to the next round. *)
Example handle_queued_log_record_empty :
  handle_queued_log_record (fun _ => None) (Some 0%nat)
    (mkState (mkQueue [] false false) ∅ [])
  = (Ok None, mkState (mkQueue [] false false) ∅ []).
Proof. reflexivity. Qed.

Example handle_queued_log_record_transport_failure :
  handle_queued_log_record (fun _ => None) (Some 0%nat)
    (mkState (mkQueue [Fault OSError; Item (Rec a_warning)] false false) ∅ [])
  = (Ok None,
     mkState (mkQueue [Item (Rec a_warning)] false false) ∅
             [LogError (GettingFromQueue OSError); LogInfo ErrorDetails]).
Proof. reflexivity. Qed.

(** The whole run on a preloaded queue, with the state it ends in. *)
Lemma run_log_listener_final_state (handle_raises : LogRecord -> option exn)
  (records : list LogRecord) (exit_event : option nat) (c j : bool)
  (evs : gmap nat bool) (tr : list event) (fuel : nat) :
  Forall (fun r => from_option is_Exception true (handle_raises r) = true) records ->
  (length records + 1 <= fuel)%nat ->
  run_log_listener handle_raises fuel None exit_event
    (mkState (mkQueue ((Item ∘ Rec <$> records) ++ [Item LOG_RECORD_SENTINEL]) c j)
             evs tr)
  = Some (Ok tt,
          mkState (mkQueue [] true true) (<[fresh (dom evs) := true]> evs)
            (tr ++ [Configured; LogInfo StartingSystem]
                ++ concat (record_events handle_raises <$> (Rec <$> records))
                ++ [LogInfo ShuttingDown; LogInfo SystemShutDown; LoggingShutdown])).
Proof.
  intros Hrec Hfuel.
  set (outer := fresh (dom evs)).
  assert (exists k, fuel = (length (Rec <$> records) + S k)%nat) as [k ->].
  { exists (fuel - length records - 1)%nat. rewrite length_fmap. lia. }
  unfold run_log_listener, new_event, observe. cbn [events log_queue trace].
  fold outer. rewrite list_fmap_compose.
  rewrite run_periodic_items.
  - cbn [run_periodic].
    rewrite (handle_sentinel handle_raises [] c j).
    unfold is_set. cbn [events from_option].
    rewrite (bool_decide_eq_true_2 _ (lookup_insert_eq _ outer true)).
    rewrite orb_true_r, insert_insert_eq. cbn [fmap list_fmap app].
    rewrite <- !app_assoc. reflexivity.
  - apply Forall_fmap. eapply Forall_impl; [exact Hrec |].
    intros r Hr. split; [reflexivity | exact Hr].
Qed.

(** C3, as the specification words it, fails for the event that the
    caller can observe: the run delivers the records, stops and closes
    the queue, and the [exit_event] that was passed in is still unset. *)
Lemma run_log_listener_preloaded_counterexample :
  exists st',
    run_log_listener (fun _ => None) 3 None (Some 0%nat)
      (mkState (mkQueue ((Item ∘ Rec <$> two_records) ++ [Item LOG_RECORD_SENTINEL])
                        false false)
               {[0%nat := false]} [])
    = Some (Ok tt, st') /\
    handed (trace st') = (fun r => (name r, r)) <$> two_records /\
    log_queue st' = mkQueue [] true true /\
    is_set 0 st' = false.
Proof.
  eexists. split.
  - apply (run_log_listener_final_state (fun _ => None) two_records (Some 0%nat)
             false false {[0%nat := false]} [] 3).
    + repeat constructor.
    + vm_compute. lia.
  - split; [reflexivity |]. split; [reflexivity |]. vm_compute. reflexivity.
Qed.

(** C3, amended: on a queue holding the records R1..Rn and then the
    sentinel, the listener hands R1..Rn, in this order, each to the
    logger of its name, then shuts down and returns, whether or not the
    caller's [exit_event] was set beforehand.  The event that is set is
    the one the listener creates for itself and hands to
    [handle_queued_log_record], a new object; every event that existed
    before, the caller's [exit_event] among them, is as it was.  The
    queue is empty, closed and joined, and the last thing done is the
    shutdown of the logging system.  Any fuel of at least n + 1 rounds
    is enough. *)
Theorem run_log_listener_preloaded (handle_raises : LogRecord -> option exn)
  (records : list LogRecord) (exit_event : option nat) (c j : bool)
  (evs : gmap nat bool) (tr : list event) (fuel : nat) :
  Forall (fun r => from_option is_Exception true (handle_raises r) = true) records ->
  (length records + 1 <= fuel)%nat ->
  exists outer_exit_event st',
    run_log_listener handle_raises fuel None exit_event
      (mkState (mkQueue ((Item ∘ Rec <$> records) ++ [Item LOG_RECORD_SENTINEL]) c j)
               evs tr)
    = Some (Ok tt, st') /\
    handed (trace st') = handed tr ++ ((fun r => (name r, r)) <$> records) /\
    trace st' = tr ++ [Configured; LogInfo StartingSystem]
                   ++ concat (record_events handle_raises <$> (Rec <$> records))
                   ++ [LogInfo ShuttingDown; LogInfo SystemShutDown; LoggingShutdown] /\
    (outer_exit_event ∉ dom evs) /\
    events st' = <[outer_exit_event := true]> evs /\
    is_set outer_exit_event st' = true /\
    (forall ev, ev ∈ dom evs -> events st' !! ev = evs !! ev) /\
    log_queue st' = mkQueue [] true true.
Proof.
  intros Hrec Hfuel.
  eexists (fresh (dom evs)), _.
  split; [now apply run_log_listener_final_state |].
  cbn [trace events log_queue]. split.
  - rewrite !handed_app, handed_record_events. cbn. now rewrite app_nil_r.
  - split; [reflexivity |]. split; [apply is_fresh |]. split; [reflexivity |].
    split; [| split; [| reflexivity]].
    + unfold is_set. cbn [events]. apply bool_decide_eq_true, lookup_insert_eq.
    + intros ev Hev. apply lookup_insert_ne. intros Heq.
      apply (is_fresh (dom evs)). now rewrite Heq.
Qed.

Lemma run_log_listener_preloaded_witness :
  exists outer_exit_event st',
    run_log_listener (fun _ => None) 3 None (Some 0%nat)
      (mkState (mkQueue ((Item ∘ Rec <$> two_records) ++ [Item LOG_RECORD_SENTINEL])
                        false false)
               {[0%nat := true]} [])
    = Some (Ok tt, st') /\
    handed (trace st') = handed [] ++ ((fun r => (name r, r)) <$> two_records) /\
    trace st' = [] ++ [Configured; LogInfo StartingSystem]
                   ++ concat (record_events (fun _ => None) <$> (Rec <$> two_records))
                   ++ [LogInfo ShuttingDown; LogInfo SystemShutDown; LoggingShutdown] /\
    (outer_exit_event ∉ dom ({[0%nat := true]} : gmap nat bool)) /\
    events st' = <[outer_exit_event := true]> {[0%nat := true]} /\
    is_set outer_exit_event st' = true /\
    (forall ev, ev ∈ dom ({[0%nat := true]} : gmap nat bool) ->
                events st' !! ev = ({[0%nat := true]} : gmap nat bool) !! ev) /\
    log_queue st' = mkQueue [] true true.
Proof.
  apply (run_log_listener_preloaded (fun _ => None) two_records (Some 0%nat)
           false false {[0%nat := true]} [] 3).
  - repeat constructor.
  - vm_compute. lia.
Defined.

(** Without the sentinel the caller's event is what ends the run: the
    listener leaves the loop at the first round that finds the queue
    empty, and nothing is shut down. *)
Example run_log_listener_cancelled :
  run_log_listener (fun _ => None) 3 None (Some 0%nat)
    (mkState (mkQueue [Item (Rec a_warning)] false false) {[0%nat := true]} [])
  = Some (Ok tt,
          mkState (mkQueue [] false false) {[0%nat := true; 1%nat := false]}
                  [Configured; LogInfo StartingSystem;
                   Handed "brokkr.pipeline" a_warning]).
Proof. vm_compute. reflexivity. Qed.

Lemma cleanup_raises (st st' : State) (e : exn) :
  cleanup st = (Some e, st') -> is_Exception e = false.
Proof.
  unfold cleanup. destruct (drain (cells (log_queue st))) as [[evs rest] [e'|]].
  - destruct (is_Exception e') eqn:He; [discriminate | now intros [= <- _]].
  - discriminate.
Qed.

(** C4: every item taken off the queue after the sentinel is reported by
    a late-record warning of the listener's own logger and handed to no
    destination logger; on a queue that hands out what it holds, every
    item behind the sentinel is so reported and the queue ends empty and
    closed; and whatever the transport does, the queue is closed only
    after a [get] has raised [Empty]. *)
Theorem drain_reports_late_records (handle_raises : LogRecord -> option exn)
  (ev : nat) (c j : bool) (evs : gmap nat bool) (tr : list event) :
  (forall late,
     exists st',
       handle_queued_log_record handle_raises (Some ev)
         (mkState (mkQueue (Item LOG_RECORD_SENTINEL :: (Item <$> late)) c j) evs tr)
       = (Ok None, st') /\
       trace st' = tr ++ [LogInfo ShuttingDown]
                      ++ (LogWarning ∘ PastShutdown <$> late)
                      ++ [LogInfo SystemShutDown; LoggingShutdown] /\
       handed (trace st') = handed tr /\
       log_queue st' = mkQueue [] true true) /\
  (forall cs,
     exists out st' consumed tail,
       handle_queued_log_record handle_raises (Some ev)
         (mkState (mkQueue (Item LOG_RECORD_SENTINEL :: cs) c j) evs tr)
       = (out, st') /\
       cs = (Item <$> consumed) ++ drop (length consumed) cs /\
       trace st' = tr ++ [LogInfo ShuttingDown]
                      ++ (LogWarning ∘ PastShutdown <$> consumed) ++ tail /\
       handed (trace st') = handed tr /\
       (c = false -> closed (log_queue st') = true ->
        drop (length consumed) cs = [] \/
        exists cs', drop (length consumed) cs = Fault Empty :: cs')).
Proof.
  split.
  - intros late. eexists. rewrite handle_sentinel. split; [reflexivity |].
    cbn [trace log_queue]. split; [reflexivity |]. split; [| reflexivity].
    rewrite !handed_app, handed_late. cbn. now rewrite app_nil_r.
  - intros cs.
    destruct (drain_prefix cs) as (consumed & Hevs & Hshape).
    unfold handle_queued_log_record, get, cleanup, observe, set_event, with_queue.
    cbn [cells log_queue is_sentinel closed joined events trace].
    destruct (drain cs) as [[devs rest] oe]. cbn [fst snd] in Hevs, Hshape.
    subst devs.
    assert (forall (l : list cell), drop (length consumed) ((Item <$> consumed) ++ l) = l)
      as Hdrop.
    { intros l. rewrite drop_app_length'; [reflexivity | now rewrite length_fmap]. }
    assert (cs = (Item <$> consumed) ++ drop (length consumed) cs) as Hcs.
    { destruct Hshape as [(-> & _)|(e & -> & _)].
      - rewrite drop_ge by (rewrite length_fmap; lia). now rewrite app_nil_r.
      - now rewrite Hdrop. }
    destruct oe as [e|].
    + destruct (is_Exception e) eqn:He.
      * eexists _, _, consumed, _. split; [reflexivity |]. split; [exact Hcs |].
        cbn [trace log_queue closed]. rewrite <- !app_assoc.
        split; [reflexivity |].
        split; [rewrite !handed_app, handed_late; cbn; now rewrite app_nil_r |].
        intros -> Hclosed. discriminate.
      * eexists _, _, consumed, []. split; [reflexivity |]. split; [exact Hcs |].
        cbn [trace log_queue closed]. rewrite app_nil_r, <- !app_assoc.
        split; [reflexivity |].
        split; [rewrite !handed_app, handed_late; cbn; now rewrite app_nil_r |].
        intros -> Hclosed. discriminate.
    + eexists _, _, consumed, _. split; [reflexivity |]. split; [exact Hcs |].
      cbn [trace log_queue closed]. rewrite <- !app_assoc.
      split; [reflexivity |].
      split; [rewrite !handed_app, handed_late; cbn; now rewrite app_nil_r |].
      intros _ _.
      destruct Hshape as [(-> & _)|(e & -> & Hoe)].
      * left. apply drop_ge. rewrite length_fmap. lia.
      * right. rewrite Hdrop. exists rest. destruct e; try discriminate. reflexivity.
Qed.

Lemma drain_reports_late_records_witness :
  exists st',
    handle_queued_log_record (fun _ => None) (Some 0%nat)
      (mkState (mkQueue (Item LOG_RECORD_SENTINEL :: (Item <$> [Rec a_warning; Obj 7]))
                        false false) ∅ [])
    = (Ok None, st') /\
    trace st' = [] ++ [LogInfo ShuttingDown]
                   ++ (LogWarning ∘ PastShutdown <$> [Rec a_warning; Obj 7])
                   ++ [LogInfo SystemShutDown; LoggingShutdown] /\
    handed (trace st') = handed [] /\
    log_queue st' = mkQueue [] true true.
Proof.
  exact (proj1 (drain_reports_late_records (fun _ => None) 0 false false ∅ [])
               [Rec a_warning; Obj 7]).
Defined.

(** A transport that reports [Empty] while it still holds a record: the
    record is neither reported nor handed over, and the queue is closed. *)
Example drain_spurious_empty :
  handle_queued_log_record (fun _ => None) (Some 0%nat)
    (mkState (mkQueue [Item LOG_RECORD_SENTINEL; Fault Empty; Item (Rec a_warning)]
                      false false) ∅ [])
  = (Ok None,
     mkState (mkQueue [Item (Rec a_warning)] true true) {[0%nat := true]}
             [LogInfo ShuttingDown; LogInfo SystemShutDown; LoggingShutdown]).
Proof. vm_compute. reflexivity. Qed.

(** Three rounds of the loop over a recoverable item between two
    well-formed records. *)
Lemma run_periodic_three_items (handle_raises : LogRecord -> option exn)
  (r1 r2 : LogRecord) (bad : item) (cs : list cell) (c j : bool)
  (evs : gmap nat bool) (tr : list event) (fuel : nat)
  (exit_event outer_exit_event o : option nat) :
  well_formed handle_raises r1 -> well_formed handle_raises r2 ->
  recoverable handle_raises bad ->
  run_periodic (3 + fuel) (handle_queued_log_record handle_raises o)
    exit_event outer_exit_event
    (mkState (mkQueue (Item (Rec r1) :: Item bad :: Item (Rec r2) :: cs) c j) evs tr)
  = run_periodic fuel (handle_queued_log_record handle_raises o)
      exit_event outer_exit_event
      (mkState (mkQueue cs c j) evs
         (tr ++ [Handed (name r1) r1] ++ record_events handle_raises bad
             ++ [Handed (name r2) r2])).
Proof.
  intros H1 H2 Hbad.
  assert (Forall (recoverable handle_raises) [Rec r1; bad; Rec r2]) as Hall.
  { unfold well_formed in H1, H2.
    constructor; [split; [reflexivity | simpl; now rewrite H1] |].
    constructor; [exact Hbad |].
    constructor; [split; [reflexivity | simpl; now rewrite H2] | constructor]. }
  pose proof (run_periodic_items handle_raises [Rec r1; bad; Rec r2] fuel cs c j
                evs tr exit_event outer_exit_event o Hall) as Hrun.
  cbn [length fmap list_fmap app] in Hrun. rewrite Hrun. do 2 f_equal.
  unfold well_formed in H1, H2.
  cbn [concat fmap list_fmap record_events]. rewrite H1, H2.
  now rewrite app_nil_r.
Qed.

(** C5: when the dispatch of an item raises an [Exception], the listener
    catches it, writes a warning that names the failure and the item
    through its own logger, and returns normally with the queue advanced
    and no event set, so the loop goes on; and of three successive calls
    that meet a well-formed record, a malformed item and a well-formed
    record, the first and the third hand their record to its logger. *)
Theorem dispatch_failure_recovered (handle_raises : LogRecord -> option exn) :
  (forall x e cs c j evs tr o,
     is_sentinel x = false ->
     (dispatch handle_raises x (mkState (mkQueue cs c j) evs tr)).1 = Some e ->
     is_Exception e = true ->
     handle_queued_log_record handle_raises o
       (mkState (mkQueue (Item x :: cs) c j) evs tr)
     = (Ok (Some x),
        mkState (mkQueue cs c j) evs
          (trace (dispatch handle_raises x (mkState (mkQueue cs c j) evs tr)).2
             ++ [LogWarning (LoggingRecord e x); LogInfo ErrorInfo;
                 LogInfo (LogRecordInfo x)]))) /\
  (forall r1 bad r2 cs c j evs tr o,
     well_formed handle_raises r1 -> well_formed handle_raises r2 ->
     recoverable handle_raises bad ->
     let call := handle_queued_log_record handle_raises o in
     let s0 := mkState (mkQueue (Item (Rec r1) :: Item bad :: Item (Rec r2) :: cs) c j)
                       evs tr in
     let s1 := (call s0).2 in
     let s2 := (call s1).2 in
     (call s0).1 = Ok (Some (Rec r1)) /\
     (call s1).1 = Ok (Some bad) /\
     (call s2).1 = Ok (Some (Rec r2)) /\
     (call s2).2 = mkState (mkQueue cs c j) evs
                     (tr ++ [Handed (name r1) r1] ++ record_events handle_raises bad
                         ++ [Handed (name r2) r2])).
Proof.
  split.
  - intros x e cs c j evs tr o Hns Hd He.
    unfold handle_queued_log_record, get.
    cbn [cells log_queue closed joined events trace]. rewrite Hns.
    change (with_queue (mkQueue cs c j) (mkState (mkQueue (Item x :: cs) c j) evs tr))
      with (mkState (mkQueue cs c j) evs tr).
    destruct (dispatch handle_raises x (mkState (mkQueue cs c j) evs tr))
      as [oe st1] eqn:Hdisp.
    cbn [fst snd] in *. subst oe. rewrite He.
    assert (log_queue st1 = mkQueue cs c j /\ events st1 = evs) as [Hq Hev].
    { unfold dispatch in Hdisp. destruct x; injection Hdisp as _ <-; auto. }
    unfold observe. now rewrite Hq, Hev.
  - intros r1 bad r2 cs c j evs tr o H1 H2 Hbad call s0 s1 s2.
    assert (recoverable handle_raises (Rec r1)) as Hr1
      by (split; [reflexivity | simpl; now rewrite H1]).
    assert (recoverable handle_raises (Rec r2)) as Hr2
      by (split; [reflexivity | simpl; now rewrite H2]).
    subst s2 s1 s0 call.
    rewrite (handle_recoverable_item handle_raises (Rec r1)) by assumption.
    cbn [fst snd].
    rewrite (handle_recoverable_item handle_raises bad) by assumption.
    cbn [fst snd].
    rewrite (handle_recoverable_item handle_raises (Rec r2)) by assumption.
    cbn [fst snd]. repeat split.
    unfold well_formed in H1, H2. cbn [record_events]. rewrite H1, H2.
    now rewrite <- !app_assoc.
Qed.

Lemma dispatch_failure_recovered_witness :
  handle_queued_log_record raises_for_empty_name None
    (mkState (mkQueue [Item (Obj 7)] false false) ∅ [])
  = (Ok (Some (Obj 7)),
     mkState (mkQueue [] false false) ∅
       (trace (dispatch raises_for_empty_name (Obj 7)
                 (mkState (mkQueue [] false false) ∅ [])).2
          ++ [LogWarning (LoggingRecord AttributeError (Obj 7)); LogInfo ErrorInfo;
              LogInfo (LogRecordInfo (Obj 7))])) /\
  (let call := handle_queued_log_record raises_for_empty_name None in
   let s0 := mkState (mkQueue [Item (Rec a_warning); Item (Rec a_nameless);
                               Item (Rec a_warning)] false false) ∅ [] in
   let s1 := (call s0).2 in
   let s2 := (call s1).2 in
   (call s0).1 = Ok (Some (Rec a_warning)) /\
   (call s1).1 = Ok (Some (Rec a_nameless)) /\
   (call s2).1 = Ok (Some (Rec a_warning)) /\
   (call s2).2 = mkState (mkQueue [] false false) ∅
                   ([] ++ [Handed (name a_warning) a_warning]
                       ++ record_events raises_for_empty_name (Rec a_nameless)
                       ++ [Handed (name a_warning) a_warning])).
Proof.
  destruct (dispatch_failure_recovered raises_for_empty_name) as [Hone Hthree].
  split.
  - apply (Hone (Obj 7) AttributeError [] false false ∅ [] None); reflexivity.
  - apply (Hthree a_warning (Rec a_nameless) a_warning [] false false ∅ [] None);
      try reflexivity.
    split; reflexivity.
Defined.

Example three_items_trace :
  (run_periodic 5 (handle_queued_log_record raises_for_empty_name (Some 0%nat))
     None (Some 0%nat)
     (mkState (mkQueue [Item (Rec a_warning); Item (Obj 7); Item (Rec a_warning);
                        Item LOG_RECORD_SENTINEL] false false) ∅ []))
  = Some (Ok tt,
          mkState (mkQueue [] true true) {[0%nat := true]}
            [Handed "brokkr.pipeline" a_warning;
             LogWarning (LoggingRecord AttributeError (Obj 7)); LogInfo ErrorInfo;
             LogInfo (LogRecordInfo (Obj 7));
             Handed "brokkr.pipeline" a_warning;
             LogInfo ShuttingDown; LogInfo SystemShutDown; LoggingShutdown]).
Proof. vm_compute. reflexivity. Qed.

Lemma handle_queued_log_record_not_StopIteration
  (handle_raises : LogRecord -> option exn) (o : option nat) (st : State) :
  (handle_queued_log_record handle_raises o st).1 <> Raise StopIteration.
Proof.
  unfold handle_queued_log_record, get.
  destruct (cells (log_queue st)) as [|[x|e] cs]; [discriminate | |].
  - destruct (is_sentinel x).
    + destruct o as [ev|]; [| discriminate].
      match goal with
      | |- context [cleanup ?s] => destruct (cleanup s) as [[e|] st1] eqn:Hc
      end; [| discriminate].
      apply cleanup_raises in Hc. cbn [fst]. intros [= ->]. discriminate.
    + match goal with
      | |- context [dispatch ?h ?y ?s] => destruct (dispatch h y s) as [[e|] st1]
      end; [| discriminate].
      destruct (is_Exception e) eqn:He; [discriminate |].
      cbn [fst]. intros [= ->]. discriminate.
  - destruct e; cbn; discriminate.
Qed.

(** C10: when the sentinel is taken off the queue while
    [outer_exit_event] is [None], the call raises [AttributeError] at
    [outer_exit_event.set()], before anything is logged, drained or
    closed; hence no call raises [StopIteration], on any input: the
    branch under [if outer_exit_event is None] is never reached. *)
Theorem sentinel_without_exit_event :
  (forall handle_raises cs c j evs tr,
     handle_queued_log_record handle_raises None
       (mkState (mkQueue (Item LOG_RECORD_SENTINEL :: cs) c j) evs tr)
     = (Raise AttributeError, mkState (mkQueue cs c j) evs tr)) /\
  (forall handle_raises o st,
     (handle_queued_log_record handle_raises o st).1 <> Raise StopIteration).
Proof.
  split.
  - reflexivity.
  - exact handle_queued_log_record_not_StopIteration.
Qed.

(** * Further properties of the code *)

(** ** Severity mapper and basic logging *)

Lemma clamp_range (v : Z) : MIN_VERBOSE <= clamp v <= MAX_VERBOSE.
Proof. unfold clamp, MIN_VERBOSE, MAX_VERBOSE. lia. Qed.

Lemma clamp_mono (v w : Z) : v <= w -> clamp v <= clamp w.
Proof. unfold clamp. lia. Qed.

(** The threshold is below [DEBUG] exactly from a verbosity of 3 on. *)
Lemma determine_log_level_below_debug (v l : Z) :
  determine_log_level v = Some l ->
  (logging.DEBUG <=? l) = (v <=? 2).
Proof.
  rewrite determine_log_level_clamp. intros [= <-].
  unfold level_of_clamped, clamp, MIN_VERBOSE, MAX_VERBOSE, logging.DEBUG.
  repeat match goal with
         | |- context [?a =? ?b] => destruct (Z.eqb_spec a b)
         end;
    destruct (Z.leb_spec v 2); try reflexivity; lia.
Qed.

(** X1: for every integer verbosity the lookup in [LOG_LEVEL] succeeds, the
    threshold lies between 2 and 99, and over all integers a larger
    verbosity never gives a larger threshold. *)
Theorem determine_log_level_total_antitone (v w : Z) :
  v <= w ->
  exists a b,
    determine_log_level v = Some a /\ determine_log_level w = Some b /\
    2 <= b /\ b <= a /\ a <= 99.
Proof.
  intros Hvw. exists (level_of_clamped (clamp v)), (level_of_clamped (clamp w)).
  rewrite !determine_log_level_clamp.
  pose proof (level_of_clamped_bounds (clamp v)).
  pose proof (level_of_clamped_bounds (clamp w)).
  pose proof (clamp_range v). pose proof (clamp_range w).
  pose proof (clamp_mono v w Hvw).
  repeat split; try lia.
  apply level_of_clamped_antitone; lia.
Qed.

Lemma determine_log_level_total_antitone_witness :
  exists a b,
    determine_log_level (-40) = Some a /\ determine_log_level 1 = Some b /\
    2 <= b /\ b <= a /\ a <= 99.
Proof. apply (determine_log_level_total_antitone (-40) 1). lia. Defined.

(** X2: on a root logger without handlers, [setup_basic_logging] gives
    the threshold of the net verbosity [verbose - quiet] to exactly one
    logger: to the root logger in script mode or from a net verbosity of
    3 on, and to the package logger otherwise; the other one keeps its
    level.  The one handler added has the basic format in script mode up
    to a net verbosity of 2, and the fancy format otherwise. *)
Theorem setup_basic_logging_unconfigured (verbose quiet : Z) (script_mode : bool)
  (lg : BasicLogging) :
  basic_root_formats lg = [] ->
  exists level lg',
    determine_log_level (verbose - quiet) = Some level /\
    setup_basic_logging (Some verbose) (Some quiet) script_mode lg = Some lg' /\
    basic_root_formats lg' =
      [if script_mode && (verbose - quiet <=? 2)
       then LOG_FORMAT_BASIC else LOG_FORMAT_FANCY] /\
    (if script_mode || (3 <=? verbose - quiet)
     then basic_root_level lg' = level /\
          basic_package_level lg' = basic_package_level lg
     else basic_root_level lg' = basic_root_level lg /\
          basic_package_level lg' = level).
Proof.
  intros Hroot. set (net := verbose - quiet).
  exists (level_of_clamped (clamp net)).
  pose proof (determine_log_level_clamp net) as Hlevel.
  pose proof (determine_log_level_below_debug net _ Hlevel) as Hdebug.
  unfold setup_basic_logging. cbn [from_option id]. fold net. rewrite Hlevel.
  cbn [mbind option_bind]. unfold basicConfig. rewrite Hroot.
  rewrite Hdebug.
  assert ((level_of_clamped (clamp net) <? logging.DEBUG) = (3 <=? net)) as ->.
  { rewrite Z.ltb_antisym, Hdebug.
    destruct (Z.leb_spec net 2), (Z.leb_spec 3 net); try reflexivity; lia. }
  eexists. split; [reflexivity |]. split; [reflexivity |].
  destruct script_mode; cbn [andb orb negb].
  - split; [reflexivity |]. split; reflexivity.
  - destruct (Z.leb_spec net 2), (Z.leb_spec 3 net); try lia;
      cbn [basic_root_formats basic_root_level basic_package_level from_option id];
      repeat split.
Qed.

Lemma setup_basic_logging_unconfigured_witness :
  exists level lg',
    determine_log_level (1 - 0) = Some level /\
    setup_basic_logging (Some 1) (Some 0) false
      (mkBasicLogging logging.WARNING [] logging.NOTSET) = Some lg' /\
    basic_root_formats lg' =
      [if false && (1 - 0 <=? 2) then LOG_FORMAT_BASIC else LOG_FORMAT_FANCY] /\
    (if false || (3 <=? 1 - 0)
     then basic_root_level lg' = level /\
          basic_package_level lg' = logging.NOTSET
     else basic_root_level lg' = logging.WARNING /\
          basic_package_level lg' = level).
Proof.
  apply (setup_basic_logging_unconfigured 1 0 false
           (mkBasicLogging logging.WARNING [] logging.NOTSET)).
  reflexivity.
Defined.

(** X3: when the root logger has a handler already, [setup_basic_logging]
    adds no handler and leaves the root level alone; in script mode the
    call changes nothing at all, so the verbosity asked for is not
    applied. *)
Theorem setup_basic_logging_configured (verbose quiet : option Z)
  (script_mode : bool) (lg : BasicLogging) :
  basic_root_formats lg <> [] ->
  exists lg',
    setup_basic_logging verbose quiet script_mode lg = Some lg' /\
    basic_root_formats lg' = basic_root_formats lg /\
    basic_root_level lg' = basic_root_level lg /\
    (script_mode = true -> lg' = lg).
Proof.
  intros Hroot. unfold setup_basic_logging.
  rewrite determine_log_level_clamp. cbn [mbind option_bind].
  unfold basicConfig. destruct lg as [rl [|f fs] pl]; [contradiction |].
  cbn [basic_root_formats basic_root_level].
  eexists. split; [reflexivity |].
  destruct script_mode; cbn [negb andb].
  - repeat split.
  - destruct (logging.DEBUG <=? _); repeat split; discriminate.
Qed.

Lemma setup_basic_logging_configured_witness :
  exists lg',
    setup_basic_logging (Some 3) None true
      (mkBasicLogging logging.WARNING [LOG_FORMAT_FANCY] logging.NOTSET) = Some lg' /\
    basic_root_formats lg' = [LOG_FORMAT_FANCY] /\
    basic_root_level lg' = logging.WARNING /\
    (true = true ->
     lg' = mkBasicLogging logging.WARNING [LOG_FORMAT_FANCY] logging.NOTSET).
Proof.
  apply (setup_basic_logging_configured (Some 3) None true
           (mkBasicLogging logging.WARNING [LOG_FORMAT_FANCY] logging.NOTSET)).
  discriminate.
Defined.

(** ** Error details *)

Example capitalize_name : capitalize "pipeLine_step" = "Pipeline_step"%string.
Proof. reflexivity. Qed.



Example log_details_logger_instance :
  log_details (LoggerInstance "brokkr.pipeline") ErrorNone
    [("step"%string, WithDict "{'n': 1}"); ("queue"%string, NoDict);
     ("rest"%string, WithDict "{}")]
  = (Raise AttributeError,
     [(logging_info, ErrorDetailsTraceback);
      (logging_info, ObjectDetails "Step" "{'n': 1}")]).
Proof. reflexivity. Qed.

(** ** Level overrides *)

Lemma set_handler_level_id (k : string) (l : Level)
  (hs : list (string * Handler)) (h : Handler) :
  lookup_handler k hs = Some h -> h_level h = l -> set_handler_level k l hs = hs.
Proof.
  induction hs as [|[k' h'] hs IH]; simpl; [reflexivity |].
  destruct (String.eqb k' k).
  - intros [= ->] <-. now destruct h.
  - intros Hl Hlevel. now rewrite IH.
Qed.

Lemma filenames_set_handler_level (k : string) (l : Level)
  (hs : list (string * Handler)) :
  (fun kh => h_filename kh.2) <$> set_handler_level k l hs
  = (fun kh => h_filename kh.2) <$> hs.
Proof.
  induction hs as [|[k0 h0] hs IH]; csimpl; [reflexivity |].
  destruct (String.eqb k0 k); csimpl; [reflexivity | now f_equal].
Qed.

(** What a successful round of the loop did. *)
Lemma apply_level_inv (k : string) (l : Level) (cfg cfg' : Config) :
  apply_level k l cfg = Ok cfg' ->
  root_level cfg' = root_level cfg /\
  (if truthy l
   then is_Some (lookup_handler k (handlers cfg)) /\
        handlers cfg' = set_handler_level k l (handlers cfg) /\
        root_handlers cfg' =
          (if bool_decide (k ∈ root_handlers cfg)
           then root_handlers cfg else root_handlers cfg ++ [k])
   else cfg' = cfg).
Proof.
  unfold apply_level. destruct (truthy l).
  - destruct (lookup_handler k (handlers cfg)) as [h|]; [| discriminate].
    intros [= <-]. simpl. eauto.
  - intros [= <-]. auto.
Qed.

(** A round that finds its work done changes nothing. *)
Lemma apply_level_fixed (k : string) (l : Level) (cfg : Config) :
  (truthy l = true ->
   (exists h, lookup_handler k (handlers cfg) = Some h /\ h_level h = l) /\
   k ∈ root_handlers cfg) ->
  apply_level k l cfg = Ok cfg.
Proof.
  unfold apply_level. destruct (truthy l); [| reflexivity].
  intros H. destruct (H eq_refl) as [(h & Hh & Hl) Hin].
  rewrite Hh, (set_handler_level_id k l _ h Hh Hl), bool_decide_eq_true_2 by assumption.
  now destruct cfg.
Qed.

Lemma apply_level_done (k : string) (l : Level) (cfg cfg' : Config) :
  apply_level k l cfg = Ok cfg' -> truthy l = true ->
  (exists h, lookup_handler k (handlers cfg') = Some h /\ h_level h = l) /\
  k ∈ root_handlers cfg'.
Proof.
  intros H Ht. apply apply_level_inv in H as [_ H]. rewrite Ht in H.
  destruct H as ([h Hh] & -> & ->). split.
  - exists (mkHandler l (h_filename h)).
    split; [apply lookup_set_handler_level_eq; exact Hh | reflexivity].
  - case_bool_decide; [assumption |].
    apply elem_of_app. right. apply list_elem_of_here.
Qed.

Lemma apply_level_keeps (k k' : string) (l l' : Level) (cfg cfg' : Config) :
  apply_level k l cfg = Ok cfg' -> k <> k' ->
  (exists h, lookup_handler k' (handlers cfg) = Some h /\ h_level h = l') /\
  k' ∈ root_handlers cfg ->
  (exists h, lookup_handler k' (handlers cfg') = Some h /\ h_level h = l') /\
  k' ∈ root_handlers cfg'.
Proof.
  intros H Hne [Hh Hin]. apply apply_level_inv in H as [_ H].
  destruct (truthy l); [| now subst].
  destruct H as (_ & -> & ->). split.
  - now rewrite lookup_set_handler_level_ne.
  - case_bool_decide; [assumption |]. apply elem_of_app. now left.
Qed.

Lemma level_numbers_app_inv (ls1 ls2 : list Level) (ns : list Z) :
  level_numbers (ls1 ++ ls2) = Ok ns ->
  exists ns1 ns2,
    level_numbers ls1 = Ok ns1 /\ level_numbers ls2 = Ok ns2 /\ ns = ns1 ++ ns2.
Proof.
  revert ns. induction ls1 as [|l ls1 IH]; intros ns; simpl.
  - intros H. exists [], ns. auto.
  - destruct (level_number l) as [n|e]; simpl; [| discriminate].
    destruct (level_numbers (ls1 ++ ls2)) as [ns'|e] eqn:E; simpl; [| discriminate].
    intros [= <-]. destruct (IH ns' eq_refl) as (ns1 & ns2 & -> & -> & ->).
    simpl. eauto.
Qed.

Lemma py_min_minimum (ns : list Z) (m : Z) : py_min ns = Ok m -> is_minimum m ns.
Proof.
  intros H. destruct ns as [|n ns]; [discriminate |].
  destruct (py_min_is_minimum (n :: ns)) as (m' & Hm' & Hmin); [discriminate |].
  congruence.
Qed.

Lemma is_minimum_unique (m m' : Z) (ns : list Z) :
  is_minimum m ns -> is_minimum m' ns -> m = m'.
Proof.
  intros [Hin Hle] [Hin' Hle']. rewrite Forall_forall in Hle, Hle'.
  specialize (Hle _ Hin'). specialize (Hle' _ Hin). lia.
Qed.

Lemma setup_log_levels_inv (cfg cfg' : Config) (fl cl : Level) :
  setup_log_levels cfg fl cl = Ok cfg' ->
  exists cfg1 cfg2 ns m,
    apply_level "file" (upper_level fl) cfg = Ok cfg1 /\
    apply_level "console" (upper_level cl) cfg1 = Ok cfg2 /\
    level_numbers (List.filter tocheck
                     ([upper_level fl; upper_level cl] ++ [root_level cfg2])) = Ok ns /\
    py_min ns = Ok m /\
    cfg' = mkConfig (handlers cfg2) (LInt m) (root_handlers cfg2).
Proof.
  unfold setup_log_levels.
  destruct (apply_level "file" (upper_level fl) cfg) as [cfg1|e] eqn:H1;
    [| discriminate].
  cbn [mbind result_bind].
  destruct (apply_level "console" (upper_level cl) cfg1) as [cfg2|e] eqn:H2;
    [| discriminate].
  cbn [mbind result_bind app].
  destruct (level_numbers _) as [ns|e] eqn:Hns; [| discriminate].
  cbn [mbind result_bind].
  destruct (py_min ns) as [m|e] eqn:Hm; [| discriminate].
  cbn [mbind result_bind]. intros [= <-].
  exists cfg1, cfg2, ns, m.
  repeat split; first [assumption | reflexivity | exact Hns].
Qed.

(** X5: [setup_log_levels] is idempotent: run again with the same
    overrides on the configuration it returned, it returns that
    configuration unchanged. *)
Theorem setup_log_levels_idempotent (cfg cfg' : Config) (file_level console_level : Level) :
  setup_log_levels cfg file_level console_level = Ok cfg' ->
  setup_log_levels cfg' file_level console_level = Ok cfg'.
Proof.
  intros H.
  destruct (setup_log_levels_inv _ _ _ _ H) as (cfg1 & cfg2 & ns & m & H1 & H2 & Hns & Hm & ->).
  set (fl := upper_level file_level) in *. set (cl := upper_level console_level) in *.
  set (cfg' := mkConfig (handlers cfg2) (LInt m) (root_handlers cfg2)).
  assert (apply_level "file" fl cfg' = Ok cfg') as Hf.
  { apply apply_level_fixed. intros Ht. cbn [handlers root_handlers cfg'].
    apply (apply_level_keeps "console" "file" cl fl cfg1 cfg2 H2); [discriminate |].
    now apply (apply_level_done "file" fl cfg cfg1). }
  assert (apply_level "console" cl cfg' = Ok cfg') as Hc.
  { apply apply_level_fixed. intros Ht. cbn [handlers root_handlers cfg'].
    now apply (apply_level_done "console" cl cfg1 cfg2). }
  unfold setup_log_levels. fold fl cl. rewrite Hf. cbn [mbind result_bind].
  rewrite Hc. cbn [mbind result_bind].
  rewrite List.filter_app in Hns.
  apply level_numbers_app_inv in Hns as (ns1 & ns2 & Hns1 & Hns2 & ->).
  change [fl; cl; root_level cfg'] with ([fl; cl] ++ [LInt m]).
  rewrite List.filter_app.
  assert (List.filter tocheck [LInt m] = [LInt m]) as ->.
  { cbn. unfold tocheck. simpl. now destruct (m =? 0). }
  rewrite (level_numbers_app (List.filter tocheck [fl; cl]) [LInt m] ns1 [m] Hns1 eq_refl).
  cbn [mbind result_bind].
  pose proof (py_min_minimum _ _ Hm) as [Hin Hle].
  destruct (py_min_is_minimum (ns1 ++ [m])) as (m' & Hm' & Hmin').
  { destruct ns1; discriminate. }
  rewrite Hm'. cbn [mbind result_bind].
  assert (m' = m) as ->; [| reflexivity].
  apply (is_minimum_unique m' m (ns1 ++ [m])); [exact Hmin' |].
  split; [apply elem_of_app; right; apply list_elem_of_here |].
  apply Forall_app. split; [| repeat constructor; lia].
  apply Forall_app in Hle as [Hle _]. exact Hle.
Qed.

Lemma setup_log_levels_idempotent_witness :
  setup_log_levels
    (mkConfig [("console", mkHandler (LStr "INFO") FNone);
               ("file", mkHandler (LStr "DEBUG") (FStr "run.log"))]%string
              (LInt 10) ["console"; "file"]%string)
    (LStr "debug") LNone
  = Ok (mkConfig [("console", mkHandler (LStr "INFO") FNone);
                  ("file", mkHandler (LStr "DEBUG") (FStr "run.log"))]%string
                 (LInt 10) ["console"; "file"]%string).
Proof.
  apply (setup_log_levels_idempotent scenario_config _ (LStr "debug") LNone).
  vm_compute. reflexivity.
Defined.

Lemma apply_level_handlers_frame (k : string) (l : Level) (cfg cfg' : Config) :
  apply_level k l cfg = Ok cfg' ->
  (handlers cfg').*1 = (handlers cfg).*1 /\
  (fun kh => h_filename kh.2) <$> handlers cfg'
    = (fun kh => h_filename kh.2) <$> handlers cfg /\
  (forall k', k <> k' ->
     lookup_handler k' (handlers cfg') = lookup_handler k' (handlers cfg)) /\
  root_handlers cfg `prefix_of` root_handlers cfg' /\
  (NoDup (root_handlers cfg) -> NoDup (root_handlers cfg')).
Proof.
  intros H. apply apply_level_inv in H as [_ H].
  destruct (truthy l); [| subst; repeat split; auto].
  destruct H as (_ & -> & ->).
  split; [apply fst_set_handler_level |].
  split; [apply filenames_set_handler_level |].
  split; [intros k' Hne; now apply lookup_set_handler_level_ne |].
  case_bool_decide as Hin; [split; auto |].
  split; [now apply prefix_app_r |].
  intros Hnd. apply NoDup_app. repeat split; [exact Hnd | | apply NoDup_singleton].
  intros x Hx Hx'. apply list_elem_of_singleton in Hx'. now subst.
Qed.

(** X6: what [setup_log_levels] leaves alone: the handlers keep their
    names, their order and their filenames; a handler other than "file"
    and "console" keeps its level; the active handlers it found stay in
    front, in their order, and the list gains no duplicate. *)
Theorem setup_log_levels_frame (cfg cfg' : Config) (file_level console_level : Level) :
  setup_log_levels cfg file_level console_level = Ok cfg' ->
  (handlers cfg').*1 = (handlers cfg).*1 /\
  (fun kh => h_filename kh.2) <$> handlers cfg'
    = (fun kh => h_filename kh.2) <$> handlers cfg /\
  (forall k, k <> "file"%string -> k <> "console"%string ->
     lookup_handler k (handlers cfg') = lookup_handler k (handlers cfg)) /\
  root_handlers cfg `prefix_of` root_handlers cfg' /\
  (NoDup (root_handlers cfg) -> NoDup (root_handlers cfg')).
Proof.
  intros H.
  destruct (setup_log_levels_inv _ _ _ _ H) as (cfg1 & cfg2 & ns & m & H1 & H2 & _ & _ & ->).
  destruct (apply_level_handlers_frame _ _ _ _ H1) as (Hn1 & Hf1 & Ho1 & Hp1 & Hd1).
  destruct (apply_level_handlers_frame _ _ _ _ H2) as (Hn2 & Hf2 & Ho2 & Hp2 & Hd2).
  cbn [handlers root_handlers].
  split; [congruence |]. split; [congruence |].
  split; [intros k Hf Hc; rewrite Ho2, Ho1 by congruence; reflexivity |].
  split; [etrans; eassumption | auto].
Qed.

Lemma setup_log_levels_frame_witness :
  (handlers (mkConfig [("console", mkHandler (LStr "INFO") FNone);
                       ("file", mkHandler (LStr "DEBUG") (FStr "run.log"))]%string
                      (LInt 10) ["console"; "file"]%string)).*1
    = (handlers scenario_config).*1 /\
  (fun kh => h_filename kh.2) <$>
    handlers (mkConfig [("console", mkHandler (LStr "INFO") FNone);
                        ("file", mkHandler (LStr "DEBUG") (FStr "run.log"))]%string
                       (LInt 10) ["console"; "file"]%string)
    = (fun kh => h_filename kh.2) <$> handlers scenario_config /\
  (forall k, k <> "file"%string -> k <> "console"%string ->
     lookup_handler k
       (handlers (mkConfig [("console", mkHandler (LStr "INFO") FNone);
                            ("file", mkHandler (LStr "DEBUG") (FStr "run.log"))]%string
                           (LInt 10) ["console"; "file"]%string))
     = lookup_handler k (handlers scenario_config)) /\
  root_handlers scenario_config `prefix_of` ["console"; "file"]%string /\
  (NoDup (root_handlers scenario_config) -> NoDup ["console"; "file"]%string).
Proof.
  apply (setup_log_levels_frame scenario_config
           (mkConfig [("console", mkHandler (LStr "INFO") FNone);
                      ("file", mkHandler (LStr "DEBUG") (FStr "run.log"))]%string
                     (LInt 10) ["console"; "file"]%string)
           (LStr "debug") LNone).
  vm_compute. reflexivity.
Defined.

Lemma upper_ascii_idemp (c : ascii) : upper_ascii (upper_ascii c) = upper_ascii c.
Proof. destruct c as [[] [] [] [] [] [] [] []]; reflexivity. Qed.

Lemma upper_idemp (s : string) : upper (upper s) = upper s.
Proof.
  induction s as [|c s IH]; simpl; [reflexivity |].
  now rewrite upper_ascii_idemp, IH.
Qed.

Lemma upper_level_idemp (l : Level) : upper_level (upper_level l) = upper_level l.
Proof. destruct l; simpl; [reflexivity | reflexivity |]. now rewrite upper_idemp. Qed.

(** X7: the overrides are read without regard to case: an override gives
    the same result, success or failure, as its upper-case spelling. *)
Theorem setup_log_levels_case_insensitive (cfg : Config)
  (file_level console_level : Level) :
  setup_log_levels cfg (upper_level file_level) (upper_level console_level)
  = setup_log_levels cfg file_level console_level.
Proof. unfold setup_log_levels. now rewrite !upper_level_idemp. Qed.

Example setup_log_levels_mixed_case :
  setup_log_levels scenario_config (LStr "Debug") (LStr "error")
  = setup_log_levels scenario_config (LStr "DEBUG") (LStr "ERROR").
Proof. vm_compute. reflexivity. Qed.

(** X8: an override for a handler that the configuration does not define
    is a [KeyError] naming the handler: "file" first, and "console" when
    the file override is absent or its handler is there. *)
Theorem setup_log_levels_missing_handler_error (cfg : Config)
  (file_level console_level : Level) :
  (truthy file_level = true -> lookup_handler "file" (handlers cfg) = None ->
   setup_log_levels cfg file_level console_level = Raise (KeyError "file")) /\
  (truthy file_level = false \/ is_Some (lookup_handler "file" (handlers cfg)) ->
   truthy console_level = true -> lookup_handler "console" (handlers cfg) = None ->
   setup_log_levels cfg file_level console_level = Raise (KeyError "console")).
Proof.
  split.
  - intros Ht Hnone. unfold setup_log_levels, apply_level. cbv zeta.
    now rewrite (truthy_upper_level file_level), Ht, Hnone.
  - intros Hfile Ht Hnone. unfold setup_log_levels. cbv zeta.
    destruct (apply_level "file" (upper_level file_level) cfg) as [cfg1|e] eqn:H1.
    + cbn [mbind result_bind]. unfold apply_level at 1.
      rewrite (truthy_upper_level console_level), Ht.
      destruct (apply_level_handlers_frame _ _ _ _ H1) as (_ & _ & Hother & _).
      rewrite Hother by discriminate. now rewrite Hnone.
    + exfalso. destruct (apply_level_defined "file" (upper_level file_level) cfg)
        as [cfg1 Hok]; [| congruence].
      rewrite truthy_upper_level. intros Ht'.
      destruct Hfile as [Hf|Hf]; [congruence | exact Hf].
Qed.

Lemma setup_log_levels_missing_handler_error_witness :
  setup_log_levels (mkConfig [("file", mkHandler LNone FNone)]%string (LInt 30) [])
    (LStr "info") (LInt 10) = Raise (KeyError "console").
Proof.
  apply (proj2 (setup_log_levels_missing_handler_error
                  (mkConfig [("file", mkHandler LNone FNone)]%string (LInt 30) [])
                  (LStr "info") (LInt 10))).
  - right. eexists. reflexivity.
  - reflexivity.
  - reflexivity.
Defined.

(** X9: when neither override is given ([None] or the empty string) and
    the root level is [None] or empty as well, nothing is left to take the
    minimum of, and the call is a [ValueError]. *)
Theorem setup_log_levels_nothing_to_check (cfg : Config)
  (file_level console_level : Level) :
  file_level = LNone \/ file_level = LStr EmptyString ->
  console_level = LNone \/ console_level = LStr EmptyString ->
  root_level cfg = LNone \/ root_level cfg = LStr EmptyString ->
  setup_log_levels cfg file_level console_level = Raise ValueError.
Proof.
  intros Hf Hc Hr. unfold setup_log_levels. cbv zeta.
  assert (forall l, l = LNone \/ l = LStr EmptyString ->
                    truthy (upper_level l) = false /\ tocheck (upper_level l) = false)
    as Hfalsy by (intros l [->| ->]; split; reflexivity).
  destruct (Hfalsy _ Hf) as [Htf Hcf]. destruct (Hfalsy _ Hc) as [Htc Hcc].
  rewrite (apply_level_falsy _ _ _ Htf). cbn [mbind result_bind].
  rewrite (apply_level_falsy _ _ _ Htc). cbn [mbind result_bind List.filter].
  rewrite Hcf, Hcc.
  assert (tocheck (root_level cfg) = false) as -> by (destruct Hr as [->| ->]; reflexivity).
  reflexivity.
Qed.

Lemma setup_log_levels_nothing_to_check_witness :
  setup_log_levels (mkConfig [] LNone []) LNone (LStr EmptyString) = Raise ValueError.
Proof.
  apply (setup_log_levels_nothing_to_check (mkConfig [] LNone []) LNone
           (LStr EmptyString)); auto.
Defined.

(** ** File paths and the whole rendering *)

Lemma setup_handler_path_grows (convert_path : string -> Path) (disk : Disk)
  (output_path : option Path) (args : gmap string string) (h : Handler) (fs : FS) :
  fs ⊆ (setup_handler_path convert_path disk output_path args h fs).2.
Proof.
  unfold setup_handler_path.
  destruct (filename_truthy (h_filename h)); [| reflexivity].
  destruct (h_filename h) as [|t|p]; try reflexivity.
  destruct (resolve_filename convert_path output_path args t) as [q|]; [| reflexivity].
  pose proof (makedirs_grows disk (parent q) fs) as Hg.
  destruct (makedirs disk (parent q) fs) as [[u|e] fs1]; exact Hg.
Qed.

Lemma setup_handlers_paths_grows (convert_path : string -> Path) (disk : Disk)
  (output_path : option Path) (args : gmap string string)
  (hs : list (string * Handler)) (fs : FS) :
  fs ⊆ (setup_handlers_paths convert_path disk output_path args hs fs).2.
Proof.
  revert fs. induction hs as [|[k h] hs IH]; intros fs; simpl; [reflexivity |].
  pose proof (setup_handler_path_grows convert_path disk output_path args h fs) as H1.
  destruct (setup_handler_path convert_path disk output_path args h fs) as [[h'|e] fs1];
    [| exact H1].
  pose proof (IH fs1) as H2.
  destruct (setup_handlers_paths convert_path disk output_path args hs fs1) as [[hs'|e] fs2];
    cbn [snd] in *; etrans; eassumption.
Qed.

Lemma setup_handlers_paths_no_filename (convert_path : string -> Path) (disk : Disk)
  (output_path : option Path) (args : gmap string string)
  (hs : list (string * Handler)) (fs : FS) :
  Forall (fun kh => filename_truthy (h_filename kh.2) = false) hs ->
  setup_handlers_paths convert_path disk output_path args hs fs = (Ok hs, fs).
Proof.
  induction 1 as [|[k h] hs Hh Hhs IH]; simpl; [reflexivity |].
  unfold setup_handler_path. simpl in Hh. now rewrite Hh, IH.
Qed.

(** X10: [setup_log_handler_paths] only ever adds directories, whether it
    returns or raises; and a configuration in which no handler has a
    filename comes back as it is, with nothing created. *)
Theorem setup_log_handler_paths_frame (convert_path : string -> Path) (disk : Disk)
  (cfg : Config) (output_path : option Path) (args : gmap string string) (fs : FS) :
  fs ⊆ (setup_log_handler_paths convert_path disk cfg output_path args fs).2 /\
  (Forall (fun kh => filename_truthy (h_filename kh.2) = false) (handlers cfg) ->
   setup_log_handler_paths convert_path disk cfg output_path args fs = (Ok cfg, fs)).
Proof.
  unfold setup_log_handler_paths. split.
  - pose proof (setup_handlers_paths_grows convert_path disk output_path args
                  (handlers cfg) fs) as H.
    now destruct (setup_handlers_paths _ _ _ _ _) as [[hs|e] fs1].
  - intros Hall. rewrite setup_handlers_paths_no_filename by assumption.
    now destruct cfg.
Qed.

Lemma setup_log_handler_paths_frame_witness :
  ∅ ⊆ (setup_log_handler_paths posix_path free_disk scenario_config None ∅ ∅).2 /\
  setup_log_handler_paths posix_path free_disk
    (mkConfig [("console", mkHandler (LStr "INFO") FNone);
               ("null", mkHandler LNone (FStr EmptyString))]%string
              (LStr "WARNING") ["console"%string])
    (Some var_log_agent) ∅ ∅
  = (Ok (mkConfig [("console", mkHandler (LStr "INFO") FNone);
                   ("null", mkHandler LNone (FStr EmptyString))]%string
                  (LStr "WARNING") ["console"%string]), ∅).
Proof.
  split.
  - apply (setup_log_handler_paths_frame posix_path free_disk scenario_config None ∅ ∅).
  - apply (setup_log_handler_paths_frame posix_path free_disk _ (Some var_log_agent) ∅ ∅).
    repeat constructor.
Defined.

(** After a successful run every filename that was set is a path object. *)
Lemma setup_handlers_paths_rendered (convert_path : string -> Path) (disk : Disk)
  (output_path : option Path) (args : gmap string string)
  (hs hs' : list (string * Handler)) (fs fs' : FS) :
  setup_handlers_paths convert_path disk output_path args hs fs = (Ok hs', fs') ->
  Forall2 (fun kh kh' =>
             if filename_truthy (h_filename kh.2)
             then exists p, h_filename kh'.2 = FPath p
             else h_filename kh'.2 = h_filename kh.2) hs hs'.
Proof.
  revert hs' fs. induction hs as [|[k h] hs IH]; intros hs' fs; simpl.
  - intros [= <- _]. constructor.
  - destruct (setup_handler_path convert_path disk output_path args h fs)
      as [[h1|e] fs1] eqn:E1; [| discriminate].
    destruct (setup_handlers_paths convert_path disk output_path args hs fs1)
      as [[hs1|e] fs2] eqn:E2; [| discriminate].
    intros [= <- <-]. constructor; [| eapply IH; eassumption]. simpl.
    unfold setup_handler_path in E1.
    destruct (h_filename h) as [|t|p] eqn:Hf; cbn [filename_truthy] in *.
    + injection E1 as <- _. exact Hf.
    + destruct (negb (String.eqb t EmptyString)).
      * destruct (resolve_filename convert_path output_path args t) as [q|];
          [| discriminate].
        destruct (makedirs disk (parent q) fs) as [[u|e'] fs0]; [| discriminate].
        injection E1 as <- _. simpl. eauto.
      * injection E1 as <- _. exact Hf.
    + discriminate.
Qed.

Lemma setup_handlers_paths_on_rendered (convert_path : string -> Path) (disk : Disk)
  (output_path : option Path) (args : gmap string string)
  (hs : list (string * Handler)) (fs : FS) :
  Forall (fun kh => filename_truthy (h_filename kh.2) = false \/
                    exists p, h_filename kh.2 = FPath p) hs ->
  Exists (fun kh => exists p, h_filename kh.2 = FPath p) hs ->
  setup_handlers_paths convert_path disk output_path args hs fs = (Raise AttributeError, fs).
Proof.
  induction 1 as [|[k h] hs Hh Hhs IH]; intros Hex; [now apply Exists_nil in Hex |].
  simpl in *. unfold setup_handler_path.
  destruct Hh as [Hfalsy|[p Hp]].
  - rewrite Hfalsy. rewrite IH; [reflexivity |].
    apply Exists_cons in Hex as [[p Hp]|Hex]; [| exact Hex].
    simpl in Hp. rewrite Hp in Hfalsy. discriminate.
  - now rewrite Hp.
Qed.

(** X11: [setup_log_handler_paths] cannot be run on its own result: if
    the configuration had a handler with a filename, the returned
    configuration holds a path object there, and any further run on it
    is an [AttributeError] that creates nothing. *)
Theorem setup_log_handler_paths_not_reentrant (convert_path : string -> Path)
  (disk : Disk) (cfg cfg' : Config) (output_path : option Path) (args : gmap string string)
  (fs fs' : FS) :
  setup_log_handler_paths convert_path disk cfg output_path args fs = (Ok cfg', fs') ->
  Exists (fun kh => filename_truthy (h_filename kh.2) = true) (handlers cfg) ->
  forall convert_path' disk' output_path' args' fs0,
    setup_log_handler_paths convert_path' disk' cfg' output_path' args' fs0
    = (Raise AttributeError, fs0).
Proof.
  unfold setup_log_handler_paths at 1.
  destruct (setup_handlers_paths convert_path disk output_path args (handlers cfg) fs)
    as [[hs'|e] fs1] eqn:E; [| discriminate].
  intros [= <- <-] Hex cp' disk' out' args' fs0.
  apply setup_handlers_paths_rendered in E.
  unfold setup_log_handler_paths. cbn [handlers].
  rewrite setup_handlers_paths_on_rendered; [reflexivity | |].
  - clear Hex. induction E as [|kh kh' hs hs' Hkh _ IH]; constructor; [| exact IH].
    destruct (filename_truthy (h_filename kh.2)) eqn:Ht; [right; exact Hkh |].
    left. now rewrite Hkh.
  - induction E as [|kh kh' hs hs' Hkh _ IH]; [now apply Exists_nil in Hex |].
    apply Exists_cons in Hex as [Ht|Hex].
    + apply Exists_cons_hd. now rewrite Ht in Hkh.
    + apply Exists_cons_tl. now apply IH.
Qed.

Lemma setup_log_handler_paths_not_reentrant_witness :
  setup_log_handler_paths posix_path free_disk
    (mkConfig
       [("console", mkHandler (LStr "INFO") FNone);
        ("file", mkHandler (LStr "INFO") (FPath (posix_path "/var/log/agent/run.log")));
        ("tmp", mkHandler (LStr "DEBUG") (FPath (posix_path "/tmp/x.log")))]%string
       (LStr "WARNING") ["console"%string])
    None ∅ ∅
  = (Raise AttributeError, ∅).
Proof.
  apply (setup_log_handler_paths_not_reentrant posix_path free_disk scenario_paths _
           (Some var_log_agent) ∅ ∅ _ setup_log_handler_paths_scenario).
  apply Exists_cons_tl, Exists_cons_hd. reflexivity.
Defined.




(** X13: in [render_full_log_config] the directories are those of path
    resolution, whatever the level overrides and even when merging the
    levels fails afterwards; with an override that counts, the result is
    [setup_log_levels] applied to the path-resolved configuration; and a
    returned configuration has the handler names and the resolved
    filenames of path resolution. *)
Theorem render_full_log_config_composition (convert_path : string -> Path) (disk : Disk)
  (cfg : Config) (log_level_file log_level_console : Level)
  (output_path : option Path) (args : gmap string string) (fs : FS) :
  let rendered := render_full_log_config convert_path disk cfg log_level_file
                    log_level_console output_path args fs in
  let resolved := setup_log_handler_paths convert_path disk cfg output_path args fs in
  rendered.2 = resolved.2 /\
  (forall cfg1,
     resolved.1 = Ok cfg1 ->
     truthy log_level_file || truthy log_level_console = true ->
     rendered.1 = setup_log_levels cfg1 log_level_file log_level_console) /\
  (forall cfg',
     rendered.1 = Ok cfg' ->
     exists cfg1,
       resolved.1 = Ok cfg1 /\
       (handlers cfg').*1 = (handlers cfg1).*1 /\
       (fun kh => h_filename kh.2) <$> handlers cfg'
         = (fun kh => h_filename kh.2) <$> handlers cfg1).
Proof.
  intros rendered resolved. subst rendered resolved.
  unfold render_full_log_config, deepcopy.
  destruct (setup_log_handler_paths convert_path disk cfg output_path args fs)
    as [[cfg1|e] fs1]; cbn [fst snd].
  - destruct (truthy log_level_file || truthy log_level_console) eqn:Ht; cbn [fst snd].
    + split; [reflexivity |]. split; [now intros ? [= <-] _ |].
      intros cfg' Hok. exists cfg1. split; [reflexivity |].
      destruct (setup_log_levels_frame _ _ _ _ Hok) as (Hn & Hf & _). auto.
    + split; [reflexivity |]. split; [intros ? _ ?; discriminate |].
      intros cfg' [= <-]. eauto.
  - split; [reflexivity |]. split; [intros ? ?; discriminate |].
    intros cfg' ?. discriminate.
Qed.

Lemma render_full_log_config_composition_witness :
  let rendered := render_full_log_config posix_path free_disk scenario_paths (LStr "debug")
                    LNone (Some var_log_agent) ∅ ∅ in
  let resolved := setup_log_handler_paths posix_path free_disk scenario_paths
                    (Some var_log_agent) ∅ ∅ in
  rendered.2 = resolved.2 /\
  rendered.1 =
    setup_log_levels
      (mkConfig
         [("console", mkHandler (LStr "INFO") FNone);
          ("file", mkHandler (LStr "INFO") (FPath (posix_path "/var/log/agent/run.log")));
          ("tmp", mkHandler (LStr "DEBUG") (FPath (posix_path "/tmp/x.log")))]%string
         (LStr "WARNING") ["console"%string])
      (LStr "debug") LNone.
Proof.
  destruct (render_full_log_config_composition posix_path free_disk scenario_paths
              (LStr "debug") LNone (Some var_log_agent) ∅ ∅) as (Hfs & Hcomp & _).
  split; [exact Hfs |].
  apply Hcomp; [| reflexivity].
  now rewrite setup_log_handler_paths_scenario.
Defined.

(** The levels cannot be merged, after the paths have been resolved. *)
Example render_full_log_config_late_failure :
  (render_full_log_config posix_path free_disk
     (mkConfig [("file", mkHandler (LStr "INFO") (FStr "run.log"))]%string
               (LStr "WARNING") [])
     LNone (LStr "DEBUG") (Some var_log_agent) ∅ ∅).1
  = Raise (KeyError "console").
Proof. reflexivity. Qed.

(** ** Worker-side filter *)

Lemma emit_record_from_lookup (levels : list Z) (r : LogRecord) (w : Worker)
  (q : nat) :
  0 < levelno r -> getEffectiveLevel levels w <= levelno r ->
  queues (emit_record_from levels r w) !! q =
  (fun l => l ++ replicate (deliveries q (levelno r) (root_logger_handlers w)) r)
    <$> queues w !! q.
Proof.
  intros Hpos Hlvl. unfold emit_record_from.
  destruct (Z.leb_spec (levelno r) 0); [lia |].
  destruct (Z.leb_spec (getEffectiveLevel levels w) (levelno r)); [| lia].
  simpl. apply callHandlers_lookup.
Qed.

Lemma getEffectiveLevel_NOTSET (levels : list Z) (w : Worker) :
  Forall (fun l => l = logging.NOTSET) levels ->
  getEffectiveLevel levels w = root_logger_level w.
Proof.
  unfold getEffectiveLevel. induction 1 as [|l levels -> _ IH]; [reflexivity |].
  exact IH.
Qed.

(** X14: [setup_worker_config] touches no queue and makes the filter
    level the level of the root logger.  That level filters what is
    emitted through the root logger, or through a logger below it when
    neither that logger nor an ancestor has a level of its own: a record
    below the filter level, or at a level of 0 or less, is dropped and
    reaches no queue.  It does not filter a logger that has a level of
    its own: a record that reaches that level is put on the queue by the
    new handler, also when it is below the filter level. *)
Theorem setup_worker_config_filters (q : nat) (filter_level : Z) (w : Worker)
  (r : LogRecord) (levels : list Z) :
  let w' := setup_worker_config q filter_level w in
  queues w' = queues w /\
  root_logger_level w' = filter_level /\
  emit_record_from [] r w' = emit_record r w' /\
  (Forall (fun l => l = logging.NOTSET) levels ->
   levelno r < filter_level \/ levelno r <= 0 ->
   emit_record_from levels r w' = w') /\
  (forall level old,
     worker_wf w -> queues w !! q = Some old ->
     level <> logging.NOTSET -> 0 < levelno r -> level <= levelno r ->
     queues (emit_record_from (level :: levels) r w') !! q
     = Some (old ++ replicate
                      (S (deliveries q (levelno r) (root_logger_handlers w))) r)).
Proof.
  intros w'.
  assert (queues w' = queues w /\ root_logger_level w' = filter_level) as [Hq Hl].
  { subst w'. unfold setup_worker_config, new_QueueHandler, addHandler, setLevel.
    simpl. case_bool_decide; auto. }
  split; [exact Hq |]. split; [exact Hl |]. split; [reflexivity |]. split.
  - intros Hnone Hlow. unfold emit_record_from.
    rewrite getEffectiveLevel_NOTSET by exact Hnone. rewrite Hl.
    destruct (Z.leb_spec (levelno r) 0); [reflexivity |].
    destruct (Z.leb_spec filter_level (levelno r)); [lia | reflexivity].
  - intros level old Hwf Hold Hlevel Hpos Hreach.
    assert (getEffectiveLevel (level :: levels) w' = level) as Heff.
    { unfold getEffectiveLevel. cbn [List.filter].
      destruct (Z.eqb_spec level logging.NOTSET); [contradiction | reflexivity]. }
    rewrite emit_record_from_lookup by (rewrite ?Heff; assumption).
    rewrite Hq, Hold. subst w'.
    destruct (setup_worker_config_handlers q filter_level w Hwf) as [-> _].
    cbn [root_logger_handlers fmap option_fmap option_map].
    rewrite deliveries_app, deliveries_new by assumption.
    do 3 f_equal. lia.
Qed.

Lemma setup_worker_config_filters_witness :
  let w' := setup_worker_config 0 logging.ERROR (fresh_worker {[0%nat := []]}) in
  queues w' = {[0%nat := []]} /\
  root_logger_level w' = logging.ERROR /\
  emit_record_from [logging.NOTSET] a_warning w' = w' /\
  queues (emit_record_from [logging.DEBUG] a_warning w') !! 0%nat
  = Some ([] ++ replicate (S (deliveries 0 (levelno a_warning) [])) a_warning).
Proof.
  destruct (setup_worker_config_filters 0 logging.ERROR
              (fresh_worker {[0%nat := []]}) a_warning [logging.NOTSET])
    as (Hq & Hl & _ & Hdrop & _).
  destruct (setup_worker_config_filters 0 logging.ERROR
              (fresh_worker {[0%nat := []]}) a_warning [])
    as (_ & _ & _ & _ & Hpass).
  split; [exact Hq |]. split; [exact Hl |]. split.
  - apply Hdrop; [repeat constructor | left; reflexivity].
  - apply (Hpass logging.DEBUG []).
    + constructor.
    + reflexivity.
    + discriminate.
    + reflexivity.
    + vm_compute. discriminate.
Defined.

(** ** Rounds of the listener *)

(** X15: a round that does not meet the sentinel sets no event and
    neither closes nor joins the queue; it takes what is at the head of
    the queue and nothing more; and it hands a record over exactly when
    the head is a log record, whether or not the destination then
    raises. *)
Theorem running_round_invariant (handle_raises : LogRecord -> option exn)
  (outer_exit_event : option nat) (st : State) :
  match cells (log_queue st) with
  | Item x :: _ => is_sentinel x = false
  | _ => True
  end ->
  let st' := (handle_queued_log_record handle_raises outer_exit_event st).2 in
  events st' = events st /\
  closed (log_queue st') = closed (log_queue st) /\
  joined (log_queue st') = joined (log_queue st) /\
  cells (log_queue st') = tail (cells (log_queue st)) /\
  handed (trace st') =
    handed (trace st) ++ match cells (log_queue st) with
                         | Item (Rec r) :: _ => [(name r, r)]
                         | _ => []
                         end.
Proof.
  intros Hhead st'. subst st'. unfold handle_queued_log_record, get.
  destruct st as [[cs c j] evs tr]. cbn [log_queue cells closed joined] in *.
  destruct cs as [|[x|e] cs].
  - cbn -[handed]. now rewrite app_nil_r.
  - rewrite Hhead. destruct x as [|r|o]; [discriminate | |].
    + unfold dispatch, observe, with_queue. cbn [log_queue events trace].
      destruct (handle_raises r) as [e|].
      * destruct (is_Exception e);
          cbn [snd log_queue events trace cells closed joined tail];
          repeat split; now rewrite !handed_app, ?app_nil_r.
      * cbn [snd log_queue events trace cells closed joined tail].
        repeat split. now rewrite handed_app.
    + cbn -[handed]. repeat split. now rewrite handed_app.
  - destruct e; cbn -[handed]; repeat split; rewrite ?handed_app;
      try reflexivity; now rewrite app_nil_r.
Qed.

Lemma running_round_invariant_witness :
  let st := mkState (mkQueue [Item (Rec a_nameless); Item LOG_RECORD_SENTINEL]
                             false false) {[0%nat := false]} [] in
  let st' := (handle_queued_log_record raises_for_empty_name (Some 0%nat) st).2 in
  events st' = events st /\
  closed (log_queue st') = closed (log_queue st) /\
  joined (log_queue st') = joined (log_queue st) /\
  cells (log_queue st') = tail (cells (log_queue st)) /\
  handed (trace st') = handed (trace st) ++ [(name a_nameless, a_nameless)].
Proof.
  apply (running_round_invariant raises_for_empty_name (Some 0%nat)
           (mkState (mkQueue [Item (Rec a_nameless); Item LOG_RECORD_SENTINEL]
                             false false) {[0%nat := false]} [])).
  reflexivity.
Defined.

Lemma drain_until_fault (late : list item) (e : exn) (rest : list cell) :
  drain ((Item <$> late) ++ Fault e :: rest)
  = (LogWarning ∘ PastShutdown <$> late, rest,
     match e with Empty => None | _ => Some e end).
Proof.
  induction late as [|x late IH]; csimpl.
  - now destruct e.
  - now rewrite IH.
Qed.

(** X16: the round that meets the sentinel sets the exit event, and
    writes the shutdown line, before it looks at the rest of the queue:
    both hold however the draining ends, also when an exception leaves
    the call. *)
Theorem sentinel_sets_event_first (handle_raises : LogRecord -> option exn)
  (ev : nat) (cs : list cell) (c j : bool) (evs : gmap nat bool) (tr : list event) :
  let st' := (handle_queued_log_record handle_raises (Some ev)
                (mkState (mkQueue (Item LOG_RECORD_SENTINEL :: cs) c j) evs tr)).2 in
  events st' = <[ev := true]> evs /\
  is_set ev st' = true /\
  exists rest, trace st' = tr ++ LogInfo ShuttingDown :: rest.
Proof.
  intros st'. subst st'.
  unfold handle_queued_log_record, get, cleanup, observe, set_event, with_queue.
  cbn [cells log_queue is_sentinel closed joined events trace].
  assert (forall st : State, events st = <[ev := true]> evs -> is_set ev st = true)
    as Hset.
  { intros st Hst. unfold is_set. rewrite Hst.
    apply bool_decide_eq_true, lookup_insert_eq. }
  destruct (drain cs) as [[devs rest] [e|]].
  - destruct (is_Exception e); cbn [snd events trace];
      (split; [reflexivity |]); (split; [now apply Hset |]);
      rewrite <- ?app_assoc; eexists; reflexivity.
  - cbn [snd events trace]. split; [reflexivity |]. split; [now apply Hset |].
    rewrite <- !app_assoc. eexists. reflexivity.
Qed.

(** X17: a failure of the transport while the queue is drained, other
    than [Empty], ends the draining: the items found before it have been
    reported, the queue is left unclosed with what lies behind the
    failure.  If the failure is an [Exception] it is logged and the
    shutdown still completes; otherwise it leaves the call, and the
    logging system is not shut down. *)
Theorem drain_transport_failure (handle_raises : LogRecord -> option exn)
  (ev : nat) (late : list item) (e : exn) (rest : list cell) (c j : bool)
  (evs : gmap nat bool) (tr : list event) :
  e <> Empty ->
  handle_queued_log_record handle_raises (Some ev)
    (mkState (mkQueue (Item LOG_RECORD_SENTINEL :: (Item <$> late) ++ Fault e :: rest)
                      c j) evs tr)
  = if is_Exception e
    then (Ok None,
          mkState (mkQueue rest c j) (<[ev := true]> evs)
            (tr ++ [LogInfo ShuttingDown] ++ (LogWarning ∘ PastShutdown <$> late)
                ++ [LogError (CleaningUp e); LogInfo ErrorInfo;
                    LogInfo SystemShutDown; LoggingShutdown]))
    else (Raise e,
          mkState (mkQueue rest c j) (<[ev := true]> evs)
            (tr ++ [LogInfo ShuttingDown] ++ (LogWarning ∘ PastShutdown <$> late))).
Proof.
  intros Hne.
  unfold handle_queued_log_record, get, cleanup, observe, set_event, with_queue.
  cbn [cells log_queue is_sentinel closed joined events trace].
  rewrite drain_until_fault.
  destruct e; try contradiction; cbn [is_Exception log_queue events trace closed joined];
    rewrite <- ?app_assoc; reflexivity.
Qed.

Lemma drain_transport_failure_witness :
  handle_queued_log_record (fun _ => None) (Some 0%nat)
    (mkState (mkQueue (Item LOG_RECORD_SENTINEL
                         :: (Item <$> [Rec a_warning]) ++ Fault OSError :: [Item (Obj 7)])
                      false false) ∅ [])
  = if is_Exception OSError
    then (Ok None,
          mkState (mkQueue [Item (Obj 7)] false false) (<[0%nat := true]> ∅)
            ([] ++ [LogInfo ShuttingDown]
                ++ (LogWarning ∘ PastShutdown <$> [Rec a_warning])
                ++ [LogError (CleaningUp OSError); LogInfo ErrorInfo;
                    LogInfo SystemShutDown; LoggingShutdown]))
    else (Raise OSError,
          mkState (mkQueue [Item (Obj 7)] false false) (<[0%nat := true]> ∅)
            ([] ++ [LogInfo ShuttingDown]
                ++ (LogWarning ∘ PastShutdown <$> [Rec a_warning]))).
Proof.
  apply (drain_transport_failure (fun _ => None) 0 [Rec a_warning] OSError
           [Item (Obj 7)] false false ∅ []).
  discriminate.
Defined.

(** X18: with an exit event supplied, no [Exception] leaves
    [handle_queued_log_record]: whatever the queue holds or the transport
    and the destinations raise, the call returns, or lets pass an
    exception that is no [Exception] ([KeyboardInterrupt],
    [SystemExit]). *)
Theorem no_Exception_escapes (handle_raises : LogRecord -> option exn)
  (ev : nat) (st : State) (e : exn) :
  (handle_queued_log_record handle_raises (Some ev) st).1 = Raise e ->
  is_Exception e = false.
Proof.
  unfold handle_queued_log_record, get.
  destruct (cells (log_queue st)) as [|[x|e'] cs]; [discriminate | |].
  - destruct (is_sentinel x).
    + match goal with
      | |- context [cleanup ?s] => destruct (cleanup s) as [[e'|] st1] eqn:Hc
      end; [| discriminate].
      apply cleanup_raises in Hc. cbn [fst]. now intros [= <-].
    + match goal with
      | |- context [dispatch ?h ?y ?s] => destruct (dispatch h y s) as [[e'|] st1]
      end; [| discriminate].
      destruct (is_Exception e') eqn:He; [discriminate |].
      cbn [fst]. now intros [= <-].
  - destruct e'; cbn; try discriminate; now intros [= <-].
Qed.

Lemma no_Exception_escapes_witness :
  is_Exception KeyboardInterrupt = false.
Proof.
  apply (no_Exception_escapes (fun _ => Some KeyboardInterrupt) 0
           (mkState (mkQueue [Item (Rec a_warning)] false false) ∅ [])
           KeyboardInterrupt).
  reflexivity.
Defined.

(** ** Sunsaver: the conversions *)

Example stored_name_lo : stored_name "ahc_r_lo" = "ahc_r"%string.
Proof. reflexivity. Qed.

Example stored_name_capital : stored_name "alarm_Lo_daily" = "alarm_Lo_daily"%string.
Proof. reflexivity. Qed.

Example format_b_negative : zfill 16 (format_b (-5)) = "-000000000000101"%string.
Proof. reflexivity. Qed.

Lemma bits_of_pos_leading (p : positive) (tail : string) :
  exists rest, bits_of_pos p tail = String "1" rest.
Proof.
  revert tail. induction p as [p IH|p IH|]; intros tail; simpl; eauto.
Qed.

Lemma bits_of_pos_length (p : positive) (tail : string) :
  String.length (bits_of_pos p tail) = (Pos.size_nat p + String.length tail)%nat.
Proof.
  revert tail. induction p as [p IH|p IH|]; intros tail; simpl;
    rewrite ?IH; simpl; lia.
Qed.

Lemma bits_of_pos_value (p : positive) (tail : string) (acc : Z) :
  binary_value_from (bits_of_pos p tail) acc
  = binary_value_from tail (acc * 2 ^ Z.of_nat (Pos.size_nat p) + Z.pos p).
Proof.
  revert tail acc. induction p as [p IH|p IH|]; intros tail acc.
  - cbn [bits_of_pos Pos.size_nat]. rewrite IH. cbn [binary_value_from].
    f_equal. rewrite Nat2Z.inj_succ, Z.pow_succ_r by lia. lia.
  - cbn [bits_of_pos Pos.size_nat]. rewrite IH. cbn [binary_value_from].
    f_equal. rewrite Nat2Z.inj_succ, Z.pow_succ_r by lia. lia.
  - cbn [bits_of_pos Pos.size_nat binary_value_from]. f_equal. lia.
Qed.

Lemma size_nat_bound (p : positive) (w : nat) :
  Z.pos p < 2 ^ Z.of_nat w -> (Pos.size_nat p <= w)%nat.
Proof.
  revert w. induction p as [p IH|p IH|]; intros w Hp; simpl.
  - destruct w as [|w]; [simpl in Hp; lia |].
    rewrite Nat2Z.inj_succ, Z.pow_succ_r in Hp by lia.
    specialize (IH w). lia.
  - destruct w as [|w]; [simpl in Hp; lia |].
    rewrite Nat2Z.inj_succ, Z.pow_succ_r in Hp by lia.
    specialize (IH w). lia.
  - destruct w as [|w]; [simpl in Hp; lia | lia].
Qed.

Lemma zeros_length (n : nat) : String.length (zeros n) = n.
Proof. induction n as [|n IH]; simpl; [reflexivity | now rewrite IH]. Qed.

Lemma zeros_value (n : nat) (s : string) :
  binary_value_from (zeros n +:+ s) 0 = binary_value_from s 0.
Proof. induction n as [|n IH]; [reflexivity | exact IH]. Qed.

(** The bit field of a number that fits the width: as long as the width,
    and writing the number. *)
Lemma zfill_format_b (w : nat) (n : Z) :
  0 <= n < 2 ^ Z.of_nat w -> (0 < w)%nat ->
  String.length (zfill w (format_b n)) = w /\
  binary_value (zfill w (format_b n)) = Some n.
Proof.
  intros [Hlo Hhi] Hw. destruct n as [|p|p]; [| | lia].
  - unfold format_b, zfill, binary_value. cbn [String.length].
    change (String "0" EmptyString) with (zeros 1).
    split.
    + rewrite length_append, !zeros_length. lia.
    + now rewrite zeros_value.
  - unfold format_b, zfill, binary_value.
    destruct (bits_of_pos_leading p EmptyString) as [rest Hrest].
    pose proof (bits_of_pos_length p EmptyString) as Hlen.
    pose proof (bits_of_pos_value p EmptyString 0) as Hval.
    pose proof (size_nat_bound p w Hhi) as Hsize.
    rewrite Hrest in *. cbn [String.length] in Hlen. split.
    + rewrite length_append, zeros_length. cbn [String.length]. simpl in Hlen. lia.
    + rewrite zeros_value, Hval. cbn [binary_value_from]. f_equal.
Qed.

(** The two registers of a pair, shifted and or-ed, add up. *)
Lemma combine_hi_lo (hi lo : Z) :
  is_register lo -> Z.lor (Z.shiftl hi 16) lo = hi * 65536 + lo.
Proof.
  intros [Hlo Hhi]. rewrite <- Z.add_nocarry_lor.
  - now rewrite Z.shiftl_mul_pow2 by lia.
  - apply Z.bits_inj'. intros i Hi. rewrite Z.land_spec, Z.bits_0.
    destruct (Z.lt_ge_cases i 16) as [Hsmall|Hbig].
    + now rewrite Z.shiftl_spec_low.
    + rewrite (Z.bits_above_log2 lo i); [apply andb_false_r | lia |].
      destruct (Z.eq_dec lo 0) as [->|Hnz]; [simpl; lia |].
      apply Z.log2_lt_pow2; [lia |].
      apply Z.lt_le_trans with (2 ^ 16); [simpl; lia |].
      apply Z.pow_le_mono_r; lia.
Qed.

(** X19: the bit-field conversions round-trip on registers.  "B" gives a
    string of exactly 16 binary digits that writes the register; "BL"
    gives one of exactly 32 digits that writes [hi * 65536 + lo]; and the
    integer conversion "hL" of a pair is [hi * 65536 + lo]. *)
Theorem bit_field_round_trip (hi lo : Z) :
  is_register hi -> is_register lo ->
  (exists s, convert1 "B" lo = Converted (Some (VStr s)) /\
             String.length s = 16%nat /\ binary_value s = Some lo) /\
  (exists s, convert2 "BL" hi lo = Converted (Some (VStr s)) /\
             String.length s = 32%nat /\ binary_value s = Some (hi * 65536 + lo)) /\
  convert2 "hL" hi lo = Converted (Some (VInt (hi * 65536 + lo))).
Proof.
  intros Hhi Hlo. pose proof (combine_hi_lo hi lo Hlo) as Hboth.
  unfold is_register in *. split; [| split].
  - eexists. split; [reflexivity |].
    apply (zfill_format_b 16 lo); [simpl; lia | lia].
  - eexists. split; [reflexivity |]. cbv zeta. rewrite Hboth.
    apply (zfill_format_b 32 (hi * 65536 + lo)); [simpl; lia | lia].
  - unfold convert2. cbv zeta. rewrite Hboth. reflexivity.
Qed.

Lemma bit_field_round_trip_witness :
  (exists s, convert1 "B" 5 = Converted (Some (VStr s)) /\
             String.length s = 16%nat /\ binary_value s = Some 5) /\
  (exists s, convert2 "BL" 1 5 = Converted (Some (VStr s)) /\
             String.length s = 32%nat /\ binary_value s = Some (1 * 65536 + 5)) /\
  convert2 "hL" 1 5 = Converted (Some (VInt (1 * 65536 + 5))).
Proof.
  apply (bit_field_round_trip 1 5); unfold is_register; lia.
Defined.

(** ** Sunsaver: decoding *)

Lemma float_range_register (r : Z) : is_register r -> float_range r = true.
Proof.
  unfold is_register, float_range. intros Hr. apply Z.ltb_lt.
  assert (65536 < 2 ^ 1024 - 2 ^ 970) by (vm_compute; reflexivity). lia.
Qed.

Lemma float_range_register_100 (r : Z) : is_register r -> float_range (r * 100) = true.
Proof.
  unfold is_register, float_range. intros Hr. apply Z.ltb_lt.
  assert (6553600 < 2 ^ 1024 - 2 ^ 970) by (vm_compute; reflexivity). lia.
Qed.

Lemma float_range_pair (hi lo : Z) :
  is_register hi -> is_register lo -> float_range (hi * 65536 + lo) = true.
Proof.
  unfold is_register, float_range. intros Hhi Hlo. apply Z.ltb_lt.
  assert (4294967296 < 2 ^ 1024 - 2 ^ 970) by (vm_compute; reflexivity). lia.
Qed.

(** The empty inputs differ: no data at all, or an object that is no
    response, gives "NA" under every name of the table, the names as the
    table has them; an empty list gives an empty result; a response
    whose register list is empty is an [IndexError] that nothing catches. *)
Example decode_sunsaver_data_without_registers :
  decode_sunsaver_data NoData
    = Decoded ((fun v => (v.1, NA)) <$> REGISTER_VARIABLES) [] /\
  decode_sunsaver_data OtherObject
    = Decoded ((fun v => (v.1, NA)) <$> REGISTER_VARIABLES) [ErrorHandling] /\
  decode_sunsaver_data (RegisterList []) = Decoded [] [] /\
  decode_sunsaver_data (Response []) = IndexErrorRaised.
Proof. repeat split; vm_compute; reflexivity. Qed.

(** One turn of the loop, for each way it goes without an error. *)
Lemma decode_loop_hi (r : Z) l (n : string) vs d :
  decode_loop (r :: l) ((n, "HI"%string) :: vs) None d = decode_loop l vs (Some r) d.
Proof. reflexivity. Qed.

Lemma decode_loop_one (r : Z) l (n t : string) vs d v :
  String.eqb t "HI" = false -> convert1 t r = Converted (Some v) ->
  decode_loop (r :: l) ((n, t) :: vs) None d
  = decode_loop l vs None (dict_set (stored_name n) v d).
Proof. intros Ht Hc. cbn [decode_loop]. rewrite Hc, Ht. reflexivity. Qed.

Lemma decode_loop_two (hi r : Z) l (n t : string) vs d v :
  String.eqb t "HI" = false -> convert2 t hi r = Converted (Some v) ->
  decode_loop (r :: l) ((n, t) :: vs) (Some hi) d
  = decode_loop l vs None (dict_set (stored_name n) v d).
Proof. intros Ht Hc. cbn [decode_loop]. rewrite Hc, Ht. reflexivity. Qed.

Ltac convert_register :=
  unfold convert1, convert2, to_float;
  cbn -[float_range zfill format_b Z.lor Z.shiftl str_of_int Z.mul Z.add];
  rewrite ?combine_hi_lo by assumption;
  rewrite ?float_range_register, ?float_range_register_100, ?float_range_pair
    by assumption;
  reflexivity.

Ltac decode_step :=
  first
    [ rewrite decode_loop_hi
    | erewrite decode_loop_one; [| reflexivity | convert_register]
    | erewrite decode_loop_two; [| reflexivity | convert_register] ].

Lemma decode_loop_full (l : list Z) :
  length l = 45%nat -> Forall is_register l ->
  decode_loop l REGISTER_VARIABLES None [] = (full_read l, []).
Proof.
  intros Hlen Hall.
  do 45 (destruct l as [|? l]; [discriminate |]).
  destruct l; [| discriminate]. clear Hlen.
  repeat match goal with
         | H : Forall _ (_ :: _) |- _ => apply Forall_cons in H as [? H]
         end.
  unfold REGISTER_VARIABLES.
  do 45 decode_step.
  reflexivity.
Qed.

(** X20: a full read of 45 registers decodes without an error line into
    38 values, the 45 registers less the 7 "HI" ones.  Each "HI"
    register is stored under no name of its own and is joined with the
    register after it as [hi * 65536 + lo]; the low register of a pair
    is stored without its "_lo" (the name "alarm_Lo_daily" is kept as it
    is); a list and a response object decode alike. *)
Theorem decode_sunsaver_data_full (l : list Z) :
  length l = 45%nat -> Forall is_register l ->
  decode_sunsaver_data (Response l) = decode_sunsaver_data (RegisterList l) /\
  decode_sunsaver_data (Response l) = Decoded (full_read l) [] /\
  length (full_read l) = 38%nat /\
  length (List.filter (fun v => String.eqb v.2 "HI") REGISTER_VARIABLES) = 7%nat.
Proof.
  intros Hlen Hall.
  split; [destruct l; [discriminate | reflexivity] |].
  split; [| split; reflexivity].
  unfold decode_sunsaver_data, decode_with.
  rewrite (decode_loop_full l Hlen Hall).
  destruct l; [discriminate | reflexivity].
Qed.

Lemma decode_sunsaver_data_full_witness :
  let l := Z.of_nat <$> seq 1 45 in
  length l = 45%nat /\ Forall is_register l /\
  decode_sunsaver_data (Response l) = Decoded (full_read l) [] /\
  length (full_read l) = 38%nat.
Proof.
  assert (Forall is_register (Z.of_nat <$> seq 1 45)) as Hall.
  { repeat (constructor; [unfold is_register; lia |]). constructor. }
  split; [reflexivity |]. split; [exact Hall |].
  assert (length (Z.of_nat <$> seq 1 45) = 45%nat) as Hlen by reflexivity.
  destruct (decode_sunsaver_data_full (Z.of_nat <$> seq 1 45) Hlen Hall)
    as (_ & Hfull & Hcount & _).
  split; [exact Hfull | exact Hcount].
Defined.

(** The types of the table that take one argument, and those that take
    two. *)
Lemma is_type_cases (t : string) (types : list string) :
  is_type t types = true -> In t types.
Proof.
  unfold is_type. intros H. apply existsb_exists in H as (x & Hin & Heq).
  apply String.eqb_eq in Heq. now subst.
Qed.

Lemma convert1_register (t : string) (r : Z) :
  is_type t one_argument_types = true -> is_register r ->
  exists o, convert1 t r = Converted o.
Proof.
  intros Ht Hr. apply is_type_cases in Ht. simpl in Ht.
  destruct Ht as [<-|[<-|[<-|[<-|[<-|[<-|[<-|[<-|[<-|[]]]]]]]]]];
    unfold convert1, to_float;
    cbn -[float_range zfill format_b Z.lor Z.shiftl str_of_int Z.mul Z.add];
    rewrite ?float_range_register, ?float_range_register_100 by assumption;
    eexists; reflexivity.
Qed.

Lemma convert2_register (t : string) (hi r : Z) :
  is_type t two_argument_types = true -> is_register hi -> is_register r ->
  String.eqb t "HI" = false /\ exists o, convert2 t hi r = Converted o.
Proof.
  intros Ht Hhi Hr. apply is_type_cases in Ht. simpl in Ht.
  destruct Ht as [<-|[<-|[<-|[]]]]; (split; [reflexivity |]);
    unfold convert2, to_float;
    cbn -[float_range zfill format_b Z.lor Z.shiftl str_of_int Z.mul Z.add];
    rewrite ?combine_hi_lo by assumption;
    rewrite ?float_range_pair by assumption;
    eexists; reflexivity.
Qed.

(** Over a well paired table, registers decode without an error line,
    however many there are. *)
Lemma decode_loop_registers (vs : list (string * string)) :
  forall (l : list Z) (last_hi : option Z) d,
    well_paired vs (match last_hi with Some _ => true | None => false end) = true ->
    Forall is_register l ->
    (forall hi, last_hi = Some hi -> is_register hi) ->
    (decode_loop l vs last_hi d).2 = [].
Proof.
  induction vs as [|[n t] vs IH]; intros l last_hi d Hwp Hl Hhi.
  - destruct l; reflexivity.
  - destruct l as [|r l]; [reflexivity |].
    apply Forall_cons in Hl as [Hr Hl].
    cbn [well_paired] in Hwp.
    destruct last_hi as [hi|]; apply andb_true_iff in Hwp as [Ht Hwp].
    + destruct (convert2_register t hi r Ht (Hhi hi eq_refl) Hr) as [HtHI [o Hc]].
      cbn [decode_loop]. rewrite Hc, HtHI.
      apply IH; [exact Hwp | exact Hl | discriminate].
    + destruct (convert1_register t r Ht Hr) as [o Hc].
      cbn [decode_loop]. rewrite Hc.
      destruct (String.eqb t "HI").
      * apply IH; [exact Hwp | exact Hl |]. now intros hi [= <-].
      * apply IH; [exact Hwp | exact Hl | discriminate].
Qed.

Lemma REGISTER_VARIABLES_well_paired : well_paired REGISTER_VARIABLES false = true.
Proof. vm_compute. reflexivity. Qed.

(** X21: registers of 16 bits never give an error line, however many of
    them the read returned: every conversion of the table succeeds on
    them, and every "HI" entry of the table is followed by an entry that
    takes the pair. *)
Theorem decode_sunsaver_data_registers (l : list Z) :
  Forall is_register l ->
  exists d, decode_sunsaver_data (RegisterList l) = Decoded d [] /\
            (l <> [] -> decode_sunsaver_data (Response l) = Decoded d []).
Proof.
  intros Hl.
  pose proof (decode_loop_registers REGISTER_VARIABLES l None []
                REGISTER_VARIABLES_well_paired Hl ltac:(discriminate)) as Hno.
  unfold decode_sunsaver_data, decode_with.
  destruct (decode_loop l REGISTER_VARIABLES None []) as [d lines].
  cbn [snd] in Hno. subst lines.
  exists d. split; [reflexivity |].
  intros Hne. destruct l; [contradiction | reflexivity].
Qed.

Lemma decode_sunsaver_data_registers_witness :
  Forall is_register [1250; 0; 65535] /\
  exists d, decode_sunsaver_data (RegisterList [1250; 0; 65535]) = Decoded d [] /\
            ([1250; 0; 65535] <> [] ->
             decode_sunsaver_data (Response [1250; 0; 65535]) = Decoded d []).
Proof.
  assert (Forall is_register [1250; 0; 65535]) as Hall.
  { repeat (constructor; [unfold is_register; lia |]). constructor. }
  split; [exact Hall |].
  exact (decode_sunsaver_data_registers [1250; 0; 65535] Hall).
Defined.

(** An integer that is no register can fail: one too large for a float
    is reported, and its name, as the table has it, is stored with "NA". *)
Example decode_sunsaver_data_overflow :
  decode_sunsaver_data (RegisterList [2 ^ 1024])
  = Decoded [("adc_vb_f"%string, NA)]
            [ErrorDecoding FloatOverflow "adc_vb_f" (2 ^ 1024)].
Proof. vm_compute. reflexivity. Qed.

(** ** Sunsaver: reading and decoding *)

Lemma decode_sunsaver_data_NoData :
  decode_sunsaver_data NoData = Decoded every_name_NA [].
Proof. vm_compute. reflexivity. Qed.

Lemma read_raw_sunsaver_data_chosen serial start_offset port unit :
  read_raw_sunsaver_data serial start_offset port unit
  = match chosen_port serial port with
    | None => (Ok NoData, [NoDevicesFound])
    | Some port =>
        match read_holding_registers serial port start_offset unit with
        | Ok data => (Ok data, [])
        | Raise e =>
            if is_Exception e then (Ok NoData, [ErrorReading e])
            else (Raise e, [])
        end
    end.
Proof. reflexivity. Qed.

(** X22: a read that fails is absorbed.  With no device found, or with
    an [Exception] raised while the port is opened and read, the call
    returns every one of the 45 names of the table, the "_hi" and "_lo"
    ones among them, under "NA", having printed one line for the read
    and none for the decoding. *)
Theorem get_sunsaver_data_read_failure serial start_offset port unit :
  (forall p, chosen_port serial port = Some p ->
     exists e, read_holding_registers serial p start_offset unit = Raise e /\
               is_Exception e = true) ->
  exists line,
    get_sunsaver_data serial start_offset port unit
    = Got every_name_NA [line] [] /\
    length every_name_NA = 45%nat.
Proof.
  intros Hfail. unfold get_sunsaver_data.
  rewrite read_raw_sunsaver_data_chosen.
  destruct (chosen_port serial port) as [p|] eqn:Hp.
  - destruct (Hfail p eq_refl) as (e & -> & ->).
    rewrite decode_sunsaver_data_NoData. exists (ErrorReading e). now split.
  - rewrite decode_sunsaver_data_NoData. exists NoDevicesFound. now split.
Qed.

Lemma get_sunsaver_data_read_failure_witness :
  let serial := mkSerial ["/dev/ttyUSB0"%string] (fun _ _ _ => Raise OSError) in
  (forall p, chosen_port serial None = Some p ->
     exists e, read_holding_registers serial p 8 1 = Raise e /\
               is_Exception e = true) /\
  exists line,
    get_sunsaver_data serial 8 None 1 = Got every_name_NA [line] [] /\
    length every_name_NA = 45%nat.
Proof.
  cbv zeta.
  set (serial := mkSerial ["/dev/ttyUSB0"%string] (fun _ _ _ => Raise OSError)).
  assert (forall p, chosen_port serial None = Some p ->
            exists e, read_holding_registers serial p 8 1 = Raise e /\
                      is_Exception e = true) as Hfail.
  { intros p _. exists OSError. split; reflexivity. }
  split; [exact Hfail |].
  exact (get_sunsaver_data_read_failure serial 8 None 1 Hfail).
Defined.

(** X23: what the call lets through.  It raises only what the read
    raised and is no [Exception], or the [IndexError] of a response with
    no registers, and has printed no line for the read then; when it
    returns, it has not printed both a line for the read and a line for
    the decoding. *)
Theorem get_sunsaver_data_raises serial start_offset port unit :
  match get_sunsaver_data serial start_offset port unit with
  | GetRaised e read_lines =>
      read_lines = [] /\
      exists p, chosen_port serial port = Some p /\
        (read_holding_registers serial p start_offset unit = Raise e /\
         is_Exception e = false \/
         read_holding_registers serial p start_offset unit = Ok (Response []) /\
         e = IndexError)
  | Got d read_lines lines => read_lines = [] \/ lines = []
  end.
Proof.
  unfold get_sunsaver_data. rewrite read_raw_sunsaver_data_chosen.
  destruct (chosen_port serial port) as [p|] eqn:Hp.
  - destruct (read_holding_registers serial p start_offset unit) as [data|e] eqn:Hr.
    + destruct (decode_sunsaver_data data) as [d lines|] eqn:Hd.
      * now left.
      * split; [reflexivity |]. exists p. split; [reflexivity |]. right.
        split; [| reflexivity]. rewrite Hr. f_equal.
        destruct data as [|l|[|r l]|]; try reflexivity; exfalso;
          revert Hd; unfold decode_sunsaver_data, decode_with;
          try (destruct (decode_loop _ REGISTER_VARIABLES None []));
          discriminate.
    + destruct (is_Exception e) eqn:He.
      * rewrite decode_sunsaver_data_NoData. now right.
      * split; [reflexivity |]. exists p. split; [reflexivity |]. left.
        now rewrite Hr.
  - rewrite decode_sunsaver_data_NoData. now right.
Qed.
